(** * printfq: shell escaping of strings, after [printfq.c]

    A shallow embedding of the escaping engine of printfq (version 3): the
    option parser, the character classifiers, the UTF-8 code point source
    with its look-ahead queue, and the three quoting loops of [main] (the
    byte oriented one, the wide character one and the UTF-8 one), followed
    by the properties of the program that the specification states.

    Conventions.  A C [int], [int32_t] or [wint_t] is a [Z]; a byte read
    from a stream is a [Z] in 0..255 and end of file is [EOF] = -1.  An
    input stream is the list of the bytes still to be read; reading at the
    end of the list yields [EOF] and leaves the list empty.  The output is
    the list of bytes handed to stdout, in order.

    The loops of [main] take a fuel argument, which bounds the number of
    their turns; [narrowLoop], [utf8Loop] and [wideLoop] give them more than
    the length of the input, and the lemmas [narrowLoop_total],
    [utf8Loop_total] and [wideLoop_total] show that this is always enough.

    In the wide character loop [sizeof(wchar_t)] is taken above 2, as in
    glibc, and [iswxdigit] is [isxdigit] on the ASCII hexadecimal digits. *)

From Stdlib Require Import ZArith List Bool Lia.
Import ListNotations.
Local Open Scope Z_scope.

Set Implicit Arguments.

(** ** Characters and constants *)

Definition EOF : Z := -1.
(** [wint_t] is unsigned in glibc: [WEOF] is [0xffffffffu]. *)
Definition WEOF : Z := 0xFFFFFFFF.

Definition EX_USAGE : Z := 64.
Definition EX_OSERR : Z := 71.
Definition EX_IOERR : Z := 74.
Definition EILSEQ : Z := 84.

Definition ch_tilde : Z := 126.      (* '~' *)
Definition ch_quote : Z := 39.       (* '\'' *)
Definition ch_backslash : Z := 92.   (* '\\' *)
Definition ch_dollar : Z := 36.      (* '$' *)
Definition ch_space : Z := 32.       (* ' ' *)
Definition ch_0 : Z := 48.
Definition ch_7 : Z := 55.
Definition ch_f : Z := 102.
Definition ch_u : Z := 117.
Definition ch_U : Z := 85.

(** [(unsigned)c] and [(uint32_t)c]. *)
Definition to_unsigned (c : Z) : Z := c mod 2 ^ 32.

(** Non-zero test of [x & m], as in [if(x & m)]. *)
Definition bitset (x m : Z) : bool := negb (Z.land x m =? 0).

(** ** Tables of [main] *)

(** [shControlChars]: the characters that must be quoted or escaped. *)
Definition shControlChars : list Z :=
  [ 0; 0; 0; 0; 0; 0; 0; 0;
    0; 1; 1; 0; 0; 0; 0; 0;
    0; 0; 0; 0; 0; 0; 0; 0;
    0; 0; 0; 0; 0; 0; 0; 0;
    1; 1; 1; 1; 1; 0; 1; 1;
    1; 1; 1; 0; 1; 0; 0; 0;
    0; 0; 0; 0; 0; 0; 0; 0;
    0; 0; 0; 1; 1; 0; 1; 1;

    0; 0; 0; 0; 0; 0; 0; 0;
    0; 0; 0; 0; 0; 0; 0; 0;
    0; 0; 0; 0; 0; 0; 0; 0;
    0; 0; 0; 1; 1; 1; 1; 0;
    1; 0; 0; 0; 0; 0; 0; 0;
    0; 0; 0; 0; 0; 0; 0; 0;
    0; 0; 0; 0; 0; 0; 0; 0;
    0; 0; 0; 1; 1; 1; 0; 0 ].

(** [ansiEscapes]: the letters of the escapes defined inside [$'']. *)
Definition ansiEscapes : list Z :=
  [ 0;   0;   0;   0;   0;   0;   0;   97;
    98;  116; 110; 118; 102; 114; 0;   0;
    0;   0;   0;   0;   0;   0;   0;   0;
    0;   0;   0;   69 ].

Definition sizeof_shControlChars : Z := Z.of_nat (length shControlChars).
Definition sizeof_ansiEscapes : Z := Z.of_nat (length ansiEscapes).

(** [(unsigned)c < sizeof(shControlChars) && shControlChars[c]] *)
Definition isShControl (c : Z) : bool :=
  (to_unsigned c <? sizeof_shControlChars)
  && negb (nth (Z.to_nat c) shControlChars 0 =? 0).

(** [(unsigned)c < ansiEscapesLimit && ansiEscapes[c]] *)
Definition hasAnsiEscape (ansiEscapesLimit c : Z) : bool :=
  (to_unsigned c <? ansiEscapesLimit)
  && negb (nth (Z.to_nat c) ansiEscapes 0 =? 0).

Definition ansiEscape (c : Z) : Z := nth (Z.to_nat c) ansiEscapes 0.

(** ** Classifiers *)

(** [isprint] of the C locale, the locale of the byte oriented loop
    whenever it consults [isprint]. *)
Definition isprint (c : Z) : bool := (32 <=? c) && (c <=? 126).

(** [isxdigit], which no locale changes. *)
Definition isxdigit (c : Z) : bool :=
  ((48 <=? c) && (c <=? 57)) || ((65 <=? c) && (c <=? 70))
  || ((97 <=? c) && (c <=? 102)).

Section Classifiers.
(** The C library's [iswprint] and [iswspace] for the active locale. *)
Variable iswprint : Z -> bool.
Variable iswspace : Z -> bool.

Definition iswprintExt (c : Z) : bool :=
  iswprint c &&
  negb (0xAD =? c) &&
  negb (0x034F =? c) &&
  negb (0x061C =? c) &&
  negb (0x115F =? c) &&
  negb (0x1160 =? c) &&
  negb (0x17B4 =? c) &&
  negb (0x17B5 =? c) &&
  ((c <? 0x180B) || (0x180E <? c)) &&
  ((c <? 0x200B) || (0x200F <? c)) &&
  ((c <? 0x202A) || (0x202E <? c)) &&
  ((c <? 0x2060) || (0x206F <? c)) &&
  ((c <? 0xFE00) || (0xFE0F <? c)) &&
  negb (0xFEFF =? c) &&
  negb (0xFFA0 =? c) &&
  negb (0xFFFC =? c) &&
  negb (0x1D159 =? c) &&
  ((c <? 0x1D173) || (0x1D17A <? c)) &&
  negb (0xE0001 =? c) &&
  ((c <? 0xE0020) || (0xE007F <? c)) &&
  ((c <? 0xE0100) || (0xE01EF <? c)).

Definition iswNotBlank (c : Z) : bool :=
  iswprintExt c &&
  (if c <? 0x100 then negb (0xA0 =? c)
   else negb (iswspace c
              || (0x2007 =? c) || (0x202F =? c)
              || (0x2800 =? c) || (0x3164 =? c))).
End Classifiers.

(** ** Options *)

(** The values of [currentoption] that [getopt_long] can hand to the
    [switch]: ['$'] (help), the option letters, ['%'] (version) and ['?']. *)
Inductive optchar : Type :=
  | OptHelp | OptE | OptF | OptI | OptM | OptN | OptU | OptZ
  | OptVersion | OptInvalid.

(** The three values that [iswprintFn] takes. *)
Inductive printFn : Type := FnIswprint | FnIswprintExt | FnIswNotBlank.

Definition printFn_eqb (a b : printFn) : bool :=
  match a, b with
  | FnIswprint, FnIswprint
  | FnIswprintExt, FnIswprintExt
  | FnIswNotBlank, FnIswNotBlank => true
  | _, _ => false
  end.

Record options : Type := {
  ansiEscapesLimit : Z;
  iswprintFn : printFn;
  disableCQuoting : bool;
  useUnicodeEscapes : bool;
  flushArguments : bool;
  ignoreNullInput : bool;
  nullTerminatedOutput : bool
}.

Definition defaults : options := {|
  ansiEscapesLimit := 14;
  iswprintFn := FnIswprint;
  disableCQuoting := false;
  useUnicodeEscapes := false;
  flushArguments := false;
  ignoreNullInput := false;
  nullTerminatedOutput := false
|}.

(** One turn of the [switch]: the new settings, or the exit status with
    which [main] ends. *)
Definition setOption (o : options) (k : optchar) : options + Z :=
  match k with
  | OptHelp => inr 0
  | OptE =>
      inl {| ansiEscapesLimit := ansiEscapesLimit o;
             iswprintFn := FnIswNotBlank;
             disableCQuoting := disableCQuoting o;
             useUnicodeEscapes := useUnicodeEscapes o;
             flushArguments := flushArguments o;
             ignoreNullInput := ignoreNullInput o;
             nullTerminatedOutput := nullTerminatedOutput o |}
  | OptF =>
      inl {| ansiEscapesLimit := ansiEscapesLimit o;
             iswprintFn := iswprintFn o;
             disableCQuoting := disableCQuoting o;
             useUnicodeEscapes := useUnicodeEscapes o;
             flushArguments := true;
             ignoreNullInput := ignoreNullInput o;
             nullTerminatedOutput := true |}
  | OptI =>
      inl {| ansiEscapesLimit := ansiEscapesLimit o;
             iswprintFn := if negb (printFn_eqb FnIswNotBlank (iswprintFn o))
                           then FnIswprintExt else iswprintFn o;
             disableCQuoting := disableCQuoting o;
             useUnicodeEscapes := useUnicodeEscapes o;
             flushArguments := flushArguments o;
             ignoreNullInput := ignoreNullInput o;
             nullTerminatedOutput := nullTerminatedOutput o |}
  | OptM =>
      inl {| ansiEscapesLimit := ansiEscapesLimit o;
             iswprintFn := iswprintFn o;
             disableCQuoting := true;
             useUnicodeEscapes := useUnicodeEscapes o;
             flushArguments := flushArguments o;
             ignoreNullInput := ignoreNullInput o;
             nullTerminatedOutput := nullTerminatedOutput o |}
  | OptN =>
      inl {| ansiEscapesLimit := ansiEscapesLimit o;
             iswprintFn := iswprintFn o;
             disableCQuoting := disableCQuoting o;
             useUnicodeEscapes := useUnicodeEscapes o;
             flushArguments := flushArguments o;
             ignoreNullInput := true;
             nullTerminatedOutput := nullTerminatedOutput o |}
  | OptU =>
      inl {| ansiEscapesLimit := sizeof_ansiEscapes;
             iswprintFn := iswprintFn o;
             disableCQuoting := disableCQuoting o;
             useUnicodeEscapes := true;
             flushArguments := flushArguments o;
             ignoreNullInput := ignoreNullInput o;
             nullTerminatedOutput := nullTerminatedOutput o |}
  | OptZ =>
      inl {| ansiEscapesLimit := ansiEscapesLimit o;
             iswprintFn := iswprintFn o;
             disableCQuoting := disableCQuoting o;
             useUnicodeEscapes := useUnicodeEscapes o;
             flushArguments := flushArguments o;
             ignoreNullInput := ignoreNullInput o;
             nullTerminatedOutput := true |}
  | OptVersion => inr 0
  | OptInvalid => inr EX_USAGE
  end.

(** The [while] loop over [getopt_long]. *)
Fixpoint parseOptions (o : options) (ks : list optchar) : options + Z :=
  match ks with
  | [] => inl o
  | k :: ks' =>
      match setOption o k with
      | inl o' => parseOptions o' ks'
      | inr status => inr status
      end
  end.

(** ** Output formatting *)

(** The digit characters of [printf]'s [%o] and [%X]. *)
Definition digitChar (d : Z) : Z := if d <? 10 then 48 + d else 55 + d.

Fixpoint digitsAux (fuel : nat) (base n : Z) (acc : list Z) : list Z :=
  match fuel with
  | O => acc
  | S fuel' =>
      let acc' := digitChar (n mod base) :: acc in
      if n / base =? 0 then acc' else digitsAux fuel' base (n / base) acc'
  end.

(** The digits of a 32-bit value in the given base; 32 digits are enough
    in any base above 1. *)
Definition digits (base n : Z) : list Z := digitsAux 32 base n [].

(** A precision, as in [%.3o]: zeros on the left up to [k] digits. *)
Definition padTo (k : nat) (l : list Z) : list Z :=
  repeat ch_0 (k - length l) ++ l.

(** [printf("\\%o", c)], [printf("\\%.3o", c)] *)
Definition fmt_o (c : Z) : list Z := ch_backslash :: digits 8 c.
Definition fmt_3o (c : Z) : list Z := ch_backslash :: padTo 3 (digits 8 c).
(** [printf("\\u%X", c)], [printf("\\u%.4X", c)], [printf("\\U%X", c)] *)
Definition fmt_uX (c : Z) : list Z := ch_backslash :: ch_u :: digits 16 c.
Definition fmt_u4X (c : Z) : list Z :=
  ch_backslash :: ch_u :: padTo 4 (digits 16 c).
Definition fmt_UX (c : Z) : list Z := ch_backslash :: ch_U :: digits 16 c.
(** [printf("\\%c", ansiEscapes[c])] *)
Definition fmt_c (c : Z) : list Z := [ch_backslash; ansiEscape c].

(** ** The UTF-8 code point source *)

(** [getc_unlocked(stdin)]: end of file is reported at every later read. *)
Definition getc (s : list Z) : Z * list Z :=
  match s with
  | [] => (EOF, [])
  | b :: s' => (b, s')
  end.

(** Arrays of fixed size are lists; [aget] reads a cell, [aset] writes one,
    and [memmove dst src n] copies [n] cells from index [src] to index [dst]
    of the same array (a copy that would leave the array is cut at its end:
    the program never makes one). *)
Definition aget (i : nat) (l : list Z) : Z := nth i l 0.

Fixpoint aset (i : nat) (v : Z) (l : list Z) : list Z :=
  match l, i with
  | [], _ => []
  | _ :: l', O => v :: l'
  | x :: l', S i' => x :: aset i' v l'
  end.

Definition memmove (dst src n : nat) (l : list Z) : list Z :=
  map (fun k => if (dst <=? k)%nat && (k <? dst + n)%nat
                then aget (src + (k - dst)) l else aget k l)
      (seq 0 (length l)).

(** [(unsigned char)x] *)
Definition to_uchar (x : Z) : Z := x mod 256.

(** The variables that [getUtf8CodePoint] and [ungetUtf8CodePoint] share
    with the UTF-8 loop, together with the unread part of stdin. *)
Record utf8 : Type := {
  stdin : list Z;
  getUtf8Buff : list Z;           (* int32_t[4] *)
  getUtf8BuffLength : nat;
  cbuff : list Z;                 (* unsigned char[4] *)
  bytesInCodePoint : nat
}.

Definition set_stdin (s : list Z) (st : utf8) : utf8 :=
  {| stdin := s; getUtf8Buff := getUtf8Buff st;
     getUtf8BuffLength := getUtf8BuffLength st; cbuff := cbuff st;
     bytesInCodePoint := bytesInCodePoint st |}.
Definition set_buff (b : list Z) (st : utf8) : utf8 :=
  {| stdin := stdin st; getUtf8Buff := b;
     getUtf8BuffLength := getUtf8BuffLength st; cbuff := cbuff st;
     bytesInCodePoint := bytesInCodePoint st |}.
Definition set_len (n : nat) (st : utf8) : utf8 :=
  {| stdin := stdin st; getUtf8Buff := getUtf8Buff st;
     getUtf8BuffLength := n; cbuff := cbuff st;
     bytesInCodePoint := bytesInCodePoint st |}.
Definition set_cbuff (b : list Z) (st : utf8) : utf8 :=
  {| stdin := stdin st; getUtf8Buff := getUtf8Buff st;
     getUtf8BuffLength := getUtf8BuffLength st; cbuff := b;
     bytesInCodePoint := bytesInCodePoint st |}.
Definition set_bytes (n : nat) (st : utf8) : utf8 :=
  {| stdin := stdin st; getUtf8Buff := getUtf8Buff st;
     getUtf8BuffLength := getUtf8BuffLength st; cbuff := cbuff st;
     bytesInCodePoint := n |}.

(** The state in which the UTF-8 loop starts: nothing read ahead. *)
Definition utf8_init (input : list Z) : utf8 :=
  {| stdin := input; getUtf8Buff := [0; 0; 0; 0]; getUtf8BuffLength := 0;
     cbuff := [0; 0; 0; 0]; bytesInCodePoint := 0 |}.

(** [getUtf8Buff[i] = getc_unlocked(stdin)] *)
Definition readInto (i : nat) (st : utf8) : utf8 :=
  let (b, s') := getc (stdin st) in
  set_stdin s' (set_buff (aset i b (getUtf8Buff st)) st).

(** [if(n > getUtf8BuffLength) getUtf8Buff[n - 1] = getc_unlocked(stdin)] *)
Definition fill (n : nat) (st : utf8) : utf8 :=
  if (getUtf8BuffLength st <? n)%nat then readInto (n - 1) st else st.

(** [(x & 0xC0) == 0x80] *)
Definition isCont (x : Z) : bool := Z.land x 0xC0 =? 0x80.

Definition cp2 (b0 b1 : Z) : Z :=
  Z.lor (Z.shiftl (Z.land b0 0x1F) 6) (Z.land b1 0x3F).
Definition cp3 (b0 b1 b2 : Z) : Z :=
  Z.lor (Z.lor (Z.shiftl (Z.land b0 0x0F) 12) (Z.shiftl (Z.land b1 0x3F) 6))
        (Z.land b2 0x3F).
Definition cp4 (b0 b1 b2 b3 : Z) : Z :=
  Z.lor (Z.lor (Z.lor (Z.shiftl (Z.land b0 0x07) 18)
                      (Z.shiftl (Z.land b1 0x3F) 12))
               (Z.shiftl (Z.land b2 0x3F) 6))
        (Z.land b3 0x3F).

(** The end of [getUtf8CodePoint] for a byte returned by itself:
    [rc = *getUtf8Buff], then the queue loses its first cell. *)
Definition rawTail (st : utf8) : Z * utf8 :=
  let rc := aget 0 (getUtf8Buff st) in
  match getUtf8BuffLength st with
  | O => (rc, st)
  | S n =>
      (rc, set_len n (if (n =? 0)%nat then st
                      else set_buff (memmove 0 1 n (getUtf8Buff st)) st))
  end.

(** The labels [setCbuff3], [setCbuff2], [setCbuff1]: the bytes of the code
    point go to [cbuff], and what was read past it moves to the front. *)
Fixpoint setCbuff (k : nat) (st : utf8) : utf8 :=
  match k with
  | O => st
  | S k' =>
      setCbuff k'
        (set_cbuff (aset k' (to_uchar (aget k' (getUtf8Buff st))) (cbuff st))
                   st)
  end.

Definition decodedTail (rc : Z) (st : utf8) : Z * utf8 :=
  let st := setCbuff (bytesInCodePoint st) st in
  (rc,
   if (getUtf8BuffLength st =? 0)%nat then st
   else set_buff (memmove 0 (bytesInCodePoint st) (getUtf8BuffLength st)
                          (getUtf8Buff st)) st).

(** [if(n > getUtf8BuffLength) getUtf8BuffLength = n] *)
Definition atLeast (n : nat) (st : utf8) : utf8 :=
  if (getUtf8BuffLength st <? n)%nat then set_len n st else st.

Definition getUtf8CodePoint (st : utf8) : Z * utf8 :=
  let st := if (getUtf8BuffLength st =? 0)%nat then readInto 0 st else st in
  let b0 := aget 0 (getUtf8Buff st) in
  if -1 <? b0 then
    if bitset b0 0x80 then
      if bitset b0 0x40 then
        let st := fill 2 st in
        if bitset b0 0x20 then
          let st := fill 3 st in
          if bitset b0 0x10 then
            if negb (bitset b0 0x8) then
              let st := fill 4 st in
              let b := getUtf8Buff st in
              let rc := cp4 b0 (aget 1 b) (aget 2 b) (aget 3 b) in
              if isCont (aget 3 b) && (0xFFFF <? rc) && (rc <? 0x110000)
              then decodedTail rc (set_len 0 (set_bytes 4 st))
              else rawTail (set_bytes 0 (atLeast 3 (set_len 4 st)))
            else rawTail (set_bytes 0 (atLeast 3 st))
          else
            let b := getUtf8Buff st in
            let rc := cp3 b0 (aget 1 b) (aget 2 b) in
            if isCont (aget 2 b) && (0x7FF <? rc)
               && ((rc <? 0xD800) || (0xDFFF <? rc))
            then decodedTail rc
                   (set_len (if (3 <? getUtf8BuffLength st)%nat then 1 else 0)
                            (set_bytes 3 st))
            else rawTail (set_bytes 0 (atLeast 3 st))
        else
          let rc := cp2 b0 (aget 1 (getUtf8Buff st)) in
          if isCont (aget 1 (getUtf8Buff st)) && (0x7F <? rc)
          then decodedTail rc
                 (set_len (if (1 <? getUtf8BuffLength st)%nat
                           then getUtf8BuffLength st - 2 else 0)
                          (set_bytes 2 st))
          else rawTail (set_bytes 0 (atLeast 2 st))
      else rawTail (set_bytes 0 st)
    else rawTail (set_cbuff (aset 0 (to_uchar b0) (cbuff st)) (set_bytes 1 st))
  else rawTail (set_bytes 0 st).

(** The [do ... while(bytesInCodePoint)] of [ungetUtf8CodePoint]. *)
Fixpoint copyBack (k : nat) (st : utf8) : utf8 :=
  match k with
  | O => set_bytes 0 st
  | S k' =>
      copyBack k' (set_buff (aset k' (aget k' (cbuff st)) (getUtf8Buff st)) st)
  end.

Definition ungetUtf8CodePoint (uc : Z) (st : utf8) : utf8 :=
  let n := getUtf8BuffLength st in
  let k := bytesInCodePoint st in
  if negb (k =? 0)%nat then
    let st := if negb (n =? 0)%nat
              then set_buff (memmove k 0 n (getUtf8Buff st)) st else st in
    copyBack k (set_len (n + k) st)
  else
    let st :=
      if (n =? 0)%nat then set_len 1 st
      else if (n <? 4)%nat
           then set_len (S n) (set_buff (memmove 1 0 n (getUtf8Buff st)) st)
           else st in
    set_buff (aset 0 uc (getUtf8Buff st)) st.

(** [ungetUtf8CodePoint((nextc = getUtf8CodePoint()))]: the next code point,
    looked at and put back. *)
Definition peekUtf8 (st : utf8) : Z * utf8 :=
  let (nextc, st') := getUtf8CodePoint st in
  (nextc, ungetUtf8CodePoint nextc st').

(** ** Standard output and the pipe *)

(** A stream of the C library: standard output, or the pipe to the child
    when there are two or more arguments.  The host accepts [room] bytes
    from the stream and fails every write after them ([None]: it never
    fails).  The loops below keep in [out] every byte they hand to the
    stream.  Both streams are fully buffered ([setvbuf] with [_IOFBF] and
    an array of [BUFSIZ] bytes): a byte handed over is stored in the
    array, and the array is written to the host when it is full and one
    more byte arrives, by [fflush], and when the stream is closed or the
    process ends.  The wide character loop hands over wide characters:
    there [out] and [room] count characters. *)

(** [BUFSIZ] of [stdio.h], with the value of the GNU C library. *)
Definition BUFSIZ : Z := 8192.

(** How many bytes a stream that is not flushed takes before
    [putc_unlocked] returns [EOF], when the host accepts [n] bytes: the
    array is written each time it is full, the first of these writes that
    the host does not accept whole fails, and the array then stays full, so
    that every later [putc_unlocked] fails as well. *)
Definition streamRoom (n : nat) : Z := BUFSIZ * (Z.of_nat n / BUFSIZ + 1).

(** [EOF != putc_unlocked(c, stream)] after [out] was handed over. *)
Definition putcOk (room : option nat) (out : list Z) : bool :=
  match room with
  | None => true
  | Some n => Z.of_nat (length out) <? streamRoom n
  end.

(** [EOF != fflush_unlocked(stdout)] after [out] was handed over: the host
    accepts all of it.  The same test tells whether [write] delivers
    [out]. *)
Definition fflushOk (room : option nat) (out : list Z) : bool :=
  match room with
  | None => true
  | Some n => (length out <=? n)%nat
  end.

(** What has reached the host when the process ends: the stored bytes are
    written then, as far as the host accepts them. *)
Definition written (room : option nat) (out : list Z) : list Z :=
  match room with
  | None => out
  | Some n => firstn n out
  end.

(** The strings that the loops write. *)
Definition s_dollar_quote : list Z := [ch_dollar; ch_quote].      (* "$'" *)
Definition s_bs_bs : list Z := [ch_backslash; ch_backslash].      (* "\\\\" *)
Definition s_bs_quote : list Z := [ch_backslash; ch_quote].       (* "\\'" *)
Definition s_quote_quote : list Z := [ch_quote; ch_quote].        (* "''" *)

(** Standard input read through [getwc]: the wide characters that the C
    library decodes from it, whether what follows them cannot be decoded
    (then [getwc] returns [WEOF] with [errno] set to [EILSEQ]), and whether
    [errno] is [EILSEQ]. *)
Record wstream : Type := {
  wchars : list Z;
  undecodable : bool;
  errnoIsEILSEQ : bool
}.

Section Engine.
(** The platform's classifiers, the settings left by the option parser
    and the room on standard output. *)
Variable iswprint : Z -> bool.
Variable iswspace : Z -> bool.
Variable o : options.
Variable room : option nat.

(** [iswprintFn(c)] *)
Definition callIswprintFn (c : Z) : bool :=
  match iswprintFn o with
  | FnIswprint => iswprint c
  | FnIswprintExt => iswprintExt iswprint c
  | FnIswNotBlank => iswNotBlank iswprint iswspace c
  end.

(** The separator written between two records, in the three loops: the
    value of [rc] (or [lc]) and the output.  Where [fflush_unlocked]
    follows the [putc_unlocked], the stream is emptied at each separator
    and the array fills up at other places than [streamRoom] tells; the
    conjunction is exact all the same, since a [putc_unlocked] fails only
    when the host has refused a byte, and then [fflush_unlocked] fails
    too. *)
Definition separator (out : list Z) : bool * list Z :=
  if ignoreNullInput o then (true, out)
  else if nullTerminatedOutput o then
    (putcOk room out
     && (negb (flushArguments o) || fflushOk room (out ++ [0])),
     out ++ [0])
  else (putcOk room out, out ++ [ch_space]).

(** What the loops write once the input has ended: after a null
    ([afterNull]) or not. *)
Definition terminator (afterNull : bool) (out : list Z) : list Z :=
  if afterNull then
    if nullTerminatedOutput o then out ++ [0] else out
  else
    if ignoreNullInput o && nullTerminatedOutput o then out ++ [0] else out.

(** *** The UTF-8 loop *)

(** [bytesInCodePoint && iswprintFn((wint_t)c)] *)
Definition utf8Printable (c : Z) (st : utf8) : bool :=
  negb (bytesInCodePoint st =? 0)%nat && callIswprintFn c.

(** The body of the [do] loop inside [$'...']: one code point written,
    and whether the loop is left by [break]. *)
Definition utf8Emit (c : Z) (isPrintable : bool) (st : utf8)
           (out : list Z) : utf8 * list Z * bool :=
  if isPrintable then
    if ch_backslash =? c then (st, out ++ s_bs_bs, false)
    else if ch_quote =? c then (st, out ++ s_bs_quote, false)
    else if negb (bytesInCodePoint st =? 0)%nat
    then (st, out ++ firstn (bytesInCodePoint st) (cbuff st), false)
    else (st, out ++ [to_uchar c], false)
  else if (c <? 128) || (bytesInCodePoint st =? 0)%nat then
    if hasAnsiEscape (ansiEscapesLimit o) c
    then (st, out ++ fmt_c c, false)
    else if 63 <? c then (st, out ++ fmt_3o c, false)
    else
      let (nextc, st') := peekUtf8 st in
      (st',
       out ++ (if (nextc <=? ch_7) && (ch_0 <=? nextc)
               then fmt_3o c else fmt_o c),
       false)
  else if negb (useUnicodeEscapes o) then
    (st,
     out ++ flat_map fmt_3o (firstn (bytesInCodePoint st) (cbuff st)),
     false)
  else if c <=? 65535 then
    if 0xFFF <? c then (st, out ++ fmt_u4X c, false)
    else
      let (nextc, st') := peekUtf8 st in
      (st',
       out ++ (if (nextc <=? ch_f) && isxdigit nextc
               then fmt_u4X c else fmt_uX c),
       false)
  else
    let (nextc, st') := peekUtf8 st in
    (st', out ++ fmt_UX c, (nextc <=? ch_f) && isxdigit nextc).

(** The [do ... while] inside [$'...']: it ends with the code point that
    stopped it. *)
Fixpoint utf8Quoted (fuel : nat) (c : Z) (isPrintable : bool) (st : utf8)
         (out : list Z) : option (Z * utf8 * list Z) :=
  match fuel with
  | O => None
  | S fuel' =>
      let '(st1, out1, brk) := utf8Emit c isPrintable st out in
      if brk then Some (c, st1, out1)
      else
        let (c', st2) := getUtf8CodePoint st1 in
        if 0 <? c'
        then utf8Quoted fuel' c' (utf8Printable c' st2) st2 out1
        else Some (c', st2, out1)
  end.

(** The [do ... while(0 < c)] over one record.  [jump] is true when the
    loop is entered at the label [utf8StartEscape]. *)
Fixpoint utf8Record (fuel : nat) (jump : bool) (c : Z) (st : utf8)
         (out : list Z) : option (Z * utf8 * list Z) :=
  match fuel with
  | O => None
  | S fuel' =>
      let next (st : utf8) (out : list Z) :=
        let (c', st') := getUtf8CodePoint st in
        if 0 <? c' then utf8Record fuel' false c' st' out
        else Some (c', st', out) in
      let isPrintable := if jump then true else utf8Printable c st in
      if jump || negb isPrintable || isShControl c then
        if negb jump && (ch_quote =? c) then next st (out ++ s_bs_quote)
        else
          match utf8Quoted fuel' c isPrintable st (out ++ s_dollar_quote)
          with
          | None => None
          | Some (c', st', out') =>
              let out' := out' ++ [ch_quote] in
              if c' <=? 0 then Some (c', st', out') else next st' out'
          end
      else next st (out ++ firstn (bytesInCodePoint st) (cbuff st))
  end.

(** The condition of the outer [do ... while], evaluated with the code
    point [c] that ended a record: the output of the run when the loop
    ends, or the first code point of the next record and whether the
    loop is entered again at [utf8StartEscape]. *)
Definition utf8Between (c : Z) (st : utf8) (out : list Z)
  : list Z + (bool * Z * utf8 * list Z) :=
  if 0 =? c then
    let (c', st') := getUtf8CodePoint st in
    if negb (EOF =? c') then
      let (lc, out') := separator out in
      if (ch_tilde =? c') && lc then inr (true, c', st', out')
      else if lc then inr (false, c', st', out')
           else inl out'
    else inl (terminator true out)
  else inl (terminator false out).

(** The outer [do ... while]: record after record. *)
Fixpoint utf8Records (fuel : nat) (jump : bool) (c : Z) (st : utf8)
         (out : list Z) : option (list Z) :=
  match fuel with
  | O => None
  | S fuel' =>
      match (if jump || (0 <? c) then utf8Record fuel' jump c st out
             else Some (c, st, out ++ s_quote_quote)) with
      | None => None
      | Some (c, st, out) =>
          match utf8Between c st out with
          | inl out' => Some out'
          | inr (jump', c', st', out') =>
              utf8Records fuel' jump' c' st' out'
          end
      end
  end.

(** The UTF-8 branch of [main], from the first [getUtf8CodePoint]. *)
Definition utf8Loop (input : list Z) : option (list Z) :=
  let (c, st) := getUtf8CodePoint (utf8_init input) in
  utf8Records (length input + 2) (ch_tilde =? c) c st [].

(** *** The byte oriented loop *)

(** The body of the [do] loop inside [$'...'].  The look at the next
    byte ([getc_unlocked] then [ungetc]) leaves stdin as it was. *)
Definition narrowEmit (c : Z) (isPrintable : bool) (s : list Z)
           (out : list Z) : list Z :=
  if isPrintable then
    if ch_backslash =? c then out ++ s_bs_bs
    else if ch_quote =? c then out ++ s_bs_quote
    else out ++ [to_uchar c]
  else if hasAnsiEscape (ansiEscapesLimit o) c then out ++ fmt_c c
  else
    out ++ (if (63 <? c)
               || (let nextc := fst (getc s) in
                   (nextc <=? ch_7) && (ch_0 <=? nextc))
            then fmt_3o c else fmt_o c).

(** [do putc_unlocked(c, stdout);
     while(0 < (c = getc_unlocked(stdin)) && '\'' != c);] *)
Fixpoint narrowRaw (s : list Z) (c : Z) (out : list Z)
  : Z * list Z * list Z :=
  let out' := out ++ [to_uchar c] in
  match s with
  | [] => (EOF, [], out')
  | b :: s' =>
      if (0 <? b) && negb (ch_quote =? b) then narrowRaw s' b out'
      else (b, s', out')
  end.

(** The [do ... while] inside [$'...']. *)
Fixpoint narrowQuoted (s : list Z) (c : Z) (isPrintable : bool)
         (out : list Z) : Z * list Z * list Z :=
  let out' := narrowEmit c isPrintable s out in
  match s with
  | [] => (EOF, [], out')
  | b :: s' =>
      if 0 <? b then narrowQuoted s' b (isprint b) out'
      else (b, s', out')
  end.

(** The [do ... while(0 < c)] over one record.  [jump] is true when the
    loop is entered at the label [narrowCharStartEscape]. *)
Fixpoint narrowRecord (fuel : nat) (jump : bool) (c : Z) (s : list Z)
         (out : list Z) : option (Z * list Z * list Z) :=
  match fuel with
  | O => None
  | S fuel' =>
      let next (s : list Z) (out : list Z) :=
        let (c', s') := getc s in
        if 0 <? c' then narrowRecord fuel' false c' s' out
        else Some (c', s', out) in
      let isPrintable :=
        if jump then true else disableCQuoting o || isprint c in
      if jump || isShControl c || negb isPrintable then
        if ch_quote =? c then next s (out ++ s_bs_quote)
        else
          let '(c', s', out') :=
            if disableCQuoting o then narrowRaw s c (out ++ [ch_quote])
            else narrowQuoted s c isPrintable (out ++ s_dollar_quote) in
          let out' := out' ++ [ch_quote] in
          if ch_quote =? c' then next s' (out' ++ s_bs_quote)
          else if c' <=? 0 then Some (c', s', out')
          else next s' out'
      else next s (out ++ [to_uchar c])
  end.

(** The condition of the outer [do ... while]. *)
Definition narrowBetween (c : Z) (s : list Z) (out : list Z)
  : list Z + (bool * Z * list Z * list Z) :=
  if 0 =? c then
    let (c', s') := getc s in
    if negb (EOF =? c') then
      let (rc, out') := separator out in
      if (ch_tilde =? c') && rc then inr (true, c', s', out')
      else if rc then inr (false, c', s', out')
           else inl out'
    else inl (terminator true out)
  else inl (terminator false out).

(** The outer [do ... while]. *)
Fixpoint narrowRecords (fuel : nat) (jump : bool) (c : Z) (s : list Z)
         (out : list Z) : option (list Z) :=
  match fuel with
  | O => None
  | S fuel' =>
      match (if jump || (0 <? c) then narrowRecord fuel' jump c s out
             else Some (c, s, out ++ s_quote_quote)) with
      | None => None
      | Some (c, s, out) =>
          match narrowBetween c s out with
          | inl out' => Some out'
          | inr (jump', c', s', out') =>
              narrowRecords fuel' jump' c' s' out'
          end
      end
  end.

(** The byte oriented branch of [main]. *)
Definition narrowLoop (input : list Z) : option (list Z) :=
  let (c, s) := getc input in
  narrowRecords (length input + 2) (ch_tilde =? c) c s [].

(** *** The wide character loop *)

(** The bytes [cbuff[i]] that the wide character loop prints for a code
    point above 127 when [\u] escapes are off. *)
Definition wideBytes (c : Z) : list Z :=
  let b5 := Z.lor (Z.land c 0xBF) 0x80 in
  if c <? 0x800 then [Z.lor 0xC0 (Z.shiftr c 6); b5]
  else
    let b4 := Z.lor (Z.land (Z.shiftr c 6) 0xBF) 0x80 in
    if c <? 0x10000 then [Z.lor 0xE0 (Z.shiftr c 12); b4; b5]
    else
      let b3 := Z.lor (Z.land (Z.shiftr c 12) 0xBF) 0x80 in
      if c <? 0x200000 then [Z.lor 0xF0 (Z.shiftr c 18); b3; b4; b5]
      else
        let b2 := Z.lor (Z.land (Z.shiftr c 18) 0xBF) 0x80 in
        if c <? 0x4000000
        then [Z.lor 0xF8 (Z.shiftr c 24); b2; b3; b4; b5]
        else
          let b1 := Z.lor (Z.land (Z.shiftr c 24) 0xBF) 0x80 in
          [Z.lor 0xFC (if 0x40000000 <=? c then 1 else 0);
           b1; b2; b3; b4; b5].

(** [getwc_unlocked(stdin)] *)
Definition getwc (ws : wstream) : Z * wstream :=
  match wchars ws with
  | [] => (WEOF, {| wchars := []; undecodable := undecodable ws;
                    errnoIsEILSEQ := errnoIsEILSEQ ws || undecodable ws |})
  | c :: l => (c, {| wchars := l; undecodable := undecodable ws;
                     errnoIsEILSEQ := errnoIsEILSEQ ws |})
  end.

(** [ungetwc((nextc = getwc_unlocked(stdin)), stdin)] *)
Definition peekwc (ws : wstream) : Z * wstream :=
  let (nextc, ws') := getwc ws in
  (nextc, {| wchars := wchars ws; undecodable := undecodable ws;
             errnoIsEILSEQ := errnoIsEILSEQ ws' |}).

Definition wideEmit (c : Z) (isPrintable : bool) (ws : wstream)
           (out : list Z) : wstream * list Z * bool :=
  if isPrintable then
    if ch_backslash =? c then (ws, out ++ s_bs_bs, false)
    else if ch_quote =? c then (ws, out ++ s_bs_quote, false)
    else (ws, out ++ [c], false)
  else if c <? 128 then
    if hasAnsiEscape (ansiEscapesLimit o) c
    then (ws, out ++ fmt_c c, false)
    else if 63 <? c then (ws, out ++ fmt_3o c, false)
    else
      let (nextc, ws') := peekwc ws in
      (ws',
       out ++ (if (nextc <=? ch_7) && (ch_0 <=? nextc)
               then fmt_3o c else fmt_o c),
       false)
  else if negb (useUnicodeEscapes o) then
    (ws, out ++ flat_map fmt_3o (wideBytes c), false)
  else if c <=? 65535 then
    if 0xFFF <? c then (ws, out ++ fmt_u4X c, false)
    else
      let (nextc, ws') := peekwc ws in
      (ws', out ++ (if isxdigit nextc then fmt_u4X c else fmt_uX c), false)
  else
    let (nextc, ws') := peekwc ws in
    (ws', out ++ fmt_UX c, isxdigit nextc).

(** [0 != c && WEOF != c] *)
Definition wideChar (c : Z) : bool := negb (0 =? c) && negb (WEOF =? c).

(** [do putwc_unlocked(c, stdout); while(0 != (c = getwc_unlocked(stdin))
     && WEOF != c && '\'' != c);] *)
Fixpoint wideRaw (fuel : nat) (c : Z) (ws : wstream) (out : list Z)
  : option (Z * wstream * list Z) :=
  match fuel with
  | O => None
  | S fuel' =>
      let out' := out ++ [c] in
      let (c', ws') := getwc ws in
      if wideChar c' && negb (ch_quote =? c')
      then wideRaw fuel' c' ws' out'
      else Some (c', ws', out')
  end.

Fixpoint wideQuoted (fuel : nat) (c : Z) (isPrintable : bool)
         (ws : wstream) (out : list Z) : option (Z * wstream * list Z) :=
  match fuel with
  | O => None
  | S fuel' =>
      let '(ws1, out1, brk) := wideEmit c isPrintable ws out in
      if brk then Some (c, ws1, out1)
      else
        let (c', ws2) := getwc ws1 in
        if wideChar c'
        then wideQuoted fuel' c' (callIswprintFn c') ws2 out1
        else Some (c', ws2, out1)
  end.

(** [c < sizeof(shControlChars) && shControlChars[c]], [c] unsigned. *)
Definition wideRecord_isShControl (c : Z) : bool :=
  (c <? sizeof_shControlChars)
  && negb (nth (Z.to_nat c) shControlChars 0 =? 0).

Fixpoint wideRecord (fuel : nat) (jump : bool) (c : Z) (ws : wstream)
         (out : list Z) : option (Z * wstream * list Z) :=
  match fuel with
  | O => None
  | S fuel' =>
      let next (ws : wstream) (out : list Z) :=
        let (c', ws') := getwc ws in
        if wideChar c' then wideRecord fuel' false c' ws' out
        else Some (c', ws', out) in
      let isPrintable :=
        if jump then true else disableCQuoting o || callIswprintFn c in
      if jump || wideRecord_isShControl c || negb isPrintable then
        if ch_quote =? c then next ws (out ++ s_bs_quote)
        else
          match (if disableCQuoting o
                 then wideRaw fuel' c ws (out ++ [ch_quote])
                 else wideQuoted fuel' c isPrintable ws
                                 (out ++ s_dollar_quote)) with
          | None => None
          | Some (c', ws', out') =>
              let out' := out' ++ [ch_quote] in
              if ch_quote =? c' then next ws' (out' ++ s_bs_quote)
              else if negb (wideChar c') then Some (c', ws', out')
              else next ws' out'
          end
      else next ws (out ++ [c])
  end.

(** The condition of the outer [do ... while]. *)
Definition wideBetween (c : Z) (ws : wstream) (out : list Z)
  : (wstream * list Z) + (bool * Z * wstream * list Z) :=
  if 0 =? c then
    let (c', ws') := getwc ws in
    if negb (WEOF =? c') then
      let (lc, out') := separator out in
      if (ch_tilde =? c') && lc then inr (true, c', ws', out')
      else if lc then inr (false, c', ws', out')
           else inl (ws', out')
    else inl (ws', terminator true out)
  else inl (ws, terminator false out).

Fixpoint wideRecords (fuel : nat) (jump : bool) (c : Z) (ws : wstream)
         (out : list Z) : option (wstream * list Z) :=
  match fuel with
  | O => None
  | S fuel' =>
      match (if jump || wideChar c then wideRecord fuel' jump c ws out
             else Some (c, ws, out ++ s_quote_quote)) with
      | None => None
      | Some (c, ws, out) =>
          match wideBetween c ws out with
          | inl r => Some r
          | inr (jump', c', ws', out') =>
              wideRecords fuel' jump' c' ws' out'
          end
      end
  end.

(** The wide character branch of [main]: the characters written and the
    value that [main] returns. *)
Definition wideLoop (input : wstream) : option (list Z * Z) :=
  let (c, ws) := getwc input in
  match wideRecords (length (wchars input) + 2) (ch_tilde =? c) c ws []
  with
  | None => None
  | Some (ws', out) => Some (out, if errnoIsEILSEQ ws' then EILSEQ else 0)
  end.
End Engine.

(** ** [main] *)

(** The character encoding that [nl_langinfo(CODESET)] names: ["UTF-8"],
    ["ANSI_X3.4-1968"] or another one. *)
Inductive codeset : Type := CsUtf8 | CsAscii | CsOther.

(** What the run depends on outside of the program: whether [setlocale]
    succeeds, the encoding of the locale, its classifiers, how the C
    library reads wide characters from bytes and writes them as bytes,
    whether [pipe] and [fork] succeed, and the room in the pipe and on
    standard output. *)
Record platform : Type := {
  setlocaleOk : bool;
  charmap : codeset;
  p_iswprint : Z -> bool;
  p_iswspace : Z -> bool;
  mbDecode : list Z -> list Z * bool;
  wcEncode : Z -> list Z;
  forkOk : bool;
  pipeRoom : option nat;
  stdoutRoom : option nat
}.

(** What a run leaves: the bytes written to standard output by the loops
    and the exit status.  [Informational] stands for the runs that only
    print the help, the version or a usage error. *)
Inductive outcome : Type :=
  | Informational (status : Z)
  | Ran (stdoutBytes : list Z) (status : Z).

(** The test that selects the byte oriented loop. *)
Definition useNarrow (p : platform) (o : options) : bool :=
  negb (setlocaleOk p)
  || (match charmap p with CsUtf8 => true | _ => false end
      && disableCQuoting o)
  || (match charmap p with CsUtf8 => false | _ => true end
      && match charmap p with CsAscii => true | _ => false end).

(** The three loops, chosen by the locale, on the bytes of stdin. *)
Definition engine (p : platform) (o : options) (input : list Z)
  : option outcome :=
  let room := stdoutRoom p in
  if useNarrow p o then
    match narrowLoop o room input with
    | None => None
    | Some out => Some (Ran (written room out) 0)
    end
  else if match charmap p with CsUtf8 => false | _ => true end then
    let (ws, bad) := mbDecode p input in
    match wideLoop (p_iswprint p) (p_iswspace p) o room
                   {| wchars := ws; undecodable := bad;
                      errnoIsEILSEQ := false |} with
    | None => None
    | Some (out, status) =>
        Some (Ran (flat_map (wcEncode p) (written room out)) status)
    end
  else
    match utf8Loop (p_iswprint p) (p_iswspace p) o room input with
    | None => None
    | Some out => Some (Ran (written room out) 0)
    end.

(** The parent's loop over two or more arguments: [fputs_unlocked] of the
    argument, unchecked, then [putc_unlocked(0, stream)], checked, on the
    buffered stream of the pipe.  The result is what was handed to the
    stream and whether every checked write succeeded.  The [fclose] that
    follows the loop writes what is stored and is not checked either:
    [main] below passes to the child what the pipe accepts. *)
Fixpoint sendArguments (room : option nat) (sent : list Z)
         (args : list (list Z)) : list Z * bool :=
  match args with
  | [] => (sent, true)
  | a :: args' =>
      let sent1 := sent ++ a in
      if putcOk room sent1 then sendArguments room (sent1 ++ [0]) args'
      else (sent1 ++ [0], false)
  end.

(** The parent's [write] loop for a single argument, on the descriptor of
    the pipe: every [write] is checked. *)
Definition sendArgument (room : option nat) (a : list Z) : list Z * bool :=
  (a ++ [0], fflushOk room (a ++ [0])).

Definition withoutIgnoreNull (o : options) : options :=
  {| ansiEscapesLimit := ansiEscapesLimit o;
     iswprintFn := iswprintFn o;
     disableCQuoting := disableCQuoting o;
     useUnicodeEscapes := useUnicodeEscapes o;
     flushArguments := flushArguments o;
     ignoreNullInput := false;
     nullTerminatedOutput := nullTerminatedOutput o |}.

(** [main]: [ks] are the options as [getopt_long] returns them, [args] the
    non-option arguments (strings without a null byte) and [input] the
    bytes on standard input. *)
Definition main (p : platform) (ks : list optchar) (args : list (list Z))
           (input : list Z) : option outcome :=
  match parseOptions defaults ks with
  | inr status => Some (Informational status)
  | inl o =>
      match args with
      | [] => engine p o input
      | a :: args' =>
          let o := withoutIgnoreNull o in
          if negb (forkOk p) then Some (Ran [] EX_OSERR)
          else
            let (sent, ok) :=
              match args' with
              | [] => sendArgument (pipeRoom p) a
              | _ :: _ => sendArguments (pipeRoom p) [] args
              end in
            match engine p o (written (pipeRoom p) sent) with
            | None => None
            | Some (Informational status) => Some (Informational status)
            | Some (Ran out status) =>
                Some (Ran out (if ok then status else EX_IOERR))
            end
      end
  end.

(** * Definitions that follow the specification *)

(** Stated from the specification (section 6, escape-invisible): the
    classification of whichever of escape-more and escape-invisible is
    parsed first. *)
Fixpoint firstParsedPolicy (ks : list optchar) : option printFn :=
  match ks with
  | [] => None
  | OptE :: _ => Some FnIswNotBlank
  | OptI :: _ => Some FnIswprintExt
  | _ :: ks' => firstParsedPolicy ks'
  end.

(** Stated from the specification (section 4.1): a continuation byte
    matches [10xxxxxx], and the value of a sequence of two, three or four
    bytes is made of the low bits of its lead byte and of the six low bits
    of each continuation byte. *)
Definition isContinuation (b : Z) : Prop := 0x80 <= b <= 0xBF.
Definition value2 (a b : Z) : Z := (a - 0xC0) * 64 + (b - 0x80).
Definition value3 (a b c : Z) : Z :=
  (a - 0xE0) * 4096 + (b - 0x80) * 64 + (c - 0x80).
Definition value4 (a b c d : Z) : Z :=
  (a - 0xF0) * 262144 + (b - 0x80) * 4096 + (c - 0x80) * 64 + (d - 0x80).

(** Stated from the specification (section 4.3): the octal digits, the
    three digits of a padded octal escape of a byte, and the one or two
    digits of the shortest escape of a byte below 64. *)
Definition isOctalDigit (c : Z) : bool := (ch_0 <=? c) && (c <=? ch_7).
Definition octal3 (c : Z) : list Z :=
  [ch_0 + c / 64; ch_0 + (c / 8) mod 8; ch_0 + c mod 8].
Definition octalShort (c : Z) : list Z :=
  if c <? 8 then [ch_0 + c] else [ch_0 + c / 8; ch_0 + c mod 8].

(** * Invariants and views used by the properties *)

Definition byte (x : Z) : Prop := 0 <= x < 256.

(** The shape of the look-ahead queue: bytes, then possibly [EOF] cells,
    which are there only when stdin is exhausted. *)
Inductive qshape : list Z -> list Z -> Prop :=
  | qs_nil : forall s, Forall byte s -> qshape [] s
  | qs_byte : forall x q s, byte x -> qshape q s -> qshape (x :: q) s
  | qs_eof : forall q, Forall (eq EOF) q -> qshape (EOF :: q) [].

(** The cells of [getUtf8Buff] that are in use. *)
Definition queue (st : utf8) : list Z :=
  firstn (getUtf8BuffLength st) (getUtf8Buff st).

Definition wf (st : utf8) : Prop :=
  length (getUtf8Buff st) = 4%nat /\ length (cbuff st) = 4%nat
  /\ (getUtf8BuffLength st <= 4)%nat
  /\ qshape (queue st) (stdin st).

(** The bytes that the program has still to deliver: those of the queue,
    then those of stdin. *)
Definition pending (st : utf8) : list Z :=
  filter (fun x => 0 <=? x) (queue st) ++ stdin st.

(** The bytes of the unit that [getUtf8CodePoint] has just returned: the
    encoded code point in [cbuff], or the byte returned by itself. *)
Definition unitBytes (rc : Z) (st : utf8) : list Z :=
  if (bytesInCodePoint st =? 0)%nat then [rc]
  else firstn (bytesInCodePoint st) (cbuff st).

(** What a caller can see of a call of [getUtf8CodePoint]. *)
Definition view (r : Z * utf8) : Z * nat * list Z * list Z :=
  let (rc, st) := r in
  (rc, bytesInCodePoint st, firstn (bytesInCodePoint st) (cbuff st),
   pending st).

(** The units that successive calls of [getUtf8CodePoint] return, up to
    the end of the input. *)
Fixpoint utf8Units (fuel : nat) (st : utf8) : option (list (list Z)) :=
  match fuel with
  | O => None
  | S fuel' =>
      let (rc, st') := getUtf8CodePoint st in
      if rc <? 0 then Some []
      else
        match utf8Units fuel' st' with
        | None => None
        | Some us => Some (unitBytes rc st' :: us)
        end
  end.

(** What a call of [getUtf8CodePoint] from the state [st], with result [r],
    takes from the bytes to deliver: nothing at the end of the input, and
    otherwise the bytes of the unit that it returns, which is a byte
    between 128 and 255 returned by itself, an ASCII character or a code
    point of two to four bytes. *)
Definition consumes (st : utf8) (r : Z * utf8) : Prop :=
  (pending st = [] /\ fst r = EOF /\ bytesInCodePoint (snd r) = 0%nat
   /\ pending (snd r) = [])
  \/ (pending st = unitBytes (fst r) (snd r) ++ pending (snd r) /\
      ((bytesInCodePoint (snd r) = 0%nat /\ 128 <= fst r < 256)
       \/ (bytesInCodePoint (snd r) = 1%nat /\ 0 <= fst r < 128
           /\ unitBytes (fst r) (snd r) = [fst r])
       \/ ((2 <= bytesInCodePoint (snd r) <= 4)%nat /\ 128 <= fst r))).

(** The result of a loop run after [out] was written, from its result run
    with nothing written. *)
Definition shift3 (A B : Type) (out : list Z) (r : A * B * list Z)
  : A * B * list Z :=
  let '(c, s, t) := r in (c, s, out ++ t).

(** Equality of two byte strings, as a test. *)
Definition list_eqb (a b : list Z) : bool :=
  if list_eq_dec Z.eq_dec a b then true else false.

(** What comes after a code point of a record in the UTF-8 loop (the
    [next] of [utf8Record]): the next code point, and the loop again when
    it is above 0. *)
Definition utf8Next (iswprint iswspace : Z -> bool) (o : options)
           (fuel : nat) (st : utf8) (out : list Z)
  : option (Z * utf8 * list Z) :=
  let (c', st') := getUtf8CodePoint st in
  if 0 <? c' then utf8Record iswprint iswspace o fuel false c' st' out
  else Some (c', st', out).

(** The same in the wide character loop (the [next] of [wideRecord]). *)
Definition wideNext (iswprint iswspace : Z -> bool) (o : options)
           (fuel : nat) (ws : wstream) (out : list Z)
  : option (Z * wstream * list Z) :=
  let (c', ws') := getwc ws in
  if wideChar c' then wideRecord iswprint iswspace o fuel false c' ws' out
  else Some (c', ws', out).

(** The outer loops from the end of a record: the condition of the
    [do ... while] evaluated with the code point [c] that ended the record,
    then the records that follow. *)
Definition narrowResume (o : options) (room : option nat) (fuel : nat)
           (c : Z) (s : list Z) (out : list Z) : option (list Z) :=
  match narrowBetween o room c s out with
  | inl out' => Some out'
  | inr (jump', c', s', out') => narrowRecords o room fuel jump' c' s' out'
  end.






(** Stated from the program's help and from the loops (section 4.5 of the
    specification is compared with them): the bytes written between two
    records, and after the last one ([afterNull]: the input ended with a
    null), when every write succeeds. *)
Definition sepBytes (o : options) : list Z :=
  if ignoreNullInput o then []
  else if nullTerminatedOutput o then [0] else [ch_space].

Definition termBytes (o : options) (afterNull : bool) : list Z :=
  if afterNull then
    if nullTerminatedOutput o then [0] else []
  else
    if ignoreNullInput o && nullTerminatedOutput o then [0] else [].

(** A byte of a record: it is not the null that ends a record. *)
Definition positive (b : Z) : Prop := 0 < b.

(** A platform in the C locale on which nothing fails. *)
Definition posixPlatform : platform := {|
  setlocaleOk := true;
  charmap := CsAscii;
  p_iswprint := isprint;
  p_iswspace := fun _ => false;
  mbDecode := fun l => (l, false);
  wcEncode := fun c => [c];
  forkOk := true;
  pipeRoom := None;
  stdoutRoom := None
|}.


(** The settings after the option unicode-escapes alone. *)
Definition unicodeEscapes : options := {|
  ansiEscapesLimit := sizeof_ansiEscapes;
  iswprintFn := FnIswprint;
  disableCQuoting := false;
  useUnicodeEscapes := true;
  flushArguments := false;
  ignoreNullInput := false;
  nullTerminatedOutput := false
|}.

(** ** Definitions for the further properties *)

Definition optchar_eqb (a b : optchar) : bool :=
  match a, b with
  | OptHelp, OptHelp | OptE, OptE | OptF, OptF | OptI, OptI | OptM, OptM
  | OptN, OptN | OptU, OptU | OptZ, OptZ | OptVersion, OptVersion
  | OptInvalid, OptInvalid => true
  | _, _ => false
  end.

(** Whether the option [k] occurs among [ks]. *)
Definition hasOpt (k : optchar) (ks : list optchar) : bool :=
  existsb (optchar_eqb k) ks.

(** The options at which the [switch] leaves [main]. *)
Definition endsParsing (k : optchar) : bool :=
  match k with
  | OptHelp | OptVersion | OptInvalid => true
  | _ => false
  end.

(** The settings as a function of the options that occur. *)
Definition optionsOf (ks : list optchar) : options := {|
  ansiEscapesLimit := if hasOpt OptU ks then sizeof_ansiEscapes else 14;
  iswprintFn := if hasOpt OptE ks then FnIswNotBlank
                else if hasOpt OptI ks then FnIswprintExt else FnIswprint;
  disableCQuoting := hasOpt OptM ks;
  useUnicodeEscapes := hasOpt OptU ks;
  flushArguments := hasOpt OptF ks;
  ignoreNullInput := hasOpt OptN ks;
  nullTerminatedOutput := hasOpt OptZ ks || hasOpt OptF ks
|}.

(** The letter of the escape that ANSI-C quoting defines for a control
    character: [\a] for 7 up to [\r] for 13, in that order, and [\E] for
    27. *)
Definition cEscapeLetter (c : Z) : Z :=
  if c =? 27 then 69
  else nth (Z.to_nat (c - 7)) [97; 98; 116; 110; 118; 102; 114] 0.

(** A byte of the output of the byte oriented loop when ANSI-C quoting is
    in use: a printable ASCII character, or the null that ends a record
    under null-terminated output. *)
Definition plainByte (o : options) (b : Z) : Prop :=
  isprint b = true \/ (b = 0 /\ nullTerminatedOutput o = true).

(** The value of a digit character of [%o] and [%X], and the number that a
    string of such digits denotes in a base. *)
Definition digitValue (ch : Z) : Z := if ch <? 58 then ch - 48 else ch - 55.

Definition digitsValue (base : Z) (l : list Z) : Z :=
  fold_left (fun a ch => a * base + digitValue ch) l 0.

(** What holds of the input of the wide character loop when [c] is the
    last character read from it: [u] tells whether the input cannot be
    decoded to its end; no character of the input is [WEOF]; [errno] is
    [EILSEQ] only for such an input, and it is once [WEOF] was read. *)
Definition wideInv (u : bool) (c : Z) (ws : wstream) : Prop :=
  undecodable ws = u
  /\ Forall (fun x => x <> WEOF) (wchars ws)
  /\ (errnoIsEILSEQ ws = true -> u = true)
  /\ (c = WEOF -> errnoIsEILSEQ ws = u).

(** ** A reader of shell words

    Stated from the shell command language of POSIX (token recognition
    and quoting, in the C locale) together with the [$'...'] quoting of
    bash, ksh and zsh, not from the program: how a shell splits a line
    into words and removes the quoting.  It is what the output of the
    program is meant for.  Whatever needs more of a shell than quote
    removal (an expansion, an operator, a pattern, a tilde at the start of
    a word) makes the reader fail, and so does an escape of [$'...']
    other than a letter escape and an octal escape. *)
Inductive shMode : Type :=
  | MStart                          (* between two words *)
  | MWord                           (* in a word, outside of quotes *)
  | MBackslash                      (* after a backslash outside of quotes *)
  | MDollar                         (* after a dollar outside of quotes *)
  | MSingle                         (* inside '...' *)
  | MAnsi                           (* inside $'...' *)
  | MAnsiBackslash                  (* after a backslash inside $'...' *)
  | MAnsiOctal (n : nat) (v : Z).   (* after n octal digits, of value v *)

(** What the reader delivers: a byte of the current word, or its end. *)
Inductive shEvent : Type :=
  | EByte (b : Z)
  | EEnd.

(** The characters that are special to the shell outside of quotes: the
    operators (bar, ampersand, semicolon, angle brackets, parentheses),
    dollar, backquote, backslash, the two quotes, blank and newline, then
    star, question mark, opening bracket and hash, and the exclamation
    mark and the braces of bash. *)
Definition shSpecial (x : Z) : bool :=
  existsb (Z.eqb x)
    [124; 38; 59; 60; 62; 40; 41; 36; 96; 92; 34; 39; 32; 9; 10;
     42; 63; 91; 35; 33; 123; 125].

(** The character that a backslash and a letter stand for in [$'...']. *)
Definition ansiLetter (x : Z) : option Z :=
  if x =? 97 then Some 7           (* \a *)
  else if x =? 98 then Some 8      (* \b *)
  else if x =? 101 then Some 27    (* \e *)
  else if x =? 69 then Some 27     (* \E *)
  else if x =? 102 then Some 12    (* \f *)
  else if x =? 110 then Some 10    (* \n *)
  else if x =? 114 then Some 13    (* \r *)
  else if x =? 116 then Some 9     (* \t *)
  else if x =? 118 then Some 11    (* \v *)
  else if x =? 92 then Some 92     (* \\ *)
  else if x =? 39 then Some 39     (* \' *)
  else if x =? 34 then Some 34     (* double quote *)
  else if x =? 63 then Some 63     (* \? *)
  else None.

(** One character inside [$'...']. *)
Definition ansiStep (x : Z) : option (shMode * list shEvent) :=
  if x =? 39 then Some (MWord, [])
  else if x =? 92 then Some (MAnsiBackslash, [])
  else Some (MAnsi, [EByte x]).

(** One character of the line.  A line holds no null. *)
Definition shStep (m : shMode) (x : Z) : option (shMode * list shEvent) :=
  if x =? 0 then None
  else
    match m with
    | MStart | MWord =>
        if (x =? 32) || (x =? 9) then
          Some (MStart, match m with MWord => [EEnd] | _ => [] end)
        else if x =? 39 then Some (MSingle, [])
        else if x =? 92 then Some (MBackslash, [])
        else if x =? 36 then Some (MDollar, [])
        else if shSpecial x then None
        else if (x =? 126) && match m with MStart => true | _ => false end
        then None
        else Some (MWord, [EByte x])
    | MBackslash => if x =? 10 then None else Some (MWord, [EByte x])
    | MDollar => if x =? 39 then Some (MAnsi, []) else None
    | MSingle =>
        if x =? 39 then Some (MWord, []) else Some (MSingle, [EByte x])
    | MAnsi => ansiStep x
    | MAnsiBackslash =>
        if isOctalDigit x then Some (MAnsiOctal 1 (x - 48), [])
        else
          match ansiLetter x with
          | Some b => Some (MAnsi, [EByte b])
          | None => None
          end
    | MAnsiOctal n v =>
        if isOctalDigit x then
          let v' := v * 8 + (x - 48) in
          if (n <? 2)%nat then Some (MAnsiOctal (S n) v', [])
          else Some (MAnsi, [EByte (v' mod 256)])
        else
          match ansiStep x with
          | Some (m', ev) => Some (m', EByte (v mod 256) :: ev)
          | None => None
          end
    end.

(** The events of a reading put before those of what follows it. *)
Definition shThen (ev : list shEvent) (r : option (shMode * list shEvent))
  : option (shMode * list shEvent) :=
  match r with
  | Some (m, ev') => Some (m, ev ++ ev')
  | None => None
  end.

Fixpoint shRun (m : shMode) (l : list Z) : option (shMode * list shEvent) :=
  match l with
  | [] => Some (m, [])
  | x :: l' =>
      match shStep m x with
      | Some (m', ev) => shThen ev (shRun m' l')
      | None => None
      end
  end.

(** The words that a list of events makes, [cur] being the bytes of the
    current word so far. *)
Fixpoint shBuild (cur : list Z) (ev : list shEvent) : list (list Z) :=
  match ev with
  | [] => []
  | EByte b :: ev' => shBuild (cur ++ [b]) ev'
  | EEnd :: ev' => cur :: shBuild [] ev'
  end.

(** The words of a line: the line must end outside of quotes. *)
Definition shWords (l : list Z) : option (list (list Z)) :=
  match shRun MStart l with
  | Some (MStart, ev) => Some (shBuild [] ev)
  | Some (MWord, ev) => Some (shBuild [] (ev ++ [EEnd]))
  | _ => None
  end.

(** The events of a list of words that are all ended but the last. *)
Fixpoint shEvents (ws : list (list Z)) : list shEvent :=
  match ws with
  | [] => []
  | [w] => map EByte w
  | w :: ws' => map EByte w ++ EEnd :: shEvents ws'
  end.

(** A byte of a record or of an argument. *)
Definition recordByte (b : Z) : Prop := 0 < b < 256.

(** An ASCII byte, and what relates the state of the decoder to the input
    of the byte oriented loop when both have the same ASCII bytes to
    read; [asciiAt c st s] holds when, besides, [c] is the character that
    the decoder has just delivered. *)
Definition asciiByte (b : Z) : Prop := 0 <= b < 128.

Definition asciiRest (st : utf8) (s : list Z) : Prop :=
  wf st /\ pending st = s /\ Forall asciiByte s.

Definition asciiAt (c : Z) (st : utf8) (s : list Z) : Prop :=
  asciiRest st s /\ 0 < c < 128 /\ bytesInCodePoint st = 1%nat
  /\ firstn 1 (cbuff st) = [c].

(** * Properties *)

(** ** Tactics and small facts *)

Lemma isCont_EOF : isCont EOF = false.
Proof. reflexivity. Qed.

Lemma byte_nonneg x : byte x -> (0 <=? x) = true.
Proof. unfold byte; intros; apply Z.leb_le; lia. Qed.

Lemma byte_gt_m1 x : byte x -> (-1 <? x) = true.
Proof. unfold byte; intros; apply Z.ltb_lt; lia. Qed.

Lemma to_uchar_byte x : byte x -> to_uchar x = x.
Proof. unfold byte, to_uchar; intros; apply Z.mod_small; lia. Qed.

(** A property of bytes that holds of each of the 256 holds of all. *)
Lemma byte_forall (P : Z -> bool) :
  forallb P (map Z.of_nat (seq 0 256)) = true ->
  forall x, byte x -> P x = true.
Proof.
  intros H x Hx.
  rewrite forallb_forall in H; apply H.
  replace x with (Z.of_nat (Z.to_nat x)) by (unfold byte in Hx; lia).
  apply in_map, in_seq; unfold byte in Hx; lia.
Qed.

Lemma bitset_128 z : byte z -> bitset z 128 = (128 <=? z).
Proof.
  intros H.
  apply Bool.eqb_prop.
  apply (byte_forall (fun x => Bool.eqb (bitset x 128) (128 <=? x)));
    [|exact H].
  vm_compute; reflexivity.
Qed.

(** Boolean tests in the hypotheses, as inequalities. *)
Ltac bounds :=
  repeat match goal with
  | H : bitset ?z 128 = _, B : byte ?z |- _ => rewrite (bitset_128 B) in H
  | H : (_ && _) = true |- _ => apply andb_prop in H; destruct H
  | H : (_ <=? _) = true |- _ => apply Z.leb_le in H
  | H : (_ <=? _) = false |- _ => apply Z.leb_gt in H
  | H : (_ <? _) = true |- _ => apply Z.ltb_lt in H
  | H : (_ <? _) = false |- _ => apply Z.ltb_ge in H
  end.

(** [ground c] succeeds when no variable occurs in [c]. *)
Ltac ground c :=
  match c with
  | context [?x] => is_var x; fail 1
  | _ => idtac
  end.

Ltac byte_rw :=
  repeat match goal with
  | H : byte ?x |- context [0 <=? ?x] => rewrite (byte_nonneg H)
  | H : byte ?x |- context [-1 <? ?x] => rewrite (byte_gt_m1 H)
  | H : byte ?x |- context [to_uchar ?x] => rewrite (to_uchar_byte H)
  | |- context [isCont EOF] => rewrite isCont_EOF
  end.

Ltac inv_bytes :=
  repeat match goal with
  | H : Forall byte (_ :: _) |- _ => inversion H; subst; clear H
  | H : Forall (eq EOF) (_ :: _) |- _ => inversion H; subst; clear H
  | H : Forall _ [] |- _ => clear H
  end.

(** One step through [getUtf8CodePoint]: a read from stdin or a test. *)
Ltac step :=
  cbn; unfold readInto; cbn; inv_bytes; byte_rw;
  match goal with
  | |- context [getc ?s] => is_var s; destruct s
  | |- context [if ?c then _ else _] =>
      first [ ground c; let v := eval vm_compute in c in change c with v
            | destruct c eqn:? ]
  end.

Ltac forall_tac :=
  repeat (apply Forall_cons; [assumption|]);
  first [apply Forall_nil | assumption].

Ltac qshape_tac :=
  repeat first
    [ apply qs_eof; repeat (apply Forall_cons; [reflexivity|]);
      apply Forall_nil
    | apply qs_byte; [assumption|]
    | apply qs_nil; forall_tac ].

Ltac wf_tac :=
  unfold wf, queue; cbn; repeat split; auto; try lia; qshape_tac.

Ltac inv_qshape :=
  repeat match goal with
  | H : qshape (_ :: _) _ |- _ => inversion H; subst; clear H
  | H : qshape [] _ |- _ => inversion H; subst; clear H
  end.

(** ** The code point source *)

Section Decoder.
Local Arguments Z.ltb : simpl never.
Local Arguments Z.leb : simpl never.
Local Arguments Z.eqb : simpl never.
Local Arguments bitset : simpl never.
Local Arguments isCont : simpl never.
Local Arguments cp2 : simpl never.
Local Arguments cp3 : simpl never.
Local Arguments cp4 : simpl never.
Local Arguments to_uchar : simpl never.
Local Arguments getc : simpl nomatch.

(** Whatever the look-ahead queue holds, [getUtf8CodePoint] keeps the
    invariant and returns what it would return with an empty queue in
    front of the same bytes; and [ungetUtf8CodePoint], called on
    what was returned, restores the bytes to deliver. *)
Lemma get_spec st :
  wf st ->
  let r := getUtf8CodePoint st in
  wf (snd r)
  /\ view r = view (getUtf8CodePoint (utf8_init (pending st)))
  /\ wf (ungetUtf8CodePoint (fst r) (snd r))
  /\ pending (ungetUtf8CodePoint (fst r) (snd r)) = pending st.
Proof.
  destruct st as [s b n cb k]; unfold wf, queue; cbn.
  intros (Hb & Hc & Hn & Hq).
  destruct b as [|b0 [|b1 [|b2 [|b3 [|]]]]]; try discriminate.
  destruct cb as [|c0 [|c1 [|c2 [|c3 [|]]]]]; try discriminate.
  destruct n as [|[|[|[|[|]]]]]; try lia; cbn in Hq; inv_qshape; inv_bytes.
  all: unfold getUtf8CodePoint, pending, queue.
  all: repeat step.
  all: cbn; byte_rw.
  all: try discriminate.
  all: split; [wf_tac|split;[reflexivity|]].
  all: split; [wf_tac|cbn; byte_rw; rewrite ?app_nil_r; reflexivity].
Qed.

(** From a fresh state. *)
Lemma get_init_consume l : Forall byte l ->
  let r := getUtf8CodePoint (utf8_init l) in
  (l = [] /\ view r = (EOF, 0%nat, [], []))
  \/ (l = unitBytes (fst r) (snd r) ++ pending (snd r) /\
      ((bytesInCodePoint (snd r) = 0%nat /\ 128 <= fst r < 256)
       \/ (bytesInCodePoint (snd r) = 1%nat /\ 0 <= fst r < 128
           /\ unitBytes (fst r) (snd r) = [fst r])
       \/ ((2 <= bytesInCodePoint (snd r) <= 4)%nat /\ 128 <= fst r))).
Proof.
  intros Hl. unfold getUtf8CodePoint, utf8_init.
  repeat step.
  all: cbn; byte_rw.
  all: try (left; split; reflexivity).
  all: right; (split; [unfold unitBytes, pending, queue; cbn; byte_rw; rewrite ?app_nil_r; reflexivity|]).
  all: bounds.
  all: unfold byte in *.
  all: try (left; split; [reflexivity|cbn; lia]).
  all: try (right; left; split; [reflexivity|split; [cbn; lia|]];
            unfold unitBytes; cbn; byte_rw; reflexivity).
  all: try (right; right; split; cbn; lia).
Qed.
End Decoder.

Lemma qshape_pending q s :
  qshape q s -> Forall byte (filter (fun x => 0 <=? x) q ++ s).
Proof.
  induction 1 as [s Hs|x q s Hx _ IH|q Hq]; simpl.
  - exact Hs.
  - rewrite (byte_nonneg Hx); simpl; constructor; assumption.
  - rewrite app_nil_r. induction Hq as [|y q Hy _ IH]; simpl; [constructor|].
    subst y; exact IH.
Qed.

Lemma pending_bytes st : wf st -> Forall byte (pending st).
Proof. intros (_ & _ & _ & Hq); apply qshape_pending; exact Hq. Qed.

Lemma wf_init l : Forall byte l -> wf (utf8_init l).
Proof. intros H; wf_tac. Qed.

Lemma pending_init l : pending (utf8_init l) = l.
Proof. reflexivity. Qed.

Lemma get_consume st :
  wf st -> wf (snd (getUtf8CodePoint st)) /\ consumes st (getUtf8CodePoint st).
Proof.
  intros Hwf.
  destruct (get_spec Hwf) as (Hwf' & Hview & _).
  split; [exact Hwf'|].
  assert (Hi := get_init_consume (pending_bytes Hwf)).
  destruct (getUtf8CodePoint st) as [rc st'].
  destruct (getUtf8CodePoint (utf8_init (pending st))) as [rc0 st0].
  unfold view in Hview. cbn [fst snd] in *.
  injection Hview as E1 E2 E3 E4.
  assert (Eu : unitBytes rc st' = unitBytes rc0 st0)
    by (unfold unitBytes; rewrite E3, E2, E1; reflexivity).
  unfold consumes; cbn [fst snd].
  destruct Hi as [(Hnil & Hv)|(Hl & Hb)].
  - left. unfold view in Hv. injection Hv as V1 V2 V3 V4. repeat split; congruence.
  - right. rewrite Eu, E2, E4, E1. split; [exact Hl|exact Hb].
Qed.

Lemma unitBytes_nonempty rc st : wf st -> (bytesInCodePoint st <= 4)%nat -> unitBytes rc st <> [].
Proof.
  intros (_ & Hc & _) Hk. unfold unitBytes.
  destruct (bytesInCodePoint st) as [|k]; simpl; [discriminate|].
  destruct (cbuff st); [discriminate|]. simpl; discriminate.
Qed.

Lemma utf8Units_total n : forall st,
  wf st -> (length (pending st) < n)%nat ->
  exists us, utf8Units n st = Some us /\ concat us = pending st.
Proof.
  induction n as [|n IH]; intros st Hwf Hlen; [lia|].
  simpl. destruct (get_consume Hwf) as (Hwf' & Hc).
  destruct (getUtf8CodePoint st) as [rc st']; unfold consumes in Hc;
    cbn [fst snd] in *.
  destruct Hc as [(Hp & Hrc & _)|(Hp & Hb)].
  - subst rc. simpl. exists []. rewrite Hp. split; reflexivity.
  - assert (Hrc : (rc <? 0) = false) by (apply Z.ltb_ge; lia).
    rewrite Hrc.
    assert (Hne : unitBytes rc st' <> []) by (apply unitBytes_nonempty; [assumption|lia]).
    destruct (IH st' Hwf') as (us & Hus & Hcat).
    { rewrite Hp in Hlen. rewrite length_app in Hlen.
      destruct (unitBytes rc st'); [contradiction|]. simpl in Hlen. lia. }
    rewrite Hus. eexists; split; [reflexivity|]. simpl. rewrite Hcat, Hp. reflexivity.
Qed.


(** ** Options *)

Lemma setOption_keeps_notBlank o k o' :
  iswprintFn o = FnIswNotBlank -> setOption o k = inl o' ->
  iswprintFn o' = FnIswNotBlank.
Proof.
  intros H; destruct k; simpl; intros E; inversion E; subst; simpl; auto.
  rewrite H; reflexivity.
Qed.

Lemma parseOptions_keeps_notBlank ks : forall o o',
  iswprintFn o = FnIswNotBlank -> parseOptions o ks = inl o' ->
  iswprintFn o' = FnIswNotBlank.
Proof.
  induction ks as [|k ks IH]; simpl; intros o o' H E.
  - inversion E; subst; assumption.
  - destruct (setOption o k) as [o1|] eqn:E1; [|discriminate].
    eapply IH; [eapply setOption_keeps_notBlank|]; eauto.
Qed.

Lemma parseOptions_escape_more ks : forall o o',
  In OptE ks -> parseOptions o ks = inl o' ->
  iswprintFn o' = FnIswNotBlank.
Proof.
  induction ks as [|k ks IH]; simpl; intros o o' Hin E; [contradiction|].
  destruct (setOption o k) as [o1|] eqn:E1; [|discriminate].
  destruct Hin as [->|Hin].
  - eapply parseOptions_keeps_notBlank; [|exact E].
    simpl in E1; inversion E1; reflexivity.
  - eapply IH; eauto.
Qed.

(** C8, as the specification states it, fails: with escape-invisible parsed
    first and escape-more second, the policy in effect is not the one of the
    option parsed first. *)
Lemma first_parsed_policy_counterexample :
  exists o, parseOptions defaults [OptI; OptE] = inl o
            /\ firstParsedPolicy [OptI; OptE] = Some FnIswprintExt
            /\ iswprintFn o <> FnIswprintExt.
Proof.
  eexists; split; [reflexivity|]; split; [reflexivity|]; simpl; discriminate.
Qed.

(** C8, amended: when escape-more is among the options, the classification
    in effect is the extended-nonblank one wherever escape-invisible stands,
    before it or after it; and once that classification is selected, no
    later option replaces it. *)
Theorem escape_more_wins (ks : list optchar) (o : options)
        (Hparse : parseOptions defaults ks = inl o) (HE : In OptE ks) :
  iswprintFn o = FnIswNotBlank
  /\ forall ks' o', parseOptions o ks' = inl o' ->
                    iswprintFn o' = FnIswNotBlank.
Proof.
  assert (H : iswprintFn o = FnIswNotBlank)
    by (eapply parseOptions_escape_more; eauto).
  split; [exact H|].
  intros ks' o' E; eapply parseOptions_keeps_notBlank; eauto.
Qed.

Lemma escape_more_wins_witness :
  let o := {| ansiEscapesLimit := 14; iswprintFn := FnIswNotBlank;
              disableCQuoting := false; useUnicodeEscapes := false;
              flushArguments := false; ignoreNullInput := false;
              nullTerminatedOutput := false |} in
  iswprintFn o = FnIswNotBlank
  /\ forall ks' o', parseOptions o ks' = inl o' ->
                    iswprintFn o' = FnIswNotBlank.
Proof.
  apply (@escape_more_wins [OptI; OptE]); [reflexivity | simpl; auto].
Defined.
(** C2: in UTF-8 mode the units returned by successive calls of
    [getUtf8CodePoint], up to the end of the input, put end to end, are
    the input, byte for byte, whatever the input; and when a call fails
    to decode (it returns a byte with [bytesInCodePoint] at 0), that byte
    is the first of the bytes that were to be delivered and all the others,
    those read ahead included, are still to be delivered after it. *)
Theorem decode_failure_loses_nothing (input : list Z)
        (Hin : Forall byte input) :
  (exists us, utf8Units (S (length input)) (utf8_init input) = Some us
              /\ concat us = input)
  /\ (forall st rc st',
         wf st -> getUtf8CodePoint st = (rc, st') -> 0 <= rc ->
         bytesInCodePoint st' = 0%nat ->
         wf st' /\ pending st = rc :: pending st').
Proof.
  split.
  - apply (@utf8Units_total (S (length input)) (utf8_init input)).
    + apply wf_init; exact Hin.
    + rewrite pending_init; lia.
  - intros st rc st' Hwf Hget Hrc Hk.
    destruct (get_consume Hwf) as (Hwf' & Hc).
    rewrite Hget in Hwf', Hc; unfold consumes in Hc; cbn [fst snd] in *.
    split; [exact Hwf'|].
    destruct Hc as [(_ & Heof & _)|(Hp & _)].
    + unfold EOF in Heof; lia.
    + rewrite Hp; unfold unitBytes; rewrite Hk; reflexivity.
Qed.

Lemma decode_failure_loses_nothing_witness :
  (exists us, utf8Units 4 (utf8_init [0xE0; 0x41; 0xC3]) = Some us
              /\ concat us = [0xE0; 0x41; 0xC3])
  /\ (forall st rc st',
         wf st -> getUtf8CodePoint st = (rc, st') -> 0 <= rc ->
         bytesInCodePoint st' = 0%nat ->
         wf st' /\ pending st = rc :: pending st').
Proof.
  apply (@decode_failure_loses_nothing [0xE0; 0x41; 0xC3]).
  repeat constructor; unfold byte; lia.
Defined.

(** ** The value of a decoded sequence *)

Lemma lor_add x y n :
  0 <= n -> 0 <= y < 2 ^ n -> Z.lor (Z.shiftl x n) y = x * 2 ^ n + y.
Proof.
  intros Hn Hy.
  assert (Hland : Z.land (Z.shiftl x n) y = 0).
  { apply Z.bits_inj'; intros i Hi.
    rewrite Z.land_spec, Z.bits_0.
    destruct (Z.ltb_spec i n) as [Hlt|Hge].
    - rewrite Z.shiftl_spec_low by assumption; reflexivity.
    - rewrite <- (Z.mod_small y (2 ^ n)) by assumption.
      rewrite Z.mod_pow2_bits_high by lia. apply andb_false_r. }
  rewrite <- Z.lxor_lor by assumption.
  rewrite <- Z.add_nocarry_lxor by assumption.
  rewrite Z.shiftl_mul_pow2 by assumption. reflexivity.
Qed.

(** A property checked on each byte between [lo] and [hi]. *)
Lemma byte_range (lo hi : Z) (P : Z -> bool) :
  forallb (fun x => implb ((lo <=? x) && (x <=? hi)) (P x))
          (map Z.of_nat (seq 0 256)) = true ->
  forall x, 0 <= lo -> hi < 256 -> lo <= x <= hi -> P x = true.
Proof.
  intros H x Hlo Hhi Hx.
  assert (B : byte x) by (unfold byte; lia).
  assert (E := byte_forall _ H B); cbv beta in E.
  replace ((lo <=? x) && (x <=? hi)) with true in E; [exact E|].
  symmetry; apply andb_true_intro; split; apply Z.leb_le; lia.
Qed.

Ltac split_andb H :=
  repeat match type of H with
  | (_ && _) = true =>
      let H1 := fresh in
      apply andb_prop in H; destruct H as [H H1];
      try (apply Z.eqb_eq in H1)
  end.

Lemma cont_facts b :
  isContinuation b -> isCont b = true /\ Z.land b 0x3F = b - 0x80.
Proof.
  intros Hb.
  assert (H := @byte_range 0x80 0xBF
                 (fun x => isCont x && (Z.land x 0x3F =? x - 0x80))
                 ltac:(vm_compute; reflexivity) b ltac:(lia) ltac:(lia) Hb).
  cbv beta in H; split_andb H; auto.
Qed.

Lemma lead2_facts a :
  0xC0 <= a <= 0xDF ->
  bitset a 128 = true /\ bitset a 64 = true /\ bitset a 32 = false
  /\ Z.land a 0x1F = a - 0xC0.
Proof.
  intros Ha.
  assert (H := @byte_range 0xC0 0xDF
                 (fun x => bitset x 128 && bitset x 64 && negb (bitset x 32)
                           && (Z.land x 0x1F =? x - 0xC0))
                 ltac:(vm_compute; reflexivity) a ltac:(lia) ltac:(lia) Ha).
  cbv beta in H; split_andb H.
  repeat split; auto. apply negb_true_iff; assumption.
Qed.

Lemma lead3_facts a :
  0xE0 <= a <= 0xEF ->
  bitset a 128 = true /\ bitset a 64 = true /\ bitset a 32 = true
  /\ bitset a 16 = false /\ Z.land a 0x0F = a - 0xE0.
Proof.
  intros Ha.
  assert (H := @byte_range 0xE0 0xEF
                 (fun x => bitset x 128 && bitset x 64 && bitset x 32
                           && negb (bitset x 16)
                           && (Z.land x 0x0F =? x - 0xE0))
                 ltac:(vm_compute; reflexivity) a ltac:(lia) ltac:(lia) Ha).
  cbv beta in H; split_andb H.
  repeat split; auto. apply negb_true_iff; assumption.
Qed.

Lemma lead4_facts a :
  0xF0 <= a <= 0xF7 ->
  bitset a 128 = true /\ bitset a 64 = true /\ bitset a 32 = true
  /\ bitset a 16 = true /\ bitset a 8 = false /\ Z.land a 0x07 = a - 0xF0.
Proof.
  intros Ha.
  assert (H := @byte_range 0xF0 0xF7
                 (fun x => bitset x 128 && bitset x 64 && bitset x 32
                           && bitset x 16 && negb (bitset x 8)
                           && (Z.land x 0x07 =? x - 0xF0))
                 ltac:(vm_compute; reflexivity) a ltac:(lia) ltac:(lia) Ha).
  cbv beta in H; split_andb H.
  repeat split; auto. apply negb_true_iff; assumption.
Qed.

Lemma cp2_value a b :
  0xC0 <= a <= 0xDF -> isContinuation b -> cp2 a b = value2 a b.
Proof.
  intros Ha Hb. unfold cp2, value2.
  destruct (lead2_facts Ha) as (_ & _ & _ & ->).
  destruct (cont_facts Hb) as (_ & ->).
  unfold isContinuation in Hb.
  rewrite lor_add by lia. lia.
Qed.

Lemma cp3_value a b c :
  0xE0 <= a <= 0xEF -> isContinuation b -> isContinuation c ->
  cp3 a b c = value3 a b c.
Proof.
  intros Ha Hb Hc. unfold cp3, value3.
  destruct (lead3_facts Ha) as (_ & _ & _ & _ & ->).
  destruct (cont_facts Hb) as (_ & ->).
  destruct (cont_facts Hc) as (_ & ->).
  unfold isContinuation in *.
  rewrite (Z.shiftl_mul_pow2 (b - 128) 6) by lia.
  rewrite lor_add by lia.
  replace ((a - 224) * 2 ^ 12 + (b - 128) * 2 ^ 6)
    with (Z.shiftl ((a - 224) * 64 + (b - 128)) 6)
    by (rewrite Z.shiftl_mul_pow2 by lia; lia).
  rewrite lor_add by lia. lia.
Qed.

Lemma cp4_value a b c d :
  0xF0 <= a <= 0xF7 -> isContinuation b -> isContinuation c ->
  isContinuation d -> cp4 a b c d = value4 a b c d.
Proof.
  intros Ha Hb Hc Hd. unfold cp4, value4.
  destruct (lead4_facts Ha) as (_ & _ & _ & _ & _ & ->).
  destruct (cont_facts Hb) as (_ & ->).
  destruct (cont_facts Hc) as (_ & ->).
  destruct (cont_facts Hd) as (_ & ->).
  unfold isContinuation in *.
  rewrite (Z.shiftl_mul_pow2 (b - 128) 12) by lia.
  rewrite (Z.shiftl_mul_pow2 (c - 128) 6) by lia.
  rewrite lor_add by lia.
  replace ((a - 240) * 2 ^ 18 + (b - 128) * 2 ^ 12)
    with (Z.shiftl ((a - 240) * 64 + (b - 128)) 12)
    by (rewrite Z.shiftl_mul_pow2 by lia; lia).
  rewrite lor_add by lia.
  replace (((a - 240) * 64 + (b - 128)) * 2 ^ 12 + (c - 128) * 2 ^ 6)
    with (Z.shiftl (((a - 240) * 64 + (b - 128)) * 64 + (c - 128)) 6)
    by (rewrite Z.shiftl_mul_pow2 by lia; lia).
  rewrite lor_add by lia. lia.
Qed.

(** ** Decoding of well formed sequences *)

Section Decoding.
Local Arguments Z.ltb : simpl never.
Local Arguments Z.leb : simpl never.
Local Arguments Z.eqb : simpl never.
Local Arguments bitset : simpl never.
Local Arguments isCont : simpl never.
Local Arguments cp2 : simpl never.
Local Arguments cp3 : simpl never.
Local Arguments cp4 : simpl never.
Local Arguments to_uchar : simpl never.
Local Arguments getc : simpl nomatch.

Lemma cont_byte b : isContinuation b -> byte b.
Proof. unfold isContinuation, byte; lia. Qed.

Lemma decode2_init a b rest :
  0xC0 <= a <= 0xDF -> isContinuation b ->
  view (getUtf8CodePoint (utf8_init (a :: b :: rest))) =
  if value2 a b <? 0x80 then (a, 0%nat, [], b :: rest)
  else (value2 a b, 2%nat, [a; b], rest).
Proof.
  intros Ha Hb.
  assert (Ba : byte a) by (unfold byte; lia).
  assert (Bb := cont_byte Hb).
  destruct (lead2_facts Ha) as (L1 & L2 & L3 & _).
  destruct (cont_facts Hb) as (C1 & _).
  unfold getUtf8CodePoint, utf8_init; cbn; unfold readInto; cbn.
  byte_rw. rewrite L1, L2. cbn; unfold readInto; cbn. rewrite L3, C1.
  rewrite (cp2_value Ha Hb). cbn.
  destruct (Z.ltb_spec (value2 a b) 128), (Z.ltb_spec 127 (value2 a b));
    try lia; cbn; byte_rw; reflexivity.
Qed.

Lemma decode3_init a b c rest :
  0xE0 <= a <= 0xEF -> isContinuation b -> isContinuation c ->
  view (getUtf8CodePoint (utf8_init (a :: b :: c :: rest))) =
  if (value3 a b c <? 0x800)
     || ((0xD800 <=? value3 a b c) && (value3 a b c <=? 0xDFFF))
  then (a, 0%nat, [], b :: c :: rest)
  else (value3 a b c, 3%nat, [a; b; c], rest).
Proof.
  intros Ha Hb Hc.
  assert (Ba : byte a) by (unfold byte; lia).
  assert (Bb := cont_byte Hb). assert (Bc := cont_byte Hc).
  destruct (lead3_facts Ha) as (L1 & L2 & L3 & L4 & _).
  destruct (cont_facts Hc) as (C1 & _).
  unfold getUtf8CodePoint, utf8_init; cbn; unfold readInto; cbn.
  byte_rw. rewrite L1, L2. cbn; unfold readInto; cbn. rewrite L3.
  cbn; unfold readInto; cbn. rewrite L4, C1.
  rewrite (cp3_value Ha Hb Hc). cbn.
  set (v := value3 a b c).
  destruct (Z.ltb_spec v 2048), (Z.ltb_spec 2047 v),
    (Z.leb_spec 55296 v), (Z.leb_spec v 57343),
    (Z.ltb_spec v 55296), (Z.ltb_spec 57343 v);
    try lia; cbn; byte_rw; reflexivity.
Qed.

Lemma decode4_init a b c d rest :
  0xF0 <= a <= 0xF7 -> isContinuation b -> isContinuation c ->
  isContinuation d ->
  view (getUtf8CodePoint (utf8_init (a :: b :: c :: d :: rest))) =
  if (value4 a b c d <? 0x10000) || (0x10FFFF <? value4 a b c d)
  then (a, 0%nat, [], b :: c :: d :: rest)
  else (value4 a b c d, 4%nat, [a; b; c; d], rest).
Proof.
  intros Ha Hb Hc Hd.
  assert (Ba : byte a) by (unfold byte; lia).
  assert (Bb := cont_byte Hb). assert (Bc := cont_byte Hc).
  assert (Bd := cont_byte Hd).
  destruct (lead4_facts Ha) as (L1 & L2 & L3 & L4 & L5 & _).
  destruct (cont_facts Hd) as (C1 & _).
  unfold getUtf8CodePoint, utf8_init; cbn; unfold readInto; cbn.
  byte_rw. rewrite L1, L2. cbn; unfold readInto; cbn. rewrite L3.
  cbn; unfold readInto; cbn. rewrite L4, L5. cbn; unfold readInto; cbn.
  rewrite C1.
  rewrite (cp4_value Ha Hb Hc Hd). cbn.
  set (v := value4 a b c d).
  destruct (Z.ltb_spec v 65536), (Z.ltb_spec 65535 v),
    (Z.ltb_spec v 1114112), (Z.ltb_spec 1114111 v);
    try lia; cbn; byte_rw; reflexivity.
Qed.
End Decoding.

(** The same from any state of the look-ahead queue. *)
Lemma decode2_queue st a b rest :
  wf st -> pending st = a :: b :: rest ->
  0xC0 <= a <= 0xDF -> isContinuation b ->
  view (getUtf8CodePoint st) =
  if value2 a b <? 0x80 then (a, 0%nat, [], b :: rest)
  else (value2 a b, 2%nat, [a; b], rest).
Proof.
  intros Hwf Hp Ha Hb. destruct (get_spec Hwf) as (_ & -> & _).
  rewrite Hp. apply decode2_init; assumption.
Qed.

Lemma decode3_queue st a b c rest :
  wf st -> pending st = a :: b :: c :: rest ->
  0xE0 <= a <= 0xEF -> isContinuation b -> isContinuation c ->
  view (getUtf8CodePoint st) =
  if (value3 a b c <? 0x800)
     || ((0xD800 <=? value3 a b c) && (value3 a b c <=? 0xDFFF))
  then (a, 0%nat, [], b :: c :: rest)
  else (value3 a b c, 3%nat, [a; b; c], rest).
Proof.
  intros Hwf Hp Ha Hb Hc. destruct (get_spec Hwf) as (_ & -> & _).
  rewrite Hp. apply decode3_init; assumption.
Qed.

Lemma decode4_queue st a b c d rest :
  wf st -> pending st = a :: b :: c :: d :: rest ->
  0xF0 <= a <= 0xF7 -> isContinuation b -> isContinuation c ->
  isContinuation d ->
  view (getUtf8CodePoint st) =
  if (value4 a b c d <? 0x10000) || (0x10FFFF <? value4 a b c d)
  then (a, 0%nat, [], b :: c :: d :: rest)
  else (value4 a b c d, 4%nat, [a; b; c; d], rest).
Proof.
  intros Hwf Hp Ha Hb Hc Hd. destruct (get_spec Hwf) as (_ & -> & _).
  rewrite Hp. apply decode4_init; assumption.
Qed.

(** C6: with correct continuation bytes, a sequence of two, three or four
    bytes is turned down (its lead byte is returned by itself, with
    [bytesInCodePoint] at 0, and the continuation bytes stay to be
    delivered) when it is overlong, when it has three bytes and its value
    is a surrogate, and when it has four bytes and its value exceeds
    0x10FFFF; every other one is returned as its value, with its width in
    [bytesInCodePoint] and its bytes in [cbuff]. *)
Theorem utf8_decoder_validates (st : utf8) (Hwf : wf st) :
  (forall a b rest,
      pending st = a :: b :: rest ->
      0xC0 <= a <= 0xDF -> isContinuation b ->
      view (getUtf8CodePoint st) =
      if value2 a b <? 0x80 then (a, 0%nat, [], b :: rest)
      else (value2 a b, 2%nat, [a; b], rest))
  /\ (forall a b c rest,
         pending st = a :: b :: c :: rest ->
         0xE0 <= a <= 0xEF -> isContinuation b -> isContinuation c ->
         view (getUtf8CodePoint st) =
         if (value3 a b c <? 0x800)
            || ((0xD800 <=? value3 a b c) && (value3 a b c <=? 0xDFFF))
         then (a, 0%nat, [], b :: c :: rest)
         else (value3 a b c, 3%nat, [a; b; c], rest))
  /\ (forall a b c d rest,
         pending st = a :: b :: c :: d :: rest ->
         0xF0 <= a <= 0xF7 -> isContinuation b -> isContinuation c ->
         isContinuation d ->
         view (getUtf8CodePoint st) =
         if (value4 a b c d <? 0x10000) || (0x10FFFF <? value4 a b c d)
         then (a, 0%nat, [], b :: c :: d :: rest)
         else (value4 a b c d, 4%nat, [a; b; c; d], rest)).
Proof.
  split; [|split].
  - intros a b rest Hp Ha Hb. apply decode2_queue; assumption.
  - intros a b c rest Hp Ha Hb Hc. apply decode3_queue; assumption.
  - intros a b c d rest Hp Ha Hb Hc Hd. apply decode4_queue; assumption.
Qed.

Lemma utf8_decoder_validates_witness :
  view (getUtf8CodePoint (utf8_init [0xC3; 0xA9; 0x41]))
  = (0xE9, 2%nat, [0xC3; 0xA9], [0x41])
  /\ view (getUtf8CodePoint (utf8_init [0xE2; 0x82; 0xAC; 0x41]))
     = (0x20AC, 3%nat, [0xE2; 0x82; 0xAC], [0x41])
  /\ view (getUtf8CodePoint (utf8_init [0xF4; 0x90; 0x80; 0x80]))
     = (0xF4, 0%nat, [], [0x90; 0x80; 0x80]).
Proof.
  assert (Hwf : forall l, Forall byte l -> wf (utf8_init l))
    by (intros l; apply wf_init).
  assert (B : forall l, forallb (fun x => (0 <=? x) && (x <? 256)) l = true ->
                        Forall byte l).
  { intros l H. rewrite forallb_forall in H. apply Forall_forall.
    intros x Hx. specialize (H x Hx). apply andb_prop in H.
    destruct H as [H1 H2]. apply Z.leb_le in H1. apply Z.ltb_lt in H2.
    unfold byte; lia. }
  split; [|split].
  - destruct (@utf8_decoder_validates (utf8_init [0xC3; 0xA9; 0x41])
                (Hwf _ (B [0xC3; 0xA9; 0x41] eq_refl))) as (D2 & _ & _).
    apply (D2 0xC3 0xA9 [0x41] eq_refl); unfold isContinuation; lia.
  - destruct (@utf8_decoder_validates (utf8_init [0xE2; 0x82; 0xAC; 0x41])
                (Hwf _ (B [0xE2; 0x82; 0xAC; 0x41] eq_refl))) as (_ & D3 & _).
    apply (D3 0xE2 0x82 0xAC [0x41] eq_refl); unfold isContinuation; lia.
  - destruct (@utf8_decoder_validates (utf8_init [0xF4; 0x90; 0x80; 0x80])
                (Hwf _ (B [0xF4; 0x90; 0x80; 0x80] eq_refl))) as (_ & _ & D4).
    apply (D4 0xF4 0x90 0x80 0x80 [] eq_refl); unfold isContinuation; lia.
Defined.

(** The euro sign, an overlong slash, a surrogate and a value above
    0x10FFFF. *)
Example decode_euro :
  view (getUtf8CodePoint (utf8_init [0xE2; 0x82; 0xAC; 0x41]))
  = (0x20AC, 3%nat, [0xE2; 0x82; 0xAC], [0x41]).
Proof. reflexivity. Qed.

Example decode_overlong :
  view (getUtf8CodePoint (utf8_init [0xC0; 0xAF]))
  = (0xC0, 0%nat, [], [0xAF]).
Proof. reflexivity. Qed.

Example decode_surrogate :
  view (getUtf8CodePoint (utf8_init [0xED; 0xA0; 0x80]))
  = (0xED, 0%nat, [], [0xA0; 0x80]).
Proof. reflexivity. Qed.

Example decode_too_large :
  view (getUtf8CodePoint (utf8_init [0xF4; 0x90; 0x80; 0x80]))
  = (0xF4, 0%nat, [], [0x90; 0x80; 0x80]).
Proof. reflexivity. Qed.

(** ** The byte oriented loop *)

Lemma getc_length s : (length (snd (getc s)) <= length s)%nat.
Proof. destruct s; simpl; lia. Qed.

Lemma getc_cases s :
  (s = [] /\ getc s = (EOF, [])) \/ (exists b s', s = b :: s' /\ getc s = (b, s')).
Proof. destruct s; [left|right]; eauto. Qed.

Lemma narrowEmit_app o c isP s out :
  narrowEmit o c isP s out = out ++ narrowEmit o c isP s [].
Proof.
  unfold narrowEmit.
  repeat match goal with |- context [if ?b then _ else _] => destruct b end;
    reflexivity.
Qed.

Lemma narrowRaw_app s : forall c out,
  narrowRaw s c out =
  let '(c', s', t) := narrowRaw s c [] in (c', s', out ++ t).
Proof.
  induction s as [|b s IH]; intros c out; cbn [narrowRaw]; [reflexivity|].
  destruct ((0 <? b) && negb (ch_quote =? b)); [|reflexivity].
  rewrite IH, (IH b ([] ++ [to_uchar c])).
  destruct (narrowRaw s b []) as [[c' s'] t].
  rewrite <- app_assoc; reflexivity.
Qed.

Lemma narrowQuoted_app o s : forall c isP out,
  narrowQuoted o s c isP out =
  let '(c', s', t) := narrowQuoted o s c isP [] in (c', s', out ++ t).
Proof.
  induction s as [|b s IH]; intros c isP out; cbn [narrowQuoted].
  - rewrite narrowEmit_app; reflexivity.
  - destruct (0 <? b).
    + rewrite IH, (IH b (isprint b) (narrowEmit o c isP (b :: s) [])).
      destruct (narrowQuoted o s b (isprint b) []) as [[c' s'] t].
      rewrite (narrowEmit_app o c isP (b :: s) out), <- app_assoc; reflexivity.
    + rewrite narrowEmit_app; reflexivity.
Qed.

Lemma narrowRaw_length s : forall c out,
  (length (snd (fst (narrowRaw s c out))) <= length s)%nat.
Proof.
  induction s as [|b s IH]; intros c out; cbn [narrowRaw length fst snd];
    [lia|].
  destruct ((0 <? b) && negb (ch_quote =? b)); cbn [length fst snd]; [|lia].
  specialize (IH b (out ++ [to_uchar c])); lia.
Qed.

Lemma narrowQuoted_length o s : forall c isP out,
  (length (snd (fst (narrowQuoted o s c isP out))) <= length s)%nat.
Proof.
  induction s as [|b s IH]; intros c isP out;
    cbn [narrowQuoted length fst snd]; [lia|].
  destruct (0 <? b); cbn [length fst snd]; [|lia].
  specialize (IH b (isprint b) (narrowEmit o c isP (b :: s) out)); lia.
Qed.

(** The part of [narrowRecord] that follows a code point. *)
Lemma narrowRecord_total o fuel : forall jump c s out,
  (length s < fuel)%nat ->
  exists c' s' t,
    narrowRecord o fuel jump c s out = Some (c', s', out ++ t)
    /\ c' <= 0 /\ (length s' <= length s)%nat.
Proof.
  induction fuel as [|fuel IH]; intros jump c s out Hlen; [lia|].
  assert (Hnext : forall s1 out1 t1, (length s1 <= length s)%nat ->
            out1 = out ++ t1 ->
            exists c' s' t,
              (let (c', s') := getc s1 in
               if 0 <? c' then narrowRecord o fuel false c' s' out1
               else Some (c', s', out1)) = Some (c', s', out ++ t)
              /\ c' <= 0 /\ (length s' <= length s)%nat).
  { intros s1 out1 t1 Hs1 ->.
    destruct s1 as [|b s1]; cbn [getc].
    - exists EOF, [], t1; repeat split; unfold EOF; cbn [length]; lia.
    - destruct (Z.ltb_spec 0 b).
      + destruct (IH false b s1 (out ++ t1)) as (c' & s' & t & E & Hc & Hl);
          [simpl in Hs1; lia|].
        exists c', s', (t1 ++ t); rewrite E, app_assoc.
        repeat split; auto; simpl in Hs1; lia.
      + exists b, s1, t1; repeat split; auto; simpl in Hs1; lia. }
  cbn [narrowRecord].
  destruct (jump || isShControl c
            || negb (if jump then true else disableCQuoting o || isprint c)).
  - destruct (ch_quote =? c).
    + apply (Hnext s _ s_bs_quote); [lia|reflexivity].
    + destruct (disableCQuoting o).
      * rewrite narrowRaw_app.
        assert (Hl := narrowRaw_length s c []).
        destruct (narrowRaw s c []) as [[c' s'] t]; simpl in Hl.
        destruct (ch_quote =? c').
        -- apply (Hnext s' _ (([ch_quote] ++ t) ++ [ch_quote] ++ s_bs_quote));
             [lia|]. rewrite <- !app_assoc; reflexivity.
        -- destruct (Z.leb_spec c' 0).
           ++ exists c', s', (([ch_quote] ++ t) ++ [ch_quote]).
              rewrite <- !app_assoc. repeat split; auto.
           ++ apply (Hnext s' _ (([ch_quote] ++ t) ++ [ch_quote])); [lia|].
              rewrite <- !app_assoc; reflexivity.
      * rewrite narrowQuoted_app.
        assert (Hl := narrowQuoted_length o s c
                        (if jump then true else false || isprint c) []).
        destruct (narrowQuoted o s c _ []) as [[c' s'] t]; simpl in Hl.
        destruct (ch_quote =? c').
        -- apply (Hnext s' _ ((s_dollar_quote ++ t) ++ [ch_quote] ++ s_bs_quote));
             [lia|]. rewrite <- !app_assoc; reflexivity.
        -- destruct (Z.leb_spec c' 0).
           ++ exists c', s', ((s_dollar_quote ++ t) ++ [ch_quote]).
              rewrite <- !app_assoc. repeat split; auto.
           ++ apply (Hnext s' _ ((s_dollar_quote ++ t) ++ [ch_quote])); [lia|].
              rewrite <- !app_assoc; reflexivity.
  - apply (Hnext s _ [to_uchar c]); [lia|reflexivity].
Qed.

Lemma shift3_shift3 (A B : Type) out x (r : option (A * B * list Z)) :
  option_map (shift3 out) (option_map (shift3 x) r)
  = option_map (shift3 (out ++ x)) r.
Proof.
  destruct r as [[[c s] t]|]; simpl; [rewrite app_assoc|]; reflexivity.
Qed.

Ltac split_ifs :=
  repeat match goal with
  | |- context [if ?b then _ else _] => destruct b
  | |- context [match ?x with _ => _ end] => destruct x
  end.

Lemma narrowRecord_mono o fuel : forall fuel' jump c s out r,
  narrowRecord o fuel jump c s out = Some r -> (fuel <= fuel')%nat ->
  narrowRecord o fuel' jump c s out = Some r.
Proof.
  induction fuel as [|fuel IH]; intros fuel' jump c s out r H Hle;
    [discriminate|].
  destruct fuel' as [|fuel']; [lia|].
  assert (Hnext : forall s1 out1,
            (let (c', s') := getc s1 in
             if 0 <? c' then narrowRecord o fuel false c' s' out1
             else Some (c', s', out1)) = Some r ->
            (let (c', s') := getc s1 in
             if 0 <? c' then narrowRecord o fuel' false c' s' out1
             else Some (c', s', out1)) = Some r).
  { intros s1 out1. destruct (getc s1) as [c' s']. destruct (0 <? c'); auto.
    intros E; apply IH; [exact E|lia]. }
  revert H; cbn [narrowRecord]. split_ifs; auto;
    (intros E; eapply IH; [exact E|lia]).
Qed.

Lemma narrowRecord_app o fuel : forall jump c s out,
  narrowRecord o fuel jump c s out =
  option_map (shift3 out) (narrowRecord o fuel jump c s []).
Proof.
  induction fuel as [|fuel IH]; intros jump c s out; [reflexivity|].
  assert (Hnext : forall s1 out1,
            (let (c', s') := getc s1 in
             if 0 <? c' then narrowRecord o fuel false c' s' (out ++ out1)
             else Some (c', s', out ++ out1)) =
            option_map (shift3 out)
              (let (c', s') := getc s1 in
               if 0 <? c' then narrowRecord o fuel false c' s' out1
               else Some (c', s', out1))).
  { intros s1 out1. destruct (getc s1) as [c' s']. destruct (0 <? c'); auto.
    rewrite IH, (IH false c' s' out1).
    destruct (narrowRecord o fuel false c' s' []) as [[[c2 s2] t]|]; simpl;
      [rewrite app_assoc|]; reflexivity. }
  cbn [narrowRecord].
  rewrite (narrowRaw_app s c (out ++ [ch_quote])),
          (narrowRaw_app s c ([] ++ [ch_quote])).
  rewrite (narrowQuoted_app o s c _ (out ++ s_dollar_quote)),
          (narrowQuoted_app o s c _ ([] ++ s_dollar_quote)).
  destruct (narrowRaw s c []) as [[c1 s1] t1].
  destruct (narrowQuoted o s c _ []) as [[c2 s2] t2].
  split_ifs; rewrite <- ?Hnext, <- ?app_assoc; try reflexivity.
  all: rewrite IH; symmetry; rewrite IH, shift3_shift3, app_nil_l;
    reflexivity.
Qed.
Lemma separator_app o room out :
  exists t, snd (separator o room out) = out ++ t.
Proof.
  unfold separator.
  destruct (ignoreNullInput o); [exists []; rewrite app_nil_r; reflexivity|].
  destruct (nullTerminatedOutput o); eexists; reflexivity.
Qed.

Lemma terminator_app o b out : exists t, terminator o b out = out ++ t.
Proof.
  unfold terminator.
  destruct b, (ignoreNullInput o), (nullTerminatedOutput o); simpl;
    first [exists []; rewrite app_nil_r; reflexivity | eexists; reflexivity].
Qed.

Lemma narrowBetween_cases o room c s out :
  (exists t, narrowBetween o room c s out = inl (out ++ t))
  \/ (exists c' s' t,
         c = 0 /\ s = c' :: s'
         /\ narrowBetween o room c s out
            = inr (ch_tilde =? c', c', s', out ++ t)
         /\ fst (separator o room out) = true
         /\ snd (separator o room out) = out ++ t).
Proof.
  unfold narrowBetween.
  assert (Hterm : forall b, exists t : list Z,
             @inl (list Z) (bool * Z * list Z * list Z) (terminator o b out)
             = inl (out ++ t)).
  { intros b; destruct (terminator_app o b out) as (t & ->); eauto. }
  destruct (Z.eqb_spec 0 c) as [<-|Hc]; [|left; apply Hterm].
  destruct s as [|c' s']; cbn [getc].
  - left; apply Hterm.
  - destruct (EOF =? c'); cbn [negb]; [left; apply Hterm|].
    destruct (separator_app o room out) as (t & Ht).
    destruct (separator o room out) as [lc out']; cbn [fst snd] in *; subst.
    destruct lc.
    + right; exists c', s', t. rewrite andb_true_r.
      destruct (ch_tilde =? c'); repeat split; reflexivity.
    + left; exists t. rewrite andb_false_r; reflexivity.
Qed.

Lemma narrowRecords_total o room fuel : forall jump c s out,
  (length s + 1 < fuel)%nat ->
  exists t, narrowRecords o room fuel jump c s out = Some (out ++ t).
Proof.
  induction fuel as [|fuel IH]; intros jump c s out Hlen; [lia|].
  cbn [narrowRecords].
  assert (Hrec : exists c' s' t,
             (if jump || (0 <? c) then narrowRecord o fuel jump c s out
              else Some (c, s, out ++ s_quote_quote)) = Some (c', s', out ++ t)
             /\ (length s' <= length s)%nat).
  { destruct (jump || (0 <? c)).
    - destruct (@narrowRecord_total o fuel jump c s out) as (c' & s' & t & E & _ & Hl);
        [lia|]. exists c', s', t; auto.
    - exists c, s, s_quote_quote; auto. }
  destruct Hrec as (c' & s' & t & -> & Hl).
  destruct (narrowBetween_cases o room c' s' (out ++ t))
    as [(t' & ->)|(c2 & s2 & t' & _ & -> & -> & _)].
  - exists (t ++ t'); rewrite app_assoc; reflexivity.
  - destruct (IH (ch_tilde =? c2) c2 s2 ((out ++ t) ++ t')) as (t2 & ->);
      [cbn [length] in Hl; lia|].
    exists (t ++ t' ++ t2); rewrite !app_assoc; reflexivity.
Qed.

Lemma narrowRecords_mono o room fuel : forall fuel' jump c s out r,
  narrowRecords o room fuel jump c s out = Some r -> (fuel <= fuel')%nat ->
  narrowRecords o room fuel' jump c s out = Some r.
Proof.
  induction fuel as [|fuel IH]; intros fuel' jump c s out r H Hle;
    [discriminate|].
  destruct fuel' as [|fuel']; [lia|].
  revert H; cbn [narrowRecords].
  destruct (jump || (0 <? c)).
  - destruct (narrowRecord o fuel jump c s out) as [[[c1 s1] o1]|] eqn:E;
      [|discriminate].
    rewrite (@narrowRecord_mono o fuel fuel' _ _ _ _ _ E) by lia.
    destruct (narrowBetween o room c1 s1 o1) as [|[[[j c2] s2] o2]]; auto.
    intros H; apply IH; [exact H|lia].
  - destruct (narrowBetween o room c s (out ++ s_quote_quote))
      as [|[[[j c2] s2] o2]]; auto.
    intros H; apply IH; [exact H|lia].
Qed.

(** The whole loop ends, whatever the input. *)
Lemma narrowLoop_total o room input :
  exists out, narrowLoop o room input = Some out.
Proof.
  unfold narrowLoop.
  destruct input as [|b s]; cbn [getc length].
  - destruct (@narrowRecords_total o room 2 (ch_tilde =? EOF) EOF [] [])
      as (t & E); [simpl; lia|]. eauto.
  - destruct (@narrowRecords_total o room (S (length s) + 2) (ch_tilde =? b) b s [])
      as (t & E); [lia|]. eauto.
Qed.
(** ** Octal escapes *)

Lemma list_eqb_eq a b : list_eqb a b = true -> a = b.
Proof. unfold list_eqb; destruct (list_eq_dec Z.eq_dec a b); auto; discriminate. Qed.

Lemma fmt_3o_byte c : byte c -> fmt_3o c = ch_backslash :: octal3 c.
Proof.
  intros H; apply list_eqb_eq.
  apply (byte_forall (fun x => list_eqb (fmt_3o x) (ch_backslash :: octal3 x)));
    [vm_compute; reflexivity|exact H].
Qed.

Lemma fmt_o_small c :
  0 <= c <= 63 -> fmt_o c = ch_backslash :: octalShort c.
Proof.
  intros H; apply list_eqb_eq.
  apply (@byte_range 0 63
           (fun x => list_eqb (fmt_o x) (ch_backslash :: octalShort x)));
    [vm_compute; reflexivity|lia|lia|exact H].
Qed.

Lemma peek_restores st :
  wf st ->
  wf (snd (peekUtf8 st)) /\ pending (snd (peekUtf8 st)) = pending st
  /\ fst (peekUtf8 st) = fst (getUtf8CodePoint st)
  /\ view (getUtf8CodePoint (snd (peekUtf8 st))) = view (getUtf8CodePoint st).
Proof.
  intros Hwf. destruct (get_spec Hwf) as (_ & Hv & Hwf' & Hp).
  unfold peekUtf8. destruct (getUtf8CodePoint st) as [nextc st1] eqn:E.
  cbn [fst snd] in *.
  destruct (get_spec Hwf') as (_ & Hv' & _).
  split; [exact Hwf'|split; [exact Hp|split; [reflexivity|]]].
  rewrite Hv', Hp, <- Hv. reflexivity.
Qed.

Lemma isOctalDigit_eq n : (n <=? ch_7) && (ch_0 <=? n) = isOctalDigit n.
Proof. unfold isOctalDigit; apply andb_comm. Qed.

(** C3: an octal escape written inside [$'...'] for a code point that is
    one byte (below 128, or a byte that could not be decoded) has exactly
    three digits when the code point is above 63 or the next code point of
    the input is an octal digit, and otherwise the one or two digits of its
    value; the look at the next code point leaves the input as it was: the
    bytes to deliver are the same and the next call returns the same code
    point.  This holds in the byte oriented loop and in the UTF-8 loop. *)
Theorem octal_escape_padding (o : options) (c : Z) (out : list Z)
        (Hc : 0 < c < 256)
        (Hesc : hasAnsiEscape (ansiEscapesLimit o) c = false) :
  (forall s,
      narrowEmit o c false s out =
      out ++ ch_backslash ::
          (if (63 <? c) || isOctalDigit (fst (getc s))
           then octal3 c else octalShort c))
  /\ (forall st,
         wf st -> (c < 128 \/ bytesInCodePoint st = 0%nat) ->
         exists st',
           utf8Emit o c false st out =
           (st',
            out ++ ch_backslash ::
                (if (63 <? c) || isOctalDigit (fst (getUtf8CodePoint st))
                 then octal3 c else octalShort c),
            false)
           /\ wf st' /\ pending st' = pending st
           /\ view (getUtf8CodePoint st') = view (getUtf8CodePoint st)).
Proof.
  assert (Hb : byte c) by (unfold byte; lia).
  split.
  - intros s. unfold narrowEmit. rewrite Hesc.
    rewrite isOctalDigit_eq.
    destruct (Z.ltb_spec 63 c); cbn [orb].
    + rewrite fmt_3o_byte by assumption; reflexivity.
    + destruct (isOctalDigit (fst (getc s))).
      * rewrite fmt_3o_byte by assumption; reflexivity.
      * rewrite fmt_o_small by lia; reflexivity.
  - intros st Hwf Hone. unfold utf8Emit. rewrite Hesc.
    replace ((c <? 128) || (bytesInCodePoint st =? 0)%nat) with true.
    2:{ symmetry; apply orb_true_iff. destruct Hone as [H|H].
        - left; apply Z.ltb_lt; exact H.
        - right; apply Nat.eqb_eq; exact H. }
    destruct (Z.ltb_spec 63 c); cbn [orb].
    + exists st. rewrite fmt_3o_byte by assumption.
      split; [reflexivity|split; [exact Hwf|split; reflexivity]].
    + destruct (peek_restores Hwf) as (Hwf' & Hp & Hn & Hv).
      destruct (peekUtf8 st) as [nextc st'] eqn:E; cbn [fst snd] in *.
      exists st'. rewrite isOctalDigit_eq, <- Hn.
      destruct (isOctalDigit nextc).
      * rewrite fmt_3o_byte by assumption.
        split; [reflexivity|split; [exact Hwf'|split; assumption]].
      * rewrite fmt_o_small by lia.
        split; [reflexivity|split; [exact Hwf'|split; assumption]].
Qed.

Lemma octal_escape_padding_witness :
  (forall s,
      narrowEmit defaults 1 false s [] =
      [] ++ ch_backslash ::
          (if (63 <? 1) || isOctalDigit (fst (getc s))
           then octal3 1 else octalShort 1))
  /\ (forall st,
         wf st -> (1 < 128 \/ bytesInCodePoint st = 0%nat) ->
         exists st',
           utf8Emit defaults 1 false st [] =
           (st',
            [] ++ ch_backslash ::
                (if (63 <? 1) || isOctalDigit (fst (getUtf8CodePoint st))
                 then octal3 1 else octalShort 1),
            false)
           /\ wf st' /\ pending st' = pending st
           /\ view (getUtf8CodePoint st') = view (getUtf8CodePoint st)).
Proof.
  apply (@octal_escape_padding defaults 1 []); [lia|reflexivity].
Defined.

(** Byte 1 before the digit 2 and before the letter A, in the two loops. *)
Example octal_before_digit_utf8 :
  utf8Loop isprint (fun _ => false) defaults None [1; 50]
  = Some [36; 39; 92; 48; 48; 49; 50; 39].
Proof. reflexivity. Qed.

Example octal_before_letter_utf8 :
  utf8Loop isprint (fun _ => false) defaults None [1; 65]
  = Some [36; 39; 92; 49; 65; 39].
Proof. reflexivity. Qed.

Example octal_before_digit_narrow :
  narrowLoop defaults None [1; 50] = Some [36; 39; 92; 48; 48; 49; 50; 39].
Proof. reflexivity. Qed.

Example octal_before_letter_narrow :
  narrowLoop defaults None [1; 65] = Some [36; 39; 92; 49; 65; 39].
Proof. reflexivity. Qed.
(** ** The UTF-8 loop *)

Section Utf8Loop.
Variable iswprint : Z -> bool.
Variable iswspace : Z -> bool.
Variable o : options.

Lemma utf8Emit_spec c isP st out :
  wf st ->
  exists st' t brk,
    utf8Emit o c isP st out = (st', out ++ t, brk)
    /\ wf st' /\ pending st' = pending st.
Proof.
  intros Hwf. unfold utf8Emit.
  destruct (peek_restores Hwf) as (Hwf' & Hp & _).
  destruct (peekUtf8 st) as [nextc st1]; cbn [fst snd] in *.
  repeat match goal with
         | |- context [if ?b then _ else _] => destruct b
         end;
    eexists _, _, _; (split; [reflexivity|split; assumption || reflexivity]).
Qed.

Lemma get_shorter st :
  wf st ->
  wf (snd (getUtf8CodePoint st))
  /\ (0 < fst (getUtf8CodePoint st) ->
      (length (pending (snd (getUtf8CodePoint st))) < length (pending st))%nat)
  /\ (length (pending (snd (getUtf8CodePoint st))) <= length (pending st))%nat.
Proof.
  intros Hwf. destruct (get_consume Hwf) as (Hwf' & Hc).
  split; [exact Hwf'|].
  destruct (getUtf8CodePoint st) as [rc st']; unfold consumes in Hc;
    cbn [fst snd] in *.
  destruct Hc as [(Hp & Hrc & _ & Hp')|(Hp & Hb)].
  - rewrite Hp, Hp', Hrc; unfold EOF; split; [lia|cbn; lia].
  - assert (Hne : unitBytes rc st' <> [])
      by (apply unitBytes_nonempty; [assumption|lia]).
    rewrite Hp, length_app.
    destruct (unitBytes rc st'); [contradiction|]; cbn [length]; lia.
Qed.

Lemma utf8Quoted_total fuel : forall c isP st out,
  wf st -> (length (pending st) < fuel)%nat ->
  exists c' st' t,
    utf8Quoted iswprint iswspace o fuel c isP st out = Some (c', st', out ++ t)
    /\ wf st' /\ (length (pending st') <= length (pending st))%nat
    /\ (exists t', out ++ t = snd (fst (utf8Emit o c isP st out)) ++ t').
Proof.
  induction fuel as [|fuel IH]; intros c isP st out Hwf Hlen; [lia|].
  cbn [utf8Quoted].
  destruct (utf8Emit_spec c isP out Hwf) as (st1 & t1 & brk & E & Hwf1 & Hp1).
  rewrite E; cbn [fst snd].
  destruct brk.
  - exists c, st1, t1. rewrite Hp1.
    split; [reflexivity|split; [assumption|split; [lia|]]].
    exists []; rewrite app_nil_r; reflexivity.
  - destruct (get_shorter Hwf1) as (Hwf2 & Hlt & Hle).
    rewrite Hp1 in Hlt, Hle.
    destruct (getUtf8CodePoint st1) as [c' st2]; cbn [fst snd] in *.
    destruct (Z.ltb_spec 0 c').
    + destruct (IH c' (utf8Printable iswprint iswspace o c' st2) st2
                   (out ++ t1) Hwf2) as (c2 & st3 & t & -> & Hwf3 & Hl3 & _).
      { specialize (Hlt H); lia. }
      exists c2, st3, (t1 ++ t). rewrite app_assoc.
      split; [reflexivity|split; [assumption|split; [lia|]]].
      exists t; reflexivity.
    + exists c', st2, t1.
      split; [reflexivity|split; [assumption|split; [lia|]]].
      exists []; rewrite app_nil_r; reflexivity.
Qed.

Lemma utf8Record_unfold fuel jump c st out :
  utf8Record iswprint iswspace o (S fuel) jump c st out =
  let isPrintable :=
    if jump then true else utf8Printable iswprint iswspace o c st in
  if jump || negb isPrintable || isShControl c then
    if negb jump && (ch_quote =? c)
    then utf8Next iswprint iswspace o fuel st (out ++ s_bs_quote)
    else
      match utf8Quoted iswprint iswspace o fuel c isPrintable st
                       (out ++ s_dollar_quote) with
      | None => None
      | Some (c', st', out') =>
          if c' <=? 0 then Some (c', st', out' ++ [ch_quote])
          else utf8Next iswprint iswspace o fuel st' (out' ++ [ch_quote])
      end
  else utf8Next iswprint iswspace o fuel st (out ++ firstn (bytesInCodePoint st) (cbuff st)).
Proof. reflexivity. Qed.

Lemma utf8Record_total fuel : forall jump c st out,
  wf st -> (length (pending st) + 1 < fuel)%nat ->
  exists c' st' t,
    utf8Record iswprint iswspace o fuel jump c st out
    = Some (c', st', out ++ t)
    /\ c' <= 0 /\ wf st'
    /\ (length (pending st') <= length (pending st))%nat.
Proof.
  induction fuel as [|fuel IH]; intros jump c st out Hwf Hlen; [lia|].
  assert (Hnext : forall st1 t1,
            wf st1 -> (length (pending st1) <= length (pending st))%nat ->
            exists c' st' t,
              utf8Next iswprint iswspace o fuel st1 (out ++ t1) = Some (c', st', out ++ t)
              /\ c' <= 0 /\ wf st'
              /\ (length (pending st') <= length (pending st))%nat).
  { intros st1 t1 Hwf1 Hl1. unfold utf8Next.
    destruct (get_shorter Hwf1) as (Hwf2 & Hlt & Hle).
    destruct (getUtf8CodePoint st1) as [c' st2]; cbn [fst snd] in *.
    destruct (Z.ltb_spec 0 c').
    - destruct (IH false c' st2 (out ++ t1) Hwf2)
        as (c2 & st3 & t & -> & Hc2 & Hwf3 & Hl3);
        [specialize (Hlt H); lia|].
      exists c2, st3, (t1 ++ t); rewrite app_assoc.
      split; [reflexivity|split; [assumption|split; [assumption|lia]]].
    - exists c', st2, t1.
      split; [reflexivity|split; [assumption|split; [assumption|lia]]]. }
  rewrite utf8Record_unfold; cbv zeta.
  destruct (jump || negb (if jump then true
                          else utf8Printable iswprint iswspace o c st)
            || isShControl c).
  - destruct (negb jump && (ch_quote =? c)).
    + apply Hnext; [assumption|lia].
    + destruct (@utf8Quoted_total fuel c
                  (if jump then true
                   else utf8Printable iswprint iswspace o c st)
                  st (out ++ s_dollar_quote) Hwf)
        as (c' & st' & t & -> & Hwf' & Hl' & _); [lia|].
      destruct (Z.leb_spec c' 0).
      * exists c', st', ((s_dollar_quote ++ t) ++ [ch_quote]).
        rewrite <- !app_assoc.
        split; [reflexivity|split; [assumption|split; assumption]].
      * rewrite <- !app_assoc, (app_assoc s_dollar_quote).
        apply Hnext; assumption.
  - apply Hnext; [assumption|lia].
Qed.

Variable room : option nat.



End Utf8Loop.
(** ** The wide character loop *)

Section WideLoop.
Variable iswprint : Z -> bool.
Variable iswspace : Z -> bool.
Variable o : options.
Variable room : option nat.

Lemma getwc_cases ws :
  (wchars ws = [] /\ fst (getwc ws) = WEOF /\ wchars (snd (getwc ws)) = [])
  \/ (wchars ws = fst (getwc ws) :: wchars (snd (getwc ws))).
Proof. unfold getwc; destruct (wchars ws); [left|right]; auto. Qed.

Lemma getwc_length ws :
  (length (wchars (snd (getwc ws))) <= length (wchars ws))%nat
  /\ (wideChar (fst (getwc ws)) = true ->
      (length (wchars (snd (getwc ws))) < length (wchars ws))%nat).
Proof.
  destruct (getwc_cases ws) as [(H1 & H2 & H3)|H].
  - rewrite H1, H2, H3. split; [cbn; lia|]. vm_compute; discriminate.
  - assert (E : length (wchars ws)
                = S (length (wchars (snd (getwc ws)))))
      by (rewrite H at 1; reflexivity).
    rewrite E. split; intros; lia.
Qed.

Lemma wideEmit_spec c isP ws out :
  exists ws' t brk,
    wideEmit o c isP ws out = (ws', out ++ t, brk)
    /\ wchars ws' = wchars ws.
Proof.
  unfold wideEmit, peekwc.
  destruct (getwc ws) as [nextc ws1].
  repeat match goal with
         | |- context [if ?b then _ else _] => destruct b
         end;
    eexists _, _, _; (split; reflexivity).
Qed.

Lemma wideRaw_total fuel : forall c ws out,
  (length (wchars ws) < fuel)%nat ->
  exists c' ws' t,
    wideRaw fuel c ws out = Some (c', ws', out ++ c :: t)
    /\ (length (wchars ws') <= length (wchars ws))%nat.
Proof.
  induction fuel as [|fuel IH]; intros c ws out Hlen; [lia|].
  cbn [wideRaw].
  destruct (getwc_length ws) as (Hle & Hlt).
  destruct (getwc ws) as [c' ws']; cbn [fst snd] in *.
  destruct (wideChar c') eqn:Hc; cbn [andb].
  - destruct (negb (ch_quote =? c')).
    + destruct (IH c' ws' (out ++ [c])) as (c2 & ws2 & t & -> & Hl);
        [specialize (Hlt eq_refl); lia|].
      exists c2, ws2, (c' :: t). rewrite <- app_assoc.
      split; [reflexivity|lia].
    + exists c', ws', []. split; [reflexivity|lia].
  - exists c', ws', []. split; [reflexivity|lia].
Qed.

Lemma wideQuoted_total fuel : forall c isP ws out,
  (length (wchars ws) < fuel)%nat ->
  exists c' ws' t,
    wideQuoted iswprint iswspace o fuel c isP ws out
    = Some (c', ws', out ++ t)
    /\ (length (wchars ws') <= length (wchars ws))%nat
    /\ (exists t', out ++ t = snd (fst (wideEmit o c isP ws out)) ++ t').
Proof.
  induction fuel as [|fuel IH]; intros c isP ws out Hlen; [lia|].
  cbn [wideQuoted].
  destruct (wideEmit_spec c isP ws out) as (ws1 & t1 & brk & E & Hw1).
  rewrite E; cbn [fst snd].
  destruct brk.
  - exists c, ws1, t1. rewrite Hw1.
    split; [reflexivity|split; [lia|]].
    exists []; rewrite app_nil_r; reflexivity.
  - destruct (getwc_length ws1) as (Hle & Hlt). rewrite Hw1 in Hle, Hlt.
    destruct (getwc ws1) as [c' ws2]; cbn [fst snd] in *.
    destruct (wideChar c') eqn:Hc.
    + destruct (IH c' (callIswprintFn iswprint iswspace o c') ws2
                   (out ++ t1)) as (c2 & ws3 & t & -> & Hl3 & _);
        [specialize (Hlt eq_refl); lia|].
      exists c2, ws3, (t1 ++ t). rewrite app_assoc.
      split; [reflexivity|split; [lia|]].
      exists t; reflexivity.
    + exists c', ws2, t1.
      split; [reflexivity|split; [lia|]].
      exists []; rewrite app_nil_r; reflexivity.
Qed.

Lemma wideRecord_unfold fuel jump c ws out :
  wideRecord iswprint iswspace o (S fuel) jump c ws out =
  let isPrintable :=
    if jump then true
    else disableCQuoting o || callIswprintFn iswprint iswspace o c in
  if jump || wideRecord_isShControl c || negb isPrintable then
    if ch_quote =? c
    then wideNext iswprint iswspace o fuel ws (out ++ s_bs_quote)
    else
      match (if disableCQuoting o
             then wideRaw fuel c ws (out ++ [ch_quote])
             else wideQuoted iswprint iswspace o fuel c isPrintable ws
                             (out ++ s_dollar_quote)) with
      | None => None
      | Some (c', ws', out') =>
          if ch_quote =? c'
          then wideNext iswprint iswspace o fuel ws'
                        ((out' ++ [ch_quote]) ++ s_bs_quote)
          else if negb (wideChar c')
               then Some (c', ws', out' ++ [ch_quote])
               else wideNext iswprint iswspace o fuel ws'
                             (out' ++ [ch_quote])
      end
  else wideNext iswprint iswspace o fuel ws (out ++ [c]).
Proof. reflexivity. Qed.

Lemma wideRecord_total fuel : forall jump c ws out,
  (length (wchars ws) + 1 < fuel)%nat ->
  exists c' ws' t,
    wideRecord iswprint iswspace o fuel jump c ws out
    = Some (c', ws', out ++ t)
    /\ wideChar c' = false
    /\ (length (wchars ws') <= length (wchars ws))%nat.
Proof.
  induction fuel as [|fuel IH]; intros jump c ws out Hlen; [lia|].
  assert (Hnext : forall ws1 t1,
            (length (wchars ws1) <= length (wchars ws))%nat ->
            exists c' ws' t,
              wideNext iswprint iswspace o fuel ws1 (out ++ t1)
              = Some (c', ws', out ++ t)
              /\ wideChar c' = false
              /\ (length (wchars ws') <= length (wchars ws))%nat).
  { intros ws1 t1 Hl1. unfold wideNext.
    destruct (getwc_length ws1) as (Hle & Hlt).
    destruct (getwc ws1) as [c' ws2]; cbn [fst snd] in *.
    destruct (wideChar c') eqn:Hc.
    - destruct (IH false c' ws2 (out ++ t1))
        as (c2 & ws3 & t & -> & Hc2 & Hl3);
        [specialize (Hlt eq_refl); lia|].
      exists c2, ws3, (t1 ++ t); rewrite app_assoc.
      split; [reflexivity|split; [assumption|lia]].
    - exists c', ws2, t1.
      split; [reflexivity|split; [assumption|lia]]. }
  rewrite wideRecord_unfold; cbv zeta.
  set (isP := if jump then true
              else disableCQuoting o
                   || callIswprintFn iswprint iswspace o c).
  destruct (jump || wideRecord_isShControl c || negb isP).
  - destruct (ch_quote =? c).
    + apply Hnext; lia.
    + assert (Hblock : exists c' ws' t,
                 (if disableCQuoting o
                  then wideRaw fuel c ws (out ++ [ch_quote])
                  else wideQuoted iswprint iswspace o fuel c isP ws
                                  (out ++ s_dollar_quote))
                 = Some (c', ws', out ++ t)
                 /\ (length (wchars ws') <= length (wchars ws))%nat).
      { destruct (disableCQuoting o).
        - destruct (@wideRaw_total fuel c ws (out ++ [ch_quote]))
            as (c' & ws' & t & -> & Hl); [lia|].
          exists c', ws', ([ch_quote] ++ c :: t).
          rewrite <- app_assoc; auto.
        - destruct (@wideQuoted_total fuel c isP ws (out ++ s_dollar_quote))
            as (c' & ws' & t & -> & Hl & _); [lia|].
          exists c', ws', (s_dollar_quote ++ t).
          rewrite <- app_assoc; auto. }
      destruct Hblock as (c' & ws' & t & -> & Hl).
      destruct (ch_quote =? c').
      * rewrite <- !app_assoc. apply Hnext; assumption.
      * destruct (wideChar c') eqn:Hc; cbn [negb].
        -- rewrite <- !app_assoc. apply Hnext; assumption.
        -- exists c', ws', (t ++ [ch_quote]). rewrite <- !app_assoc.
           split; [reflexivity|split; assumption].
  - apply Hnext; lia.
Qed.

Lemma wideBetween_cases c ws out :
  (exists ws' t, wideBetween o room c ws out = inl (ws', out ++ t))
  \/ (exists c' ws' t,
         c = 0 /\ getwc ws = (c', ws')
         /\ wideBetween o room c ws out
            = inr (ch_tilde =? c', c', ws', out ++ t)
         /\ fst (separator o room out) = true
         /\ snd (separator o room out) = out ++ t
         /\ (length (wchars ws') < length (wchars ws))%nat).
Proof.
  unfold wideBetween.
  assert (Hterm : forall b ws', exists ws2 t,
             @inl (wstream * list Z) (bool * Z * wstream * list Z)
                  (ws', terminator o b out) = inl (ws2, out ++ t)).
  { intros b ws'; destruct (terminator_app o b out) as (t & ->); eauto. }
  destruct (Z.eqb_spec 0 c) as [<-|Hc]; [|left; apply Hterm].
  destruct (getwc_cases ws) as [(H1 & H2 & H3)|H].
  - destruct (getwc ws) as [c' ws']; cbn [fst snd] in *; subst c'.
    left; apply Hterm.
  - destruct (getwc ws) as [c' ws'] eqn:E; cbn [fst snd] in *.
    destruct (WEOF =? c'); cbn [negb]; [left; apply Hterm|].
    destruct (separator_app o room out) as (t & Ht).
    destruct (separator o room out) as [lc out']; cbn [fst snd] in *; subst.
    destruct lc.
    + right; exists c', ws', t. rewrite andb_true_r.
      assert (Hl : (length (wchars ws') < length (wchars ws))%nat)
        by (rewrite H; cbn [length]; lia).
      destruct (ch_tilde =? c'); repeat split; auto.
    + left; exists ws', t. rewrite andb_false_r; reflexivity.
Qed.

Lemma wideRecords_total fuel : forall jump c ws out,
  (length (wchars ws) + 2 < fuel)%nat ->
  exists ws' t,
    wideRecords iswprint iswspace o room fuel jump c ws out
    = Some (ws', out ++ t).
Proof.
  induction fuel as [|fuel IH]; intros jump c ws out Hlen; [lia|].
  cbn [wideRecords].
  assert (Hrec : exists c' ws' t,
             (if jump || wideChar c
              then wideRecord iswprint iswspace o fuel jump c ws out
              else Some (c, ws, out ++ s_quote_quote))
             = Some (c', ws', out ++ t)
             /\ (length (wchars ws') <= length (wchars ws))%nat).
  { destruct (jump || wideChar c).
    - destruct (@wideRecord_total fuel jump c ws out)
        as (c' & ws' & t & E & _ & Hl); [lia|].
      exists c', ws', t; auto.
    - exists c, ws, s_quote_quote; auto. }
  destruct Hrec as (c' & ws' & t & -> & Hl).
  destruct (wideBetween_cases c' ws' (out ++ t))
    as [(ws2 & t' & ->)|(c2 & ws2 & t' & _ & _ & -> & _ & _ & Hl2)].
  - exists ws2, (t ++ t'); rewrite app_assoc; reflexivity.
  - destruct (IH (ch_tilde =? c2) c2 ws2 ((out ++ t) ++ t'))
      as (ws3 & t2 & ->); [lia|].
    exists ws3, (t ++ t' ++ t2); rewrite !app_assoc; reflexivity.
Qed.

(** The whole loop ends, whatever the characters on stdin. *)
Lemma wideLoop_total input :
  exists r, wideLoop iswprint iswspace o room input = Some r.
Proof.
  unfold wideLoop.
  destruct (getwc_cases input) as [(H1 & H2 & H3)|H].
  - destruct (getwc input) as [c ws]; cbn [fst snd] in *.
    rewrite H1; subst c. cbn [length Nat.add wideRecords].
    replace (wideChar WEOF) with false by reflexivity.
    replace (ch_tilde =? WEOF) with false by reflexivity.
    cbn [orb]. unfold wideBetween.
    replace (0 =? WEOF) with false by reflexivity.
    eexists; reflexivity.
  - destruct (getwc input) as [c ws]; cbn [fst snd] in *.
    destruct (@wideRecords_total (length (wchars input) + 2)
                (ch_tilde =? c) c ws []) as (ws' & t & ->);
      [rewrite H; cbn [length]; lia|].
    eexists; reflexivity.
Qed.
End WideLoop.
(** ** A record that begins with a tilde *)



Lemma narrowRecords_unfold o room fuel jump c s out :
  narrowRecords o room (S fuel) jump c s out =
  match (if jump || (0 <? c) then narrowRecord o fuel jump c s out
         else Some (c, s, out ++ s_quote_quote)) with
  | None => None
  | Some (c', s', out') => narrowResume o room fuel c' s' out'
  end.
Proof. reflexivity. Qed.


Section Utf8Tilde.
Variable iswprint : Z -> bool.
Variable iswspace : Z -> bool.
Variable o : options.
Variable room : option nat.

Lemma utf8Next_total fuel st acc :
  wf st -> (length (pending st) < fuel)%nat ->
  exists c' st' t,
    utf8Next iswprint iswspace o fuel st acc = Some (c', st', acc ++ t)
    /\ wf st' /\ (length (pending st') <= length (pending st))%nat.
Proof.
  intros Hwf Hlen. unfold utf8Next.
  destruct (get_shorter Hwf) as (Hwf2 & Hlt & Hle).
  destruct (getUtf8CodePoint st) as [c' st2]; cbn [fst snd] in *.
  destruct (Z.ltb_spec 0 c').
  - destruct (@utf8Record_total iswprint iswspace o fuel false c' st2 acc Hwf2)
      as (c2 & st3 & t & -> & _ & Hwf3 & Hl3); [specialize (Hlt H); lia|].
    exists c2, st3, t. split; [reflexivity|split; [assumption|lia]].
  - exists c', st2, []. rewrite app_nil_r.
    split; [reflexivity|split; [assumption|lia]].
Qed.



End Utf8Tilde.
Section WideTilde.
Variable iswprint : Z -> bool.
Variable iswspace : Z -> bool.
Variable o : options.
Variable room : option nat.




End WideTilde.
Section Ascii.
Local Arguments Z.ltb : simpl never.
Local Arguments Z.leb : simpl never.
Local Arguments Z.eqb : simpl never.
Local Arguments bitset : simpl never.
Local Arguments to_uchar : simpl never.

(** An ASCII byte is a code point by itself. *)
Lemma get_ascii st b rest :
  wf st -> pending st = b :: rest -> 0 <= b < 128 ->
  view (getUtf8CodePoint st) = (b, 1%nat, [b], rest).
Proof.
  intros Hwf Hp Hb.
  destruct (get_spec Hwf) as (_ & -> & _). rewrite Hp.
  assert (B : byte b) by (unfold byte; lia).
  unfold getUtf8CodePoint, utf8_init; cbn; unfold readInto; cbn.
  byte_rw. rewrite (bitset_128 B).
  replace (128 <=? b) with false by (symmetry; apply Z.leb_gt; lia).
  cbn. byte_rw. reflexivity.
Qed.
End Ascii.

Lemma view_inv st rc k cb rest :
  view (getUtf8CodePoint st) = (rc, k, cb, rest) ->
  exists st', getUtf8CodePoint st = (rc, st')
              /\ bytesInCodePoint st' = k
              /\ firstn k (cbuff st') = cb /\ pending st' = rest.
Proof.
  destruct (getUtf8CodePoint st) as [c st']. unfold view.
  intros H; injection H as <- <- <- <-. eauto.
Qed.


(** A tilde alone, in the three loops. *)
Example tilde_alone_narrow :
  narrowLoop defaults None [126] = Some [36; 39; 126; 39].
Proof. reflexivity. Qed.

Example tilde_alone_minimal :
  narrowLoop {| ansiEscapesLimit := 14; iswprintFn := FnIswprint;
                disableCQuoting := true; useUnicodeEscapes := false;
                flushArguments := false; ignoreNullInput := false;
                nullTerminatedOutput := false |} None [126]
  = Some [39; 126; 39].
Proof. reflexivity. Qed.

Example tilde_alone_utf8 :
  utf8Loop isprint (fun _ => false) defaults None [126]
  = Some [36; 39; 126; 39].
Proof. reflexivity. Qed.

Example tilde_alone_wide :
  wideLoop isprint (fun _ => false) defaults None
           {| wchars := [126]; undecodable := false; errnoIsEILSEQ := false |}
  = Some ([36; 39; 126; 39], 0).
Proof. reflexivity. Qed.

Example tilde_second_record :
  utf8Loop isprint (fun _ => false) defaults None [97; 0; 126; 98]
  = Some [97; 32; 36; 39; 126; 98; 39].
Proof. reflexivity. Qed.
(** ** Bytes that could not be decoded *)

Lemma hasAnsiEscape_high limit c : 28 <= c -> hasAnsiEscape limit c = false.
Proof.
  intros H. unfold hasAnsiEscape.
  replace (nth (Z.to_nat c) ansiEscapes 0) with 0;
    [apply andb_false_r|].
  symmetry; apply nth_overflow. cbn [length ansiEscapes]. lia.
Qed.

(** C10: in the UTF-8 loop a byte that [getUtf8CodePoint] returns by itself
    ([bytesInCodePoint] is 0) is between 128 and 255; its printability is
    false without any call of the classifier; and it is written as a
    backslash and the three octal digits of its value, whatever the policy
    and whether or not \u escapes are enabled: inside a quoted region that
    is open, and otherwise at the start of a [$'] region opened for it. *)
Theorem undecoded_byte_is_octal_escaped
        (iswprint iswspace : Z -> bool) (o : options)
        (st0 st : utf8) (c : Z)
        (Hwf : wf st0) (Hget : getUtf8CodePoint st0 = (c, st))
        (Hc : 0 < c) (Hraw : bytesInCodePoint st = 0%nat) :
  128 <= c <= 255
  /\ utf8Printable iswprint iswspace o c st = false
  /\ (forall out,
         utf8Emit o c (utf8Printable iswprint iswspace o c st) st out
         = (st, out ++ ch_backslash :: octal3 c, false))
  /\ (forall fuel out,
         (length (pending st) < fuel)%nat ->
         exists c' st' t,
           utf8Quoted iswprint iswspace o fuel c
                      (utf8Printable iswprint iswspace o c st) st out
           = Some (c', st', out ++ (ch_backslash :: octal3 c) ++ t))
  /\ (forall fuel out,
         (length (pending st) + 1 < fuel)%nat ->
         exists c' st' t,
           utf8Record iswprint iswspace o fuel false c st out
           = Some (c', st',
                   out ++ s_dollar_quote ++ (ch_backslash :: octal3 c) ++ t)).
Proof.
  destruct (get_consume Hwf) as (Hwf' & Hcons).
  rewrite Hget in Hwf', Hcons; unfold consumes in Hcons; cbn [fst snd] in *.
  assert (Hrange : 128 <= c <= 255).
  { destruct Hcons as [(_ & Heof & _)|(_ & [(_ & H)|[(H & _)|(H & _)]])];
      [unfold EOF in Heof; lia|lia|congruence|lia]. }
  assert (Hpr : utf8Printable iswprint iswspace o c st = false)
    by (unfold utf8Printable; rewrite Hraw; reflexivity).
  assert (Hemit : forall out,
             utf8Emit o c false st out
             = (st, out ++ ch_backslash :: octal3 c, false)).
  { intros out. unfold utf8Emit. rewrite Hraw. cbn [Nat.eqb].
    rewrite orb_true_r, hasAnsiEscape_high by lia.
    replace (63 <? c) with true by (symmetry; apply Z.ltb_lt; lia).
    rewrite fmt_3o_byte by (unfold byte; lia). reflexivity. }
  split; [exact Hrange|]. split; [exact Hpr|]. rewrite Hpr.
  split; [exact Hemit|]. split.
  - intros fuel out Hlen.
    destruct (@utf8Quoted_total iswprint iswspace o fuel c false st out
                Hwf' Hlen) as (c' & st' & t & E & _ & _ & (t' & Ht')).
    rewrite Hemit in Ht'; cbn [fst snd] in Ht'.
    exists c', st', t'. rewrite E, Ht', <- app_assoc. reflexivity.
  - intros fuel out Hlen.
    destruct fuel as [|fuel]; [lia|].
    rewrite utf8Record_unfold. cbv zeta. rewrite Hpr. cbn [negb orb andb].
    replace (ch_quote =? c) with false
      by (symmetry; apply Z.eqb_neq; unfold ch_quote; lia).
    destruct (@utf8Quoted_total iswprint iswspace o fuel c false st
                (out ++ s_dollar_quote) Hwf')
      as (c' & st' & t & -> & Hwf2 & Hl2 & (t' & Ht')); [lia|].
    rewrite Hemit in Ht'; cbn [fst snd] in Ht'. rewrite Ht'.
    destruct (c' <=? 0).
    + exists c', st', (t' ++ [ch_quote]).
      rewrite <- !app_assoc. reflexivity.
    + destruct (@utf8Next_total iswprint iswspace o fuel st'
                  ((((out ++ s_dollar_quote) ++ ch_backslash :: octal3 c)
                      ++ t') ++ [ch_quote]) Hwf2)
        as (c2 & st2 & t2 & -> & _); [lia|].
      exists c2, st2, (t' ++ [ch_quote] ++ t2).
      rewrite <- !app_assoc. reflexivity.
Qed.

Lemma undecoded_byte_is_octal_escaped_witness :
  let st0 := utf8_init [0xE0; 0x41] in
  let st := snd (getUtf8CodePoint st0) in
  128 <= 0xE0 <= 255
  /\ utf8Printable isprint (fun _ => false) defaults 0xE0 st = false
  /\ (forall out,
         utf8Emit defaults 0xE0
                  (utf8Printable isprint (fun _ => false) defaults 0xE0 st)
                  st out
         = (st, out ++ ch_backslash :: octal3 0xE0, false))
  /\ (forall fuel out,
         (length (pending st) < fuel)%nat ->
         exists c' st' t,
           utf8Quoted isprint (fun _ => false) defaults fuel 0xE0
                      (utf8Printable isprint (fun _ => false) defaults 0xE0 st)
                      st out
           = Some (c', st', out ++ (ch_backslash :: octal3 0xE0) ++ t))
  /\ (forall fuel out,
         (length (pending st) + 1 < fuel)%nat ->
         exists c' st' t,
           utf8Record isprint (fun _ => false) defaults fuel false 0xE0 st out
           = Some (c', st',
                   out ++ s_dollar_quote
                   ++ (ch_backslash :: octal3 0xE0) ++ t)).
Proof.
  apply (@undecoded_byte_is_octal_escaped isprint (fun _ => false) defaults
           (utf8_init [0xE0; 0x41])).
  - apply wf_init. repeat (apply Forall_cons; [unfold byte; lia|]).
    apply Forall_nil.
  - reflexivity.
  - lia.
  - reflexivity.
Defined.

(** The lead byte 0xE0 before the letter A: the byte is escaped and the
    letter follows it; with \u escapes enabled as well. *)
Example undecoded_lead_then_letter :
  utf8Loop isprint (fun _ => false) defaults None [0xE0; 0x41]
  = Some [36; 39; 92; 51; 52; 48; 65; 39].
Proof. reflexivity. Qed.
(** ** Records written as they are *)

Lemma get_eof st :
  wf st -> pending st = [] ->
  exists st', getUtf8CodePoint st = (EOF, st') /\ wf st' /\ pending st' = [].
Proof.
  intros Hwf Hp. destruct (get_consume Hwf) as (Hwf' & Hc).
  destruct (getUtf8CodePoint st) as [c st']; unfold consumes in Hc;
    cbn [fst snd] in *.
  destruct Hc as [(_ & -> & _ & Hp')|(Hp' & Hb)]; [eauto|].
  exfalso. rewrite Hp in Hp'.
  assert (Hne : unitBytes c st' <> [])
    by (apply unitBytes_nonempty; [assumption|lia]).
  destruct (unitBytes c st'); [contradiction|discriminate].
Qed.


Section Literal.
Variable iswprint : Z -> bool.
Variable iswspace : Z -> bool.
Variable o : options.
Variable room : option nat.



End Literal.



(** ** Records and separators in the byte oriented loop *)

Lemma narrowEmit_local o c isP s rest out :
  Forall positive s ->
  narrowEmit o c isP (s ++ 0 :: rest) out = narrowEmit o c isP s out.
Proof.
  intros Hs. unfold narrowEmit.
  destruct s as [|b s]; reflexivity.
Qed.

Lemma narrowRaw_local rest s : forall c out,
  Forall positive s ->
  Forall positive (snd (fst (narrowRaw s c out)))
  /\ (fst (fst (narrowRaw s c out)) = EOF
      /\ snd (fst (narrowRaw s c out)) = []
      \/ fst (fst (narrowRaw s c out)) = ch_quote)
  /\ narrowRaw (s ++ 0 :: rest) c out =
     (let '(c', s', out') := narrowRaw s c out in
      if c' =? EOF then (0, rest, out') else (c', s' ++ 0 :: rest, out')).
Proof.
  induction s as [|b s IH]; intros c out Hs.
  - split; [constructor|split; [left; split|]; reflexivity].
  - inversion Hs as [|? ? Hb Hs']; subst. unfold positive in Hb.
    cbn [narrowRaw app].
    destruct ((0 <? b) && negb (ch_quote =? b)) eqn:E.
    + apply IH; assumption.
    + cbn [fst snd]. split; [assumption|]. split.
      * right. apply andb_false_iff in E. destruct E as [E|E].
        -- apply Z.ltb_ge in E; lia.
        -- apply negb_false_iff, Z.eqb_eq in E. congruence.
      * replace (b =? EOF) with false
          by (symmetry; apply Z.eqb_neq; unfold EOF; lia).
        reflexivity.
Qed.

Lemma narrowQuoted_local o rest s : forall c isP out,
  Forall positive s ->
  exists out',
    narrowQuoted o s c isP out = (EOF, [], out')
    /\ narrowQuoted o (s ++ 0 :: rest) c isP out = (0, rest, out').
Proof.
  induction s as [|b s IH]; intros c isP out Hs.
  - eexists; split; reflexivity.
  - inversion Hs as [|? ? Hb Hs']; subst. unfold positive in Hb.
    cbn [narrowQuoted app].
    replace (0 <? b) with true by (symmetry; apply Z.ltb_lt; lia).
    pose proof (@narrowEmit_local o c isP (b :: s) rest out Hs) as He.
    cbn [app] in He. rewrite He.
    apply IH; assumption.
Qed.

Lemma narrowRecord_local o rest fuel : forall jump c s out c1 s1 out1,
  Forall positive s ->
  narrowRecord o fuel jump c s out = Some (c1, s1, out1) ->
  (c1 = EOF /\ s1 = [])
  /\ narrowRecord o fuel jump c (s ++ 0 :: rest) out = Some (0, rest, out1).
Proof.
  induction fuel as [|fuel IH]; intros jump c s out c1 s1 out1 Hs H;
    [discriminate|].
  assert (Hnext : forall s2 out2,
            Forall positive s2 ->
            (let (c', s') := getc s2 in
             if 0 <? c' then narrowRecord o fuel false c' s' out2
             else Some (c', s', out2)) = Some (c1, s1, out1) ->
            (c1 = EOF /\ s1 = []) /\
            (let (c', s') := getc (s2 ++ 0 :: rest) in
             if 0 <? c' then narrowRecord o fuel false c' s' out2
             else Some (c', s', out2)) = Some (0, rest, out1)).
  { intros s2 out2 Hs2. destruct s2 as [|b s2]; cbn [getc app].
    - change (0 <? EOF) with false. change (0 <? 0) with false.
      intros E; injection E as <- <- <-. auto.
    - inversion Hs2 as [|? ? Hb Hs2']; subst. unfold positive in Hb.
      replace (0 <? b) with true by (symmetry; apply Z.ltb_lt; lia).
      apply IH; assumption. }
  revert H. cbn [narrowRecord].
  destruct (jump || isShControl c
            || negb (if jump then true else disableCQuoting o || isprint c)).
  - destruct (ch_quote =? c); [apply Hnext; assumption|].
    destruct (disableCQuoting o).
    + destruct (@narrowRaw_local rest s c (out ++ [ch_quote]) Hs)
        as (Hpos & Hc' & ->).
      destruct (narrowRaw s c (out ++ [ch_quote])) as [[c' s'] out'];
        cbn [fst snd] in Hpos, Hc'.
      destruct Hc' as [(-> & ->)| ->].
      * change (EOF =? EOF) with true.
        change (ch_quote =? EOF) with false. change (EOF <=? 0) with true.
        change (ch_quote =? 0) with false. change (0 <=? 0) with true.
        intros E; injection E as <- <- <-. auto.
      * change (ch_quote =? EOF) with false.
        change (ch_quote =? ch_quote) with true.
        apply Hnext; assumption.
    + destruct (@narrowQuoted_local o rest s c
                  (if jump then true else false || isprint c)
                  (out ++ s_dollar_quote) Hs) as (out' & -> & ->).
      change (ch_quote =? EOF) with false. change (EOF <=? 0) with true.
      change (ch_quote =? 0) with false. change (0 <=? 0) with true.
      intros E; injection E as <- <- <-. auto.
  - apply Hnext; assumption.
Qed.
Lemma separator_none o out :
  separator o None out = (true, out ++ sepBytes o).
Proof.
  unfold separator, sepBytes.
  destruct (ignoreNullInput o); [rewrite app_nil_r; reflexivity|].
  destruct (nullTerminatedOutput o); cbn [putcOk fflushOk andb];
    [rewrite orb_true_r|]; reflexivity.
Qed.

Lemma terminator_eq o b out : terminator o b out = out ++ termBytes o b.
Proof.
  unfold terminator, termBytes.
  destruct b, (ignoreNullInput o), (nullTerminatedOutput o);
    cbn [andb]; rewrite ?app_nil_r; reflexivity.
Qed.

Lemma narrowRecords_app o fuel : forall jump c s out,
  narrowRecords o None fuel jump c s out
  = option_map (app out) (narrowRecords o None fuel jump c s []).
Proof.
  induction fuel as [|fuel IH]; intros jump c s out; [reflexivity|].
  rewrite !narrowRecords_unfold.
  assert (Hres : forall c1 s1 o1,
             narrowResume o None fuel c1 s1 (out ++ o1)
             = option_map (app out) (narrowResume o None fuel c1 s1 o1)).
  { intros c1 s1 o1. unfold narrowResume, narrowBetween.
    rewrite !separator_none, !terminator_eq.
    destruct (0 =? c1); [|cbn [option_map]; rewrite app_assoc; reflexivity].
    destruct (getc s1) as [c2 s2].
    destruct (negb (EOF =? c2));
      [|cbn [option_map]; rewrite app_assoc; reflexivity].
    rewrite andb_true_r.
    destruct (ch_tilde =? c2);
      rewrite IH, (IH _ _ _ (o1 ++ sepBytes o)), <- app_assoc;
      destruct (narrowRecords o None fuel _ c2 s2 []); cbn [option_map];
      rewrite ?app_assoc; reflexivity. }
  destruct (jump || (0 <? c)).
  - rewrite narrowRecord_app.
    destruct (narrowRecord o fuel jump c s []) as [[[c1 s1] o1]|];
      [|reflexivity].
    cbn [option_map shift3]. apply Hres.
  - rewrite (Hres c s s_quote_quote). reflexivity.
Qed.

(** The loop on a record [r] followed by a null and by [rest] is, after the
    record, the loop resumed on [rest]. *)
Lemma narrowLoop_record o r :
  Forall positive r ->
  exists e,
    narrowLoop o None r = Some (e ++ termBytes o false)
    /\ forall rest,
        narrowLoop o None (r ++ 0 :: rest)
        = narrowResume o None (length (r ++ 0 :: rest) + 1) 0 rest e.
Proof.
  intros Hr. unfold narrowLoop.
  destruct r as [|b r].
  - exists s_quote_quote. split.
    + cbn [getc length Nat.add]. rewrite narrowRecords_unfold.
      change (ch_tilde =? EOF) with false. change (0 <? EOF) with false.
      cbn [orb]. unfold narrowResume, narrowBetween.
      change (0 =? EOF) with false. rewrite !terminator_eq. reflexivity.
    + intros rest. cbn [app getc].
      replace (length (0%Z :: rest) + 2)%nat
        with (S (length (0%Z :: rest) + 1)) by lia.
      rewrite narrowRecords_unfold.
      change (ch_tilde =? 0) with false. change (0 <? 0) with false.
      reflexivity.
  - inversion Hr as [|? ? Hb Hr']; subst. unfold positive in Hb.
    destruct (@narrowRecord_total o (length (b :: r) + 1) (ch_tilde =? b)
                b r []) as (c1 & s1 & e & E & _); [cbn [length]; lia|].
    cbn [app] in E.
    exists e. split.
    + cbn [getc].
      replace (length (b :: r) + 2)%nat
        with (S (length (b :: r) + 1)) by lia.
      rewrite narrowRecords_unfold.
      replace (0 <? b) with true by (symmetry; apply Z.ltb_lt; lia).
      rewrite orb_true_r, E.
      destruct (@narrowRecord_local o [] _ _ _ _ _ _ _ _ Hr' E)
        as ((-> & ->) & _).
      unfold narrowResume, narrowBetween.
      change (0 =? EOF) with false. rewrite !terminator_eq. reflexivity.
    + intros rest. cbn [app getc].
      replace (length (b :: r ++ 0%Z :: rest) + 2)%nat
        with (S (length (b :: r ++ 0%Z :: rest) + 1)) by lia.
      rewrite narrowRecords_unfold.
      replace (0 <? b) with true by (symmetry; apply Z.ltb_lt; lia).
      rewrite orb_true_r.
      assert (E' := @narrowRecord_mono o _ (length (b :: r ++ 0 :: rest) + 1)
                      _ _ _ _ _ E ltac:(cbn [length]; rewrite length_app; lia)).
      destruct (@narrowRecord_local o rest _ _ _ _ _ _ _ _ Hr' E')
        as (_ & ->).
      reflexivity.
Qed.
Lemma sendArguments_none args : forall sent,
  sendArguments None sent args
  = (sent ++ flat_map (fun a => a ++ [0]) args, true).
Proof.
  induction args as [|a args IH]; intros sent; cbn [sendArguments flat_map].
  - rewrite app_nil_r; reflexivity.
  - cbn [putcOk]. rewrite IH, <- !app_assoc. reflexivity.
Qed.


Lemma main_arguments p ks o a args input :
  parseOptions defaults ks = inl o ->
  forkOk p = true -> pipeRoom p = None ->
  main p ks (a :: args) input
  = engine p (withoutIgnoreNull o)
           (flat_map (fun x => x ++ [0]) (a :: args)).
Proof.
  intros E Hf Hp. unfold main. rewrite E, Hf, Hp. cbn [negb].
  assert (Hsend : (match args with
                   | [] => sendArgument None a
                   | _ :: _ => sendArguments None [] (a :: args)
                   end)
                  = (flat_map (fun x => x ++ [0]) (a :: args), true)).
  { destruct args as [|a2 args].
    - unfold sendArgument. cbn [flat_map fflushOk]. rewrite app_nil_r.
      reflexivity.
    - rewrite sendArguments_none. reflexivity. }
  rewrite Hsend. cbn [written].
  destruct (engine p (withoutIgnoreNull o) _) as [[s|out s]|]; reflexivity.
Qed.




(** Three records on stdin, with a space and then with nulls. *)
Example three_records_space :
  narrowLoop defaults None [97; 0; 98; 0; 99] = Some [97; 32; 98; 32; 99].
Proof. reflexivity. Qed.

Example three_records_null :
  main posixPlatform [OptZ] [] [97; 0; 98; 0; 99; 0]
  = Some (Ran [97; 0; 98; 0; 99; 0] 0).
Proof. reflexivity. Qed.

Example three_arguments_null :
  main posixPlatform [OptZ] [[97]; [98]; [99]] []
  = Some (Ran [97; 0; 98; 0; 99; 0] 0).
Proof. reflexivity. Qed.
(** ** Failed writes *)
















(** The parent with two arguments and a pipe that takes three bytes: the
    second null is lost when the stream is closed, and the status is that
    of the child. *)
Example pipe_failure :
  main {| setlocaleOk := true; charmap := CsAscii; p_iswprint := isprint;
          p_iswspace := fun _ => false; mbDecode := fun l => (l, false);
          wcEncode := fun c => [c]; forkOk := true; pipeRoom := Some 3%nat;
          stdoutRoom := None |} [] [[97]; [98]] []
  = Some (Ran [97; 32; 98] 0).
Proof. reflexivity. Qed.
(** ** A sequence with a wrong byte in the middle *)

(** C1 does not hold of the program: [getUtf8CodePoint] tests only the last
    byte of a sequence of three or four bytes, so 0xE1 0x20 0x80, whose
    second byte is a space and no continuation byte, is taken for the
    code point U+1800.  With \u escapes enabled the three bytes are then
    written as they are, the space unquoted, when the platform finds
    U+1800 printable, and as the escape \u1800 otherwise: a shell reads back two
    words in the first case and the bytes 0xE1 0xA0 0x80 in the second,
    never the record. *)
Theorem middle_byte_unchecked (iswprint iswspace : Z -> bool) :
  view (getUtf8CodePoint (utf8_init [0xE1; 0x20; 0x80]))
  = (0x1800, 3%nat, [0xE1; 0x20; 0x80], [])
  /\ parseOptions defaults [OptU] = inl unicodeEscapes
  /\ utf8Loop iswprint iswspace unicodeEscapes None [0xE1; 0x20; 0x80]
     = Some (if iswprint 0x1800 then [0xE1; 0x20; 0x80]
             else [36; 39; 92; 117; 49; 56; 48; 48; 39]).
Proof.
  split; [reflexivity|split; [reflexivity|]].
  unfold utf8Loop.
  change (getUtf8CodePoint (utf8_init [0xE1; 0x20; 0x80]))
    with (0x1800,
          {| stdin := []; getUtf8Buff := [0xE1; 0x20; 0x80; 0];
             getUtf8BuffLength := 0; cbuff := [0xE1; 0x20; 0x80; 0];
             bytesInCodePoint := 3 |}).
  cbn [length Nat.add utf8Records utf8Record orb].
  change (ch_tilde =? 0x1800) with false.
  change (0 <? 0x1800) with true. cbn [orb].
  unfold utf8Printable, callIswprintFn.
  cbn [bytesInCodePoint Nat.eqb negb andb iswprintFn unicodeEscapes].
  destruct (iswprint 0x1800); reflexivity.
Qed.

(** * Further properties *)

(** ** The option parser *)

Lemma options_eq (a b : options) :
  ansiEscapesLimit a = ansiEscapesLimit b ->
  iswprintFn a = iswprintFn b ->
  disableCQuoting a = disableCQuoting b ->
  useUnicodeEscapes a = useUnicodeEscapes b ->
  flushArguments a = flushArguments b ->
  ignoreNullInput a = ignoreNullInput b ->
  nullTerminatedOutput a = nullTerminatedOutput b -> a = b.
Proof. destruct a, b; cbn; intros; subst; reflexivity. Qed.

(** The settings that the loop over the options reaches from [o0]. *)
Lemma parseOptions_fields ks : forall o0 o,
  parseOptions o0 ks = inl o ->
  forallb (fun k => negb (endsParsing k)) ks = true
  /\ ansiEscapesLimit o
     = (if hasOpt OptU ks then sizeof_ansiEscapes else ansiEscapesLimit o0)
  /\ iswprintFn o
     = (if hasOpt OptE ks then FnIswNotBlank
        else if printFn_eqb FnIswNotBlank (iswprintFn o0) then FnIswNotBlank
             else if hasOpt OptI ks then FnIswprintExt else iswprintFn o0)
  /\ disableCQuoting o = (hasOpt OptM ks || disableCQuoting o0)
  /\ useUnicodeEscapes o = (hasOpt OptU ks || useUnicodeEscapes o0)
  /\ flushArguments o = (hasOpt OptF ks || flushArguments o0)
  /\ ignoreNullInput o = (hasOpt OptN ks || ignoreNullInput o0)
  /\ nullTerminatedOutput o
     = (hasOpt OptZ ks || hasOpt OptF ks || nullTerminatedOutput o0).
Proof.
  induction ks as [|k ks IH]; cbn [parseOptions]; intros o0 o E.
  - injection E as <-. cbn. destruct (iswprintFn o0); repeat split; reflexivity.
  - destruct (setOption o0 k) as [o1|] eqn:E1; [|discriminate].
    destruct (IH o1 o E) as (H0 & H1 & H2 & H3 & H4 & H5 & H6 & H7).
    rewrite H1, H2, H3, H4, H5, H6, H7. clear H1 H2 H3 H4 H5 H6 H7.
    destruct k; cbn [setOption] in E1; try discriminate;
      injection E1 as <-;
      unfold hasOpt; cbn [forallb existsb optchar_eqb endsParsing negb andb orb
                          ansiEscapesLimit iswprintFn disableCQuoting
                          useUnicodeEscapes flushArguments ignoreNullInput
                          nullTerminatedOutput];
      (split; [exact H0|]);
      repeat match goal with
             | |- context [existsb ?f ks] => destruct (existsb f ks)
             end;
      destruct (iswprintFn o0); cbn; rewrite ?orb_true_r;
      repeat split; reflexivity.
Qed.

Lemma parseOptions_runs ks : forall o0,
  forallb (fun k => negb (endsParsing k)) ks = true ->
  exists o, parseOptions o0 ks = inl o.
Proof.
  induction ks as [|k ks IH]; cbn [parseOptions forallb]; intros o0 H;
    [eauto|].
  apply andb_prop in H. destruct H as [Hk Hks].
  destruct k; cbn in Hk; try discriminate; cbn [setOption]; apply IH; exact Hks.
Qed.

Lemma parseOptions_closed ks o :
  parseOptions defaults ks = inl o -> o = optionsOf ks.
Proof.
  intros E. destruct (parseOptions_fields _ _ E)
    as (_ & H1 & H2 & H3 & H4 & H5 & H6 & H7).
  apply options_eq; unfold optionsOf;
    cbn [ansiEscapesLimit iswprintFn disableCQuoting useUnicodeEscapes
         flushArguments ignoreNullInput nullTerminatedOutput];
    rewrite ?H1, ?H2, ?H3, ?H4, ?H5, ?H6, ?H7; cbn; rewrite ?orb_false_r;
    reflexivity.
Qed.

(** X1: the settings that the option loop leaves depend only on which
    options are given: they are [optionsOf] of the options, and giving the
    same options in another order, or more than once, changes nothing. *)
Theorem options_order_irrelevant (ks ks' : list optchar) (o : options)
        (Hparse : parseOptions defaults ks = inl o)
        (Hsame : forall k, In k ks <-> In k ks') :
  o = optionsOf ks /\ parseOptions defaults ks' = inl o.
Proof.
  assert (Ho := parseOptions_closed _ Hparse).
  split; [exact Ho|].
  destruct (parseOptions_fields _ _ Hparse) as (Hrun & _).
  assert (Hrun' : forallb (fun k => negb (endsParsing k)) ks' = true).
  { rewrite forallb_forall in *. intros k Hk. apply Hrun, Hsame, Hk. }
  destruct (parseOptions_runs ks' defaults Hrun') as (o' & E').
  rewrite E'. f_equal. rewrite (parseOptions_closed _ E'), Ho.
  assert (Hhas : forall k, hasOpt k ks' = hasOpt k ks).
  { intros k. unfold hasOpt.
    destruct (existsb (optchar_eqb k) ks) eqn:E1,
             (existsb (optchar_eqb k) ks') eqn:E2; try reflexivity.
    - apply existsb_exists in E1. destruct E1 as (x & Hin & Hx).
      assert (E : existsb (optchar_eqb k) ks' = true)
        by (apply existsb_exists; exists x; split;
            [apply Hsame, Hin|exact Hx]).
      congruence.
    - apply existsb_exists in E2. destruct E2 as (x & Hin & Hx).
      assert (E : existsb (optchar_eqb k) ks = true)
        by (apply existsb_exists; exists x; split;
            [apply Hsame, Hin|exact Hx]).
      congruence. }
  unfold optionsOf. rewrite !Hhas. reflexivity.
Qed.

Lemma options_order_irrelevant_witness :
  parseOptions defaults [OptZ; OptU; OptI; OptE; OptU]
  = inl (optionsOf [OptE; OptI; OptU; OptZ])
  /\ parseOptions defaults [OptE; OptI; OptU; OptZ]
     = inl (optionsOf [OptE; OptI; OptU; OptZ]).
Proof.
  destruct (@options_order_irrelevant [OptE; OptI; OptU; OptZ]
              [OptZ; OptU; OptI; OptE; OptU]
              (optionsOf [OptE; OptI; OptU; OptZ]) eq_refl) as [H1 H2].
  - intros k; cbn [In]; intuition.
  - split; [exact H2|reflexivity].
Defined.

Lemma parseOptions_app pre : forall o0 k post,
  forallb (fun k => negb (endsParsing k)) pre = true ->
  exists o1, parseOptions o0 pre = inl o1
             /\ parseOptions o0 (pre ++ k :: post)
                = match setOption o1 k with
                  | inl o2 => parseOptions o2 post
                  | inr status => inr status
                  end.
Proof.
  induction pre as [|a pre IH]; cbn [parseOptions forallb app];
    intros o0 k post H; [eauto|].
  apply andb_prop in H. destruct H as [Ha Hpre].
  destruct a; cbn in Ha; try discriminate; cbn [setOption]; apply IH;
    exact Hpre.
Qed.

(** X2: the first option that is invalid, or asks for the help or the
    version, ends the run at once, whatever options follow it and whatever
    the arguments and the input are: an invalid option with the usage error
    status, the other two with status 0; no record is processed. *)
Theorem informational_options_end_the_run
        (p : platform) (pre post : list optchar) (args : list (list Z))
        (input : list Z)
        (Hpre : forallb (fun k => negb (endsParsing k)) pre = true) :
  main p (pre ++ OptInvalid :: post) args input
  = Some (Informational EX_USAGE)
  /\ main p (pre ++ OptHelp :: post) args input = Some (Informational 0)
  /\ main p (pre ++ OptVersion :: post) args input = Some (Informational 0).
Proof.
  unfold main.
  destruct (@parseOptions_app pre defaults OptInvalid post Hpre) as (o1 & _ & ->).
  destruct (@parseOptions_app pre defaults OptHelp post Hpre) as (o2 & _ & ->).
  destruct (@parseOptions_app pre defaults OptVersion post Hpre) as (o3 & _ & ->).
  cbn [setOption]. repeat split; reflexivity.
Qed.

Lemma informational_options_end_the_run_witness :
  main posixPlatform ([OptZ; OptE] ++ OptInvalid :: [OptHelp]) [[97]] [98]
  = Some (Informational EX_USAGE)
  /\ main posixPlatform ([OptZ; OptE] ++ OptHelp :: [OptHelp]) [[97]] [98]
     = Some (Informational 0)
  /\ main posixPlatform ([OptZ; OptE] ++ OptVersion :: [OptHelp]) [[97]] [98]
     = Some (Informational 0).
Proof.
  apply (@informational_options_end_the_run posixPlatform [OptZ; OptE]).
  reflexivity.
Defined.

(** ** The classifiers *)

Ltac decide_tests c :=
  repeat match goal with
  | |- context [?k =? c] =>
      replace (k =? c) with false by (symmetry; apply Z.eqb_neq; lia)
  | |- context [c <? ?k] =>
      replace (c <? k) with true by (symmetry; apply Z.ltb_lt; lia)
  end.

(** X3: the three classifications are nested: what [iswNotBlank] accepts,
    [iswprintExt] accepts, and what [iswprintExt] accepts, [iswprint]
    accepts, so a stricter option never leaves unescaped what a weaker one
    escapes; below 0xA0 (ASCII and the C1 controls) the three agree; and
    the no-break space and the soft hyphen are never accepted by
    [iswNotBlank], whatever the C library says of them. *)
Theorem classifiers_nested (iswprint iswspace : Z -> bool) (c : Z) :
  (iswNotBlank iswprint iswspace c = true -> iswprintExt iswprint c = true)
  /\ (iswprintExt iswprint c = true -> iswprint c = true)
  /\ (c < 0xA0 ->
      iswprintExt iswprint c = iswprint c
      /\ iswNotBlank iswprint iswspace c = iswprint c)
  /\ iswNotBlank iswprint iswspace 0xA0 = false
  /\ iswNotBlank iswprint iswspace 0xAD = false
  /\ iswprintExt iswprint 0xAD = false.
Proof.
  split; [|split; [|split; [|split; [|split]]]].
  - unfold iswNotBlank. intros H. apply andb_prop in H. tauto.
  - unfold iswprintExt. intros H.
    repeat (apply andb_prop in H; destruct H as [H _]). exact H.
  - intros Hc.
    assert (E : iswprintExt iswprint c = iswprint c).
    { unfold iswprintExt. decide_tests c. cbn [negb orb].
      rewrite !andb_true_r. reflexivity. }
    split; [exact E|].
    unfold iswNotBlank. rewrite E. decide_tests c. cbn [negb].
    apply andb_true_r.
  - unfold iswNotBlank. change (0xA0 <? 0x100) with true.
    change (0xA0 =? 0xA0) with true. apply andb_false_r.
  - unfold iswNotBlank, iswprintExt. change (0xAD =? 0xAD) with true.
    cbn [negb]. rewrite andb_false_r. reflexivity.
  - unfold iswprintExt. change (0xAD =? 0xAD) with true.
    cbn [negb]. rewrite andb_false_r. reflexivity.
Qed.

(** ** The named escapes *)

Lemma hasOpt_In k ks : hasOpt k ks = true <-> In k ks.
Proof.
  unfold hasOpt. rewrite existsb_exists. split.
  - intros (x & Hx & E). destruct k, x; try discriminate; exact Hx.
  - intros H. exists k. split; [exact H|]. destruct k; reflexivity.
Qed.

Lemma hasAnsiEscape_closed limit c :
  limit = 14 \/ limit = 28 ->
  hasAnsiEscape limit c
  = ((7 <=? c) && (c <=? 13)) || ((c =? 27) && (limit =? 28)).
Proof.
  intros Hl. destruct (Z_lt_le_dec c 0) as [Hneg|Hpos].
  - unfold hasAnsiEscape. replace (Z.to_nat c) with 0%nat by lia.
    cbn [nth ansiEscapes Z.eqb negb]. rewrite andb_false_r.
    replace (7 <=? c) with false by (symmetry; apply Z.leb_gt; lia).
    replace (c =? 27) with false by (symmetry; apply Z.eqb_neq; lia).
    reflexivity.
  - destruct (Z_lt_le_dec c 28) as [Hlt|Hge].
    + apply eqb_prop. destruct Hl as [-> | ->].
      * apply (@byte_range 0 27
                 (fun x => Bool.eqb (hasAnsiEscape 14 x)
                             (((7 <=? x) && (x <=? 13))
                              || ((x =? 27) && (14 =? 28)))));
          [vm_compute; reflexivity|lia|lia|lia].
      * apply (@byte_range 0 27
                 (fun x => Bool.eqb (hasAnsiEscape 28 x)
                             (((7 <=? x) && (x <=? 13))
                              || ((x =? 27) && (28 =? 28)))));
          [vm_compute; reflexivity|lia|lia|lia].
    + unfold hasAnsiEscape.
      rewrite nth_overflow by (cbn [length ansiEscapes]; lia).
      cbn [Z.eqb negb]. rewrite andb_false_r.
      replace (c <=? 13) with false by (symmetry; apply Z.leb_gt; lia).
      replace (c =? 27) with false by (symmetry; apply Z.eqb_neq; lia).
      rewrite andb_false_r. reflexivity.
Qed.

Lemma ansiEscape_letter c :
  7 <= c <= 13 \/ c = 27 -> ansiEscape c = cEscapeLetter c.
Proof.
  intros H.
  assert (E : implb ((c <=? 13) || (c =? 27))
                    (ansiEscape c =? cEscapeLetter c) = true).
  { apply (@byte_range 7 27
             (fun x => implb ((x <=? 13) || (x =? 27))
                             (ansiEscape x =? cEscapeLetter x)));
      [vm_compute; reflexivity|lia|lia|lia]. }
  replace ((c <=? 13) || (c =? 27)) with true in E.
  - apply Z.eqb_eq. exact E.
  - symmetry. apply orb_true_iff. destruct H as [H| ->].
    + left. apply Z.leb_le. lia.
    + right. reflexivity.
Qed.

(** X4: after any options, the characters written as a named escape inside
    [$'...'] are exactly the controls 7 to 13 and, only when
    unicode-escapes is among the options, the escape character 27; each of
    them, when it is not printable, is written in each of the three loops
    as a backslash and its letter ([\a \b \t \n \v \f \r], and [\E]), with
    no look at the input that follows. *)
Theorem named_escapes (ks : list optchar) (o : options) (c : Z)
        (Hparse : parseOptions defaults ks = inl o) :
  (hasAnsiEscape (ansiEscapesLimit o) c = true
   <-> 7 <= c <= 13 \/ (c = 27 /\ In OptU ks))
  /\ (hasAnsiEscape (ansiEscapesLimit o) c = true ->
      forall s st ws out,
        narrowEmit o c false s out
        = out ++ [ch_backslash; cEscapeLetter c]
        /\ utf8Emit o c false st out
           = (st, out ++ [ch_backslash; cEscapeLetter c], false)
        /\ wideEmit o c false ws out
           = (ws, out ++ [ch_backslash; cEscapeLetter c], false)).
Proof.
  assert (Hiff : hasAnsiEscape (ansiEscapesLimit o) c = true
                 <-> 7 <= c <= 13 \/ (c = 27 /\ In OptU ks)).
  { rewrite (parseOptions_closed _ Hparse). cbn [optionsOf ansiEscapesLimit].
    rewrite <- hasOpt_In. destruct (hasOpt OptU ks).
    - rewrite hasAnsiEscape_closed by (right; reflexivity).
      change (sizeof_ansiEscapes =? 28) with true.
      rewrite orb_true_iff, !andb_true_iff, Z.eqb_eq, !Z.leb_le. tauto.
    - rewrite hasAnsiEscape_closed by (left; reflexivity).
      change (14 =? 28) with false.
      rewrite orb_true_iff, !andb_true_iff, !Z.leb_le.
      split; [intros [H|[_ H]]; [left; lia|discriminate]
             |intros [H|[_ H]]; [left; lia|discriminate]]. }
  split; [exact Hiff|].
  intros Hn s st ws out.
  assert (Hc : 7 <= c <= 13 \/ c = 27) by tauto.
  assert (Hlt : (c <? 128) = true) by (apply Z.ltb_lt; lia).
  unfold narrowEmit, utf8Emit, wideEmit.
  rewrite Hn, Hlt. cbn [orb]. unfold fmt_c.
  rewrite (ansiEscape_letter Hc). repeat split.
Qed.

Lemma named_escapes_witness :
  hasAnsiEscape (ansiEscapesLimit (optionsOf [OptU])) 27 = true
  /\ forall s out,
       narrowEmit (optionsOf [OptU]) 27 false s out = out ++ [92; 69].
Proof.
  destruct (@named_escapes [OptU] (optionsOf [OptU]) 27 eq_refl) as [H1 H2].
  split; [reflexivity|].
  intros s out.
  exact (proj1 (H2 eq_refl s (utf8_init [])
                   {| wchars := []; undecodable := false;
                      errnoIsEILSEQ := false |} out)).
Defined.

(** ** What the loops take from the settings *)

Lemma hasOpt_ext k ks ks' :
  (In k ks <-> In k ks') -> hasOpt k ks = hasOpt k ks'.
Proof.
  intros H. apply eq_true_iff_eq. rewrite !hasOpt_In. exact H.
Qed.

Lemma runs_ext ks ks' :
  (forall k, endsParsing k = true -> In k ks' -> In k ks) ->
  forallb (fun k => negb (endsParsing k)) ks = true ->
  forallb (fun k => negb (endsParsing k)) ks' = true.
Proof.
  intros H Hrun. rewrite forallb_forall in *. intros k Hk.
  destruct (endsParsing k) eqn:E; [|reflexivity].
  assert (Hf := Hrun k (H k E Hk)). rewrite E in Hf. discriminate.
Qed.

Lemma getc_Forall (E : Z -> Prop) s :
  Forall E s ->
  Forall E (snd (getc s)) /\ (0 < fst (getc s) -> E (fst (getc s))).
Proof.
  intros H. destruct (getc_cases s) as [[-> ->]|(b & s' & -> & ->)]; cbn.
  - split; [constructor|unfold EOF; lia].
  - inversion H; subst. tauto.
Qed.

Lemma narrowRaw_suffix s : forall c out,
  exists pre, s = pre ++ snd (fst (narrowRaw s c out)).
Proof.
  induction s as [|b s IH]; intros c out; cbn [narrowRaw].
  - exists []. reflexivity.
  - destruct ((0 <? b) && negb (ch_quote =? b)).
    + destruct (IH b (out ++ [to_uchar c])) as (pre & E).
      exists (b :: pre). cbn [app]. f_equal. exact E.
    + exists [b]. reflexivity.
Qed.

Lemma narrowQuoted_suffix o s : forall c isP out,
  exists pre, s = pre ++ snd (fst (narrowQuoted o s c isP out)).
Proof.
  induction s as [|b s IH]; intros c isP out; cbn [narrowQuoted].
  - exists []. reflexivity.
  - destruct (0 <? b).
    + destruct (IH b (isprint b) (narrowEmit o c isP (b :: s) out))
        as (pre & E).
      exists (b :: pre). cbn [app]. f_equal. exact E.
    + exists [b]. reflexivity.
Qed.

Lemma narrowRecord_suffix o fuel : forall jump c s out c' s' out',
  narrowRecord o fuel jump c s out = Some (c', s', out') ->
  exists pre, s = pre ++ s'.
Proof.
  induction fuel as [|fuel IH]; intros jump c s out c' s' out';
    [discriminate|].
  assert (Hnext : forall s0 out0,
             (let (c1, s1) := getc s0 in
              if 0 <? c1 then narrowRecord o fuel false c1 s1 out0
              else Some (c1, s1, out0)) = Some (c', s', out') ->
             exists pre, s0 = pre ++ s').
  { intros s0 out0.
    destruct (getc_cases s0) as [[-> ->]|(b & s1 & -> & ->)].
    - cbn. intros H. inversion H; subst. exists []. reflexivity.
    - destruct (0 <? b).
      + intros H. apply IH in H. destruct H as (pre & ->).
        exists (b :: pre). reflexivity.
      + intros H. inversion H; subst. exists [c']. reflexivity. }
  cbn [narrowRecord].
  destruct (jump || isShControl c
            || negb (if jump then true else disableCQuoting o || isprint c)).
  - destruct (ch_quote =? c); [apply Hnext|].
    destruct (if disableCQuoting o then narrowRaw s c (out ++ [ch_quote])
              else narrowQuoted o s c
                     (if jump then true else disableCQuoting o || isprint c)
                     (out ++ s_dollar_quote))
      as [[c1 s1] out1] eqn:Eq.
    assert (Hs : exists pre, s = pre ++ s1).
    { destruct (disableCQuoting o).
      - destruct (narrowRaw_suffix s c (out ++ [ch_quote])) as (pre & E).
        rewrite Eq in E. eauto.
      - destruct (narrowQuoted_suffix o s c
                    (if jump then true else false || isprint c)
                    (out ++ s_dollar_quote)) as (pre & E).
        rewrite Eq in E. eauto. }
    destruct Hs as (pre & ->).
    destruct (ch_quote =? c1).
    + intros H. apply Hnext in H. destruct H as (pre' & ->).
      exists (pre ++ pre'). apply app_assoc.
    + destruct (c1 <=? 0).
      * intros H. inversion H; subst. eauto.
      * intros H. apply Hnext in H. destruct H as (pre' & ->).
        exists (pre ++ pre'). apply app_assoc.
  - apply Hnext.
Qed.

Section NarrowSettings.
(** Two settings that differ at most in what the byte oriented loop does
    not consult on the bytes that satisfy [E]. *)
Variables o o' : options.
Variable E : Z -> Prop.
Hypothesis Hminimal : disableCQuoting o = disableCQuoting o'.
Hypothesis Hflush : flushArguments o = flushArguments o'.
Hypothesis Hignore : ignoreNullInput o = ignoreNullInput o'.
Hypothesis Hnull : nullTerminatedOutput o = nullTerminatedOutput o'.
Hypothesis Hnamed :
  disableCQuoting o = false ->
  forall c, E c ->
    hasAnsiEscape (ansiEscapesLimit o) c
    = hasAnsiEscape (ansiEscapesLimit o') c.

Lemma separator_same room out : separator o room out = separator o' room out.
Proof. unfold separator. rewrite Hflush, Hignore, Hnull. reflexivity. Qed.

Lemma terminator_same b out : terminator o b out = terminator o' b out.
Proof. unfold terminator. rewrite Hignore, Hnull. reflexivity. Qed.

Lemma narrowQuoted_same s : forall c isP out,
  disableCQuoting o = false -> E c -> Forall E s ->
  narrowQuoted o s c isP out = narrowQuoted o' s c isP out.
Proof.
  induction s as [|b s IH]; intros c isP out Hm Hc Hs; cbn [narrowQuoted];
    unfold narrowEmit; rewrite (Hnamed Hm Hc); [reflexivity|].
  inversion Hs; subst.
  destruct (0 <? b); [|reflexivity]. apply IH; assumption.
Qed.

Lemma narrowRecord_same fuel : forall jump c s out,
  E c -> Forall E s ->
  narrowRecord o fuel jump c s out = narrowRecord o' fuel jump c s out.
Proof.
  induction fuel as [|fuel IH]; intros jump c s out Hc Hs; [reflexivity|].
  assert (Hnext : forall s0 out0, Forall E s0 ->
             (let (c1, s1) := getc s0 in
              if 0 <? c1 then narrowRecord o fuel false c1 s1 out0
              else Some (c1, s1, out0))
             = (let (c1, s1) := getc s0 in
                if 0 <? c1 then narrowRecord o' fuel false c1 s1 out0
                else Some (c1, s1, out0))).
  { intros s0 out0 H0. destruct (getc_Forall H0) as [H1 H2].
    destruct (getc s0) as [c1 s1]. cbn [fst snd] in *.
    destruct (0 <? c1) eqn:Ec; [|reflexivity].
    apply IH; [apply H2, Z.ltb_lt, Ec|exact H1]. }
  cbn [narrowRecord]. rewrite <- Hminimal.
  destruct (jump || isShControl c
            || negb (if jump then true else disableCQuoting o || isprint c)).
  - destruct (ch_quote =? c); [apply Hnext, Hs|].
    assert (Eq : (if disableCQuoting o
                  then narrowRaw s c (out ++ [ch_quote])
                  else narrowQuoted o s c
                         (if jump then true
                          else disableCQuoting o || isprint c)
                         (out ++ s_dollar_quote))
                 = (if disableCQuoting o
                    then narrowRaw s c (out ++ [ch_quote])
                    else narrowQuoted o' s c
                           (if jump then true
                            else disableCQuoting o || isprint c)
                           (out ++ s_dollar_quote))).
    { case_eq (disableCQuoting o); intros Em; [reflexivity|].
      apply narrowQuoted_same; auto. }
    rewrite <- Eq.
    destruct (if disableCQuoting o then narrowRaw s c (out ++ [ch_quote])
              else narrowQuoted o s c
                     (if jump then true else disableCQuoting o || isprint c)
                     (out ++ s_dollar_quote))
      as [[c1 s1] out1] eqn:Eq1.
    assert (Hs1 : Forall E s1).
    { assert (Hp : exists pre, s = pre ++ s1).
      { revert Eq1. case (disableCQuoting o); intros Eq1.
        - destruct (narrowRaw_suffix s c (out ++ [ch_quote])) as (pre & Ep).
          rewrite Eq1 in Ep. eauto.
        - destruct (narrowQuoted_suffix o s c
                      (if jump then true else false || isprint c)
                      (out ++ s_dollar_quote)) as (pre & Ep).
          rewrite Eq1 in Ep. eauto. }
      destruct Hp as (pre & ->). apply Forall_app in Hs. tauto. }
    destruct (ch_quote =? c1); [apply Hnext, Hs1|].
    destruct (c1 <=? 0); [reflexivity|apply Hnext, Hs1].
  - apply Hnext, Hs.
Qed.

Lemma narrowRecords_same room fuel : forall jump c s out,
  (0 < c -> E c) -> (jump = true -> E c) -> Forall E s ->
  narrowRecords o room fuel jump c s out
  = narrowRecords o' room fuel jump c s out.
Proof.
  induction fuel as [|fuel IH]; intros jump c s out Hc Hj Hs; [reflexivity|].
  cbn [narrowRecords].
  assert (Eq : (if jump || (0 <? c) then narrowRecord o fuel jump c s out
                else Some (c, s, out ++ s_quote_quote))
               = (if jump || (0 <? c) then narrowRecord o' fuel jump c s out
                  else Some (c, s, out ++ s_quote_quote))).
  { destruct (jump || (0 <? c)) eqn:Ej; [|reflexivity].
    apply narrowRecord_same; [|exact Hs].
    apply orb_true_iff in Ej. destruct Ej as [Ej|Ej];
      [apply Hj, Ej|apply Hc, Z.ltb_lt, Ej]. }
  rewrite <- Eq.
  destruct (if jump || (0 <? c) then narrowRecord o fuel jump c s out
            else Some (c, s, out ++ s_quote_quote))
    as [[[c1 s1] out1]|] eqn:E1; [|reflexivity].
  assert (Hs1 : Forall E s1).
  { destruct (jump || (0 <? c)).
    - apply narrowRecord_suffix in E1. destruct E1 as (pre & ->).
      apply Forall_app in Hs. tauto.
    - inversion E1; subst. exact Hs. }
  unfold narrowBetween. rewrite separator_same, !terminator_same.
  destruct (0 =? c1); [|reflexivity].
  destruct (getc_Forall Hs1) as [H1 H2].
  destruct (getc_cases s1) as [[-> Eg]|(b & s2 & -> & Eg)]; rewrite Eg in *;
    cbn [fst snd] in *; [reflexivity|].
  destruct (negb (EOF =? b)); [|reflexivity].
  destruct (separator o' room out1) as [lc out2].
  assert (Hb : (ch_tilde =? b) = true -> E b).
  { intros Hb. apply Z.eqb_eq in Hb. apply H2. unfold ch_tilde in Hb. lia. }
  destruct ((ch_tilde =? b) && lc) eqn:Et.
  - apply andb_prop in Et. apply IH; [intros _|intros _|exact H1]; tauto.
  - destruct lc; [|reflexivity].
    apply IH; [exact H2|discriminate|exact H1].
Qed.

Lemma narrowLoop_same room input :
  Forall E input -> narrowLoop o room input = narrowLoop o' room input.
Proof.
  intros Hin. unfold narrowLoop.
  destruct (getc_Forall Hin) as [H1 H2].
  destruct (getc input) as [c s] eqn:Eg. cbn [fst snd] in *.
  apply narrowRecords_same; [exact H2| |exact H1].
  intros Hj. apply Z.eqb_eq in Hj. apply H2. unfold ch_tilde in Hj. lia.
Qed.
End NarrowSettings.

Section WideMinimal.
(** Two settings with ANSI-C quoting disabled that agree on the
    separators. *)
Variables iswprint iswspace : Z -> bool.
Variables o o' : options.
Hypothesis Hminimal : disableCQuoting o = true.
Hypothesis Hminimal' : disableCQuoting o' = true.
Hypothesis Hflush : flushArguments o = flushArguments o'.
Hypothesis Hignore : ignoreNullInput o = ignoreNullInput o'.
Hypothesis Hnull : nullTerminatedOutput o = nullTerminatedOutput o'.

Lemma wideRecord_minimal fuel : forall jump c ws out,
  wideRecord iswprint iswspace o fuel jump c ws out
  = wideRecord iswprint iswspace o' fuel jump c ws out.
Proof.
  induction fuel as [|fuel IH]; intros jump c ws out; [reflexivity|].
  cbn [wideRecord]. rewrite Hminimal, Hminimal'. cbn [orb].
  assert (Hnext : forall ws0 out0,
             (let (c1, ws1) := getwc ws0 in
              if wideChar c1
              then wideRecord iswprint iswspace o fuel false c1 ws1 out0
              else Some (c1, ws1, out0))
             = (let (c1, ws1) := getwc ws0 in
                if wideChar c1
                then wideRecord iswprint iswspace o' fuel false c1 ws1 out0
                else Some (c1, ws1, out0))).
  { intros ws0 out0. destruct (getwc ws0) as [c1 ws1].
    destruct (wideChar c1); [apply IH|reflexivity]. }
  destruct (jump || wideRecord_isShControl c
            || negb (if jump then true else true)); [|apply Hnext].
  destruct (ch_quote =? c); [apply Hnext|].
  destruct (wideRaw fuel c ws (out ++ [ch_quote])) as [[[c1 ws1] out1]|];
    [|reflexivity].
  destruct (ch_quote =? c1); [apply Hnext|].
  destruct (negb (wideChar c1)); [reflexivity|apply Hnext].
Qed.

Lemma wideRecords_minimal room fuel : forall jump c ws out,
  wideRecords iswprint iswspace o room fuel jump c ws out
  = wideRecords iswprint iswspace o' room fuel jump c ws out.
Proof.
  induction fuel as [|fuel IH]; intros jump c ws out; [reflexivity|].
  cbn [wideRecords]. rewrite wideRecord_minimal.
  destruct (if jump || wideChar c
            then wideRecord iswprint iswspace o' fuel jump c ws out
            else Some (c, ws, out ++ s_quote_quote))
    as [[[c1 ws1] out1]|]; [|reflexivity].
  unfold wideBetween.
  rewrite (@separator_same o o' Hflush Hignore Hnull),
          !(@terminator_same o o' Hignore Hnull).
  destruct (0 =? c1); [|reflexivity].
  destruct (getwc ws1) as [c2 ws2].
  destruct (negb (WEOF =? c2)); [|reflexivity].
  destruct (separator o' room out1) as [lc out2].
  destruct ((ch_tilde =? c2) && lc); [apply IH|].
  destruct lc; [apply IH|reflexivity].
Qed.

Lemma wideLoop_minimal room input :
  wideLoop iswprint iswspace o room input
  = wideLoop iswprint iswspace o' room input.
Proof.
  unfold wideLoop. destruct (getwc input) as [c ws].
  rewrite wideRecords_minimal. reflexivity.
Qed.
End WideMinimal.

Lemma engine_minimal p o o' input :
  disableCQuoting o = true -> disableCQuoting o' = true ->
  flushArguments o = flushArguments o' ->
  ignoreNullInput o = ignoreNullInput o' ->
  nullTerminatedOutput o = nullTerminatedOutput o' ->
  engine p o input = engine p o' input.
Proof.
  intros Hm Hm' Hf Hi Hn. unfold engine, useNarrow. rewrite Hm, Hm'.
  assert (En : narrowLoop o (stdoutRoom p) input
               = narrowLoop o' (stdoutRoom p) input).
  { apply (@narrowLoop_same o o' (fun _ => True)); auto.
    - congruence.
    - congruence.
    - apply Forall_forall. auto. }
  rewrite En. destruct (mbDecode p input) as [ws bad].
  rewrite (@wideLoop_minimal (p_iswprint p) (p_iswspace p)
             o o' Hm Hm' Hf Hi Hn).
  destruct (setlocaleOk p), (charmap p); reflexivity.
Qed.

Lemma optionsOf_runs ks o :
  parseOptions defaults ks = inl o ->
  forallb (fun k => negb (endsParsing k)) ks = true.
Proof. intros H. exact (proj1 (parseOptions_fields _ _ H)). Qed.

Lemma parseOptions_optionsOf ks :
  forallb (fun k => negb (endsParsing k)) ks = true ->
  parseOptions defaults ks = inl (optionsOf ks).
Proof.
  intros H. destruct (parseOptions_runs ks defaults H) as (o & E).
  rewrite E. f_equal. apply parseOptions_closed, E.
Qed.

(** X5: when minimal is among the options, escape-more, escape-invisible
    and unicode-escapes change nothing: two runs whose options differ only
    in these three end in the same way, with the same output and the same
    status, on every platform, whatever the arguments and the input. *)
Theorem minimal_supersedes (p : platform) (ks ks' : list optchar)
        (o : options) (args : list (list Z)) (input : list Z)
        (Hparse : parseOptions defaults ks = inl o)
        (Hm : In OptM ks)
        (Hsame : forall k, k <> OptE -> k <> OptI -> k <> OptU ->
                           (In k ks <-> In k ks')) :
  main p ks args input = main p ks' args input.
Proof.
  assert (Hrun := optionsOf_runs _ Hparse).
  assert (Hrun' : forallb (fun k => negb (endsParsing k)) ks' = true).
  { apply (runs_ext ks); [|exact Hrun].
    intros k Hk Hin. apply Hsame; [| | |exact Hin];
      intros ->; discriminate. }
  assert (Hhas : forall k, k <> OptE -> k <> OptI -> k <> OptU ->
                           hasOpt k ks = hasOpt k ks').
  { intros k H1 H2 H3. apply hasOpt_ext, Hsame; assumption. }
  assert (HM : hasOpt OptM ks = true) by (apply hasOpt_In, Hm).
  assert (HM' : hasOpt OptM ks' = true)
    by (rewrite <- Hhas; [exact HM|discriminate..]).
  unfold main.
  rewrite (parseOptions_optionsOf _ Hrun), (parseOptions_optionsOf _ Hrun').
  assert (Eng : forall i, engine p (optionsOf ks) i
                          = engine p (optionsOf ks') i).
  { intros i. apply engine_minimal; unfold optionsOf;
      cbn [disableCQuoting flushArguments ignoreNullInput
           nullTerminatedOutput];
      rewrite ?(Hhas OptF), ?(Hhas OptN), ?(Hhas OptZ) by discriminate;
      auto. }
  assert (Eng' : forall i, engine p (withoutIgnoreNull (optionsOf ks)) i
                           = engine p (withoutIgnoreNull (optionsOf ks')) i).
  { intros i. apply engine_minimal; unfold optionsOf, withoutIgnoreNull;
      cbn [disableCQuoting flushArguments ignoreNullInput
           nullTerminatedOutput];
      rewrite ?(Hhas OptF), ?(Hhas OptN), ?(Hhas OptZ) by discriminate;
      auto. }
  destruct args as [|a args]; [apply Eng|].
  destruct (negb (forkOk p)); [reflexivity|].
  destruct (match args with
            | [] => sendArgument (pipeRoom p) a
            | _ :: _ => sendArguments (pipeRoom p) [] (a :: args)
            end) as [sent ok].
  rewrite Eng'. reflexivity.
Qed.

Lemma minimal_supersedes_witness :
  main posixPlatform [OptM; OptZ] [] [27; 0; 200]
  = main posixPlatform [OptU; OptE; OptZ; OptM] [] [27; 0; 200].
Proof.
  apply (@minimal_supersedes posixPlatform [OptM; OptZ]
           [OptU; OptE; OptZ; OptM] (optionsOf [OptM; OptZ]));
    [reflexivity|cbn [In]; tauto|].
  intros k H1 H2 H3. cbn [In]. destruct k; intuition congruence.
Defined.

(** X6: with one or more arguments, stdin is not read and
    ignore-null-input changes nothing: two runs on the same arguments
    whose options differ only in ignore-null-input end in the same way,
    whatever is on stdin of each. *)
Theorem arguments_ignore_stdin (p : platform) (ks ks' : list optchar)
        (o : options) (a : list Z) (args : list (list Z))
        (input input' : list Z)
        (Hparse : parseOptions defaults ks = inl o)
        (Hsame : forall k, k <> OptN -> (In k ks <-> In k ks')) :
  main p ks (a :: args) input = main p ks' (a :: args) input'.
Proof.
  assert (Hrun := optionsOf_runs _ Hparse).
  assert (Hrun' : forallb (fun k => negb (endsParsing k)) ks' = true).
  { apply (runs_ext ks); [|exact Hrun].
    intros k Hk Hin. apply Hsame; [|exact Hin]. intros ->; discriminate. }
  assert (Hhas : forall k, k <> OptN -> hasOpt k ks = hasOpt k ks').
  { intros k H1. apply hasOpt_ext, Hsame; assumption. }
  unfold main.
  rewrite (parseOptions_optionsOf _ Hrun), (parseOptions_optionsOf _ Hrun').
  replace (withoutIgnoreNull (optionsOf ks'))
    with (withoutIgnoreNull (optionsOf ks)); [reflexivity|].
  unfold withoutIgnoreNull, optionsOf;
    cbn [ansiEscapesLimit iswprintFn disableCQuoting useUnicodeEscapes
         flushArguments ignoreNullInput nullTerminatedOutput].
  rewrite (Hhas OptU), (Hhas OptE), (Hhas OptI), (Hhas OptM), (Hhas OptF),
          (Hhas OptZ) by discriminate.
  reflexivity.
Qed.

Lemma arguments_ignore_stdin_witness :
  main posixPlatform [OptN; OptZ] [[97; 32]; [98]] [99]
  = main posixPlatform [OptZ] [[97; 32]; [98]] [].
Proof.
  apply (@arguments_ignore_stdin posixPlatform [OptN; OptZ] [OptZ]
           (optionsOf [OptN; OptZ])); [reflexivity|].
  intros k H1. cbn [In]. destruct k; intuition congruence.
Defined.

(** X7: in the byte oriented loop, unicode-escapes changes the output only
    where the input has the escape character: two runs whose options
    differ only in unicode-escapes write the same bytes for an input
    without the byte 27; for that byte the output differs: it is [\E] with
    the option and an octal escape without it. *)
Theorem unicode_escapes_in_byte_loop (p : platform) (ks ks' : list optchar)
        (o o' : options) (input : list Z)
        (Hparse : parseOptions defaults ks = inl o)
        (Hparse' : parseOptions defaults ks' = inl o')
        (Hsame : forall k, k <> OptU -> (In k ks <-> In k ks'))
        (Hnarrow : useNarrow p o = true)
        (Hesc : ~ In 27 input) :
  engine p o input = engine p o' input
  /\ engine posixPlatform (optionsOf [OptU]) [27]
     = Some (Ran [36; 39; 92; 69; 39] 0)
  /\ engine posixPlatform (optionsOf []) [27]
     = Some (Ran [36; 39; 92; 51; 51; 39] 0).
Proof.
  split; [|split; reflexivity].
  assert (Hhas : forall k, k <> OptU -> hasOpt k ks = hasOpt k ks').
  { intros k H1. apply hasOpt_ext, Hsame; assumption. }
  assert (Ho := parseOptions_closed _ Hparse).
  assert (Ho' := parseOptions_closed _ Hparse').
  assert (Hm : disableCQuoting o = disableCQuoting o').
  { subst. cbn. apply Hhas. discriminate. }
  assert (Hn' : useNarrow p o' = true).
  { unfold useNarrow in *. rewrite <- Hm. exact Hnarrow. }
  unfold engine. rewrite Hnarrow, Hn'.
  rewrite (@narrowLoop_same o o' (fun c => c <> 27)); [reflexivity|..].
  - exact Hm.
  - subst. cbn. apply Hhas. discriminate.
  - subst. cbn. apply Hhas. discriminate.
  - subst. cbn. rewrite (Hhas OptZ), (Hhas OptF) by discriminate.
    reflexivity.
  - intros _ c Hc. subst. cbn [optionsOf ansiEscapesLimit].
    assert (H28 : sizeof_ansiEscapes = 28) by reflexivity.
    destruct (hasOpt OptU ks), (hasOpt OptU ks'); try reflexivity;
      rewrite !hasAnsiEscape_closed by (rewrite ?H28; auto);
      replace (c =? 27) with false by (symmetry; apply Z.eqb_neq; exact Hc);
      reflexivity.
  - apply Forall_forall. intros x Hx ->. exact (Hesc Hx).
Qed.

Lemma unicode_escapes_in_byte_loop_witness :
  engine posixPlatform (optionsOf [OptU; OptZ]) [7; 1; 0; 65]
  = engine posixPlatform (optionsOf [OptZ]) [7; 1; 0; 65].
Proof.
  apply (@unicode_escapes_in_byte_loop posixPlatform [OptU; OptZ] [OptZ]
           (optionsOf [OptU; OptZ]) (optionsOf [OptZ]) [7; 1; 0; 65]);
    [reflexivity|reflexivity| |reflexivity|].
  - intros k H1. cbn [In]. destruct k; intuition congruence.
  - cbn [In]. intros H. repeat destruct H as [H|H]; discriminate || exact H.
Defined.

(** ** The bytes that the byte oriented loop writes *)

Lemma digitChar_isprint d : 0 <= d < 16 -> isprint (digitChar d) = true.
Proof.
  intros H. unfold digitChar, isprint.
  destruct (d <? 10); apply andb_true_intro; split; apply Z.leb_le; lia.
Qed.

Lemma digitsAux_Forall (P : Z -> Prop) base fuel : forall n acc,
  0 < base -> (forall d, 0 <= d < base -> P (digitChar d)) ->
  Forall P acc -> Forall P (digitsAux fuel base n acc).
Proof.
  induction fuel as [|fuel IH]; intros n acc Hb HP Hacc; cbn [digitsAux];
    [exact Hacc|].
  assert (H1 : Forall P (digitChar (n mod base) :: acc)).
  { constructor; [|exact Hacc]. apply HP. apply Z.mod_pos_bound. exact Hb. }
  destruct (n / base =? 0); [exact H1|]. apply IH; assumption.
Qed.

Lemma padTo_Forall (P : Z -> Prop) k l :
  P ch_0 -> Forall P l -> Forall P (padTo k l).
Proof.
  intros H0 Hl. unfold padTo. apply Forall_app. split; [|exact Hl].
  apply Forall_forall. intros x Hx. apply repeat_spec in Hx. subst. exact H0.
Qed.

Lemma octal_isprint c :
  Forall (fun b => isprint b = true) (fmt_3o c)
  /\ Forall (fun b => isprint b = true) (fmt_o c).
Proof.
  assert (H : Forall (fun b => isprint b = true) (digits 8 c)).
  { apply digitsAux_Forall; [lia| |constructor].
    intros d Hd. apply digitChar_isprint. lia. }
  split; constructor; try reflexivity; [|exact H].
  apply padTo_Forall; [reflexivity|exact H].
Qed.

Lemma ansiEscape_isprint c :
  ansiEscape c = 0 \/ isprint (ansiEscape c) = true.
Proof.
  unfold ansiEscape.
  destruct (nth_in_or_default (Z.to_nat c) ansiEscapes 0) as [H|H];
    [|left; exact H].
  revert H. generalize (nth (Z.to_nat c) ansiEscapes 0). intros x H.
  assert (F : forallb (fun x => (x =? 0) || isprint x) ansiEscapes = true)
    by reflexivity.
  rewrite forallb_forall in F. apply F, orb_true_iff in H.
  destruct H as [H|H]; [left; apply Z.eqb_eq, H|right; exact H].
Qed.

Section PlainOutput.
Variable o : options.
Hypothesis Hquoting : disableCQuoting o = false.

Lemma plain_isprint l :
  Forall (fun b => isprint b = true) l -> Forall (plainByte o) l.
Proof. apply Forall_impl. intros b H. unfold plainByte. left. exact H. Qed.

Lemma narrowEmit_plain c isP s out :
  (isP = true -> isprint c = true) -> Forall (plainByte o) out ->
  Forall (plainByte o) (narrowEmit o c isP s out).
Proof.
  intros Hc Hout. unfold narrowEmit.
  destruct isP.
  - specialize (Hc eq_refl).
    destruct (ch_backslash =? c);
      [apply Forall_app; split; [exact Hout|];
       apply plain_isprint; repeat constructor|].
    destruct (ch_quote =? c);
      [apply Forall_app; split; [exact Hout|];
       apply plain_isprint; repeat constructor|].
    apply Forall_app; split; [exact Hout|].
    apply plain_isprint. constructor; [|constructor].
    unfold to_uchar. unfold isprint in Hc. apply andb_prop in Hc.
    destruct Hc as [H1 H2]. apply Z.leb_le in H1, H2.
    rewrite Z.mod_small by lia. unfold isprint.
    apply andb_true_intro; split; apply Z.leb_le; lia.
  - destruct (hasAnsiEscape (ansiEscapesLimit o) c) eqn:Ha.
    + apply Forall_app; split; [exact Hout|]. apply plain_isprint.
      unfold fmt_c. constructor; [reflexivity|]. constructor; [|constructor].
      destruct (ansiEscape_isprint c) as [H0|H0]; [|exact H0].
      unfold hasAnsiEscape in Ha. apply andb_prop in Ha.
      destruct Ha as [_ Ha]. unfold ansiEscape in H0. rewrite H0 in Ha.
      discriminate.
    + apply Forall_app; split; [exact Hout|]. apply plain_isprint.
      destruct (octal_isprint c) as [H3 H1].
      destruct ((63 <? c)
                || (let nextc := fst (getc s) in
                    (nextc <=? ch_7) && (ch_0 <=? nextc))); assumption.
Qed.

Lemma narrowQuoted_plain s : forall c isP out,
  (isP = true -> isprint c = true) -> Forall (plainByte o) out ->
  Forall (plainByte o) (snd (narrowQuoted o s c isP out)).
Proof.
  induction s as [|b s IH]; intros c isP out Hc Hout; cbn [narrowQuoted].
  - cbn [snd]. apply narrowEmit_plain; assumption.
  - destruct (0 <? b).
    + apply IH; [tauto|]. apply narrowEmit_plain; assumption.
    + cbn [snd]. apply narrowEmit_plain; assumption.
Qed.

Lemma narrowRecord_plain fuel : forall jump c s out c' s' out',
  (jump = true -> isprint c = true) -> Forall (plainByte o) out ->
  narrowRecord o fuel jump c s out = Some (c', s', out') ->
  Forall (plainByte o) out'.
Proof.
  induction fuel as [|fuel IH]; intros jump c s out c' s' out' Hj Hout;
    [discriminate|].
  assert (Hnext : forall s0 out0, Forall (plainByte o) out0 ->
             (let (c1, s1) := getc s0 in
              if 0 <? c1 then narrowRecord o fuel false c1 s1 out0
              else Some (c1, s1, out0)) = Some (c', s', out') ->
             Forall (plainByte o) out').
  { intros s0 out0 H0. destruct (getc s0) as [c1 s1].
    destruct (0 <? c1).
    - apply IH; [discriminate|exact H0].
    - intros H. inversion H; subst. exact H0. }
  assert (Hbq : Forall (plainByte o) (out ++ s_bs_quote)).
  { apply Forall_app; split; [exact Hout|].
    apply plain_isprint; repeat constructor. }
  cbn [narrowRecord]. rewrite Hquoting. cbn [orb].
  destruct (jump || isShControl c
            || negb (if jump then true else isprint c)) eqn:Econd.
  - destruct (ch_quote =? c); [apply Hnext, Hbq|].
    assert (Hq := @narrowQuoted_plain s c (if jump then true else isprint c)
                    (out ++ s_dollar_quote)).
    destruct (narrowQuoted o s c (if jump then true else isprint c)
                (out ++ s_dollar_quote)) as [[c1 s1] out1].
    cbn [snd] in Hq.
    assert (H1 : Forall (plainByte o) (out1 ++ [ch_quote])).
    { apply Forall_app; split.
      - apply Hq.
        + destruct jump; [exact Hj|tauto].
        + apply Forall_app; split; [exact Hout|].
          apply plain_isprint; repeat constructor.
      - apply plain_isprint; repeat constructor. }
    destruct (ch_quote =? c1).
    + apply Hnext. apply Forall_app; split; [exact H1|].
      apply plain_isprint; repeat constructor.
    + destruct (c1 <=? 0); [|apply Hnext, H1].
      intros H. inversion H; subst. exact H1.
  - apply Hnext. apply Forall_app; split; [exact Hout|].
    apply orb_false_elim in Econd. destruct Econd as [Econd Ep].
    apply orb_false_elim in Econd. destruct Econd as [Ej _].
    subst jump. apply negb_false_iff in Ep.
    apply plain_isprint. constructor; [|constructor].
    unfold to_uchar. pose proof Ep as Hp. unfold isprint in Hp.
    apply andb_prop in Hp.
    destruct Hp as [H1 H2]. apply Z.leb_le in H1, H2.
    rewrite Z.mod_small by lia. exact Ep.
Qed.

Lemma separator_plain room out :
  Forall (plainByte o) out -> Forall (plainByte o) (snd (separator o room out)).
Proof.
  intros H. unfold separator.
  destruct (ignoreNullInput o); [exact H|].
  destruct (nullTerminatedOutput o) eqn:En; cbn [snd];
    (apply Forall_app; split; [exact H|]);
    (apply Forall_cons; [|apply Forall_nil]);
    unfold plainByte.
  - right. split; [reflexivity|exact En].
  - left. reflexivity.
Qed.

Lemma terminator_plain b out :
  Forall (plainByte o) out -> Forall (plainByte o) (terminator o b out).
Proof.
  intros H. unfold terminator.
  assert (H0 : nullTerminatedOutput o = true ->
               Forall (plainByte o) (out ++ [0])).
  { intros En. apply Forall_app; split; [exact H|].
    apply Forall_cons; [|apply Forall_nil]. unfold plainByte. right.
    split; [reflexivity|exact En]. }
  destruct b.
  - destruct (nullTerminatedOutput o); [apply H0; reflexivity|exact H].
  - destruct (ignoreNullInput o); cbn [andb]; [|exact H].
    destruct (nullTerminatedOutput o); [apply H0; reflexivity|exact H].
Qed.

Lemma narrowRecords_plain room fuel : forall jump c s out out',
  (jump = true -> isprint c = true) -> Forall (plainByte o) out ->
  narrowRecords o room fuel jump c s out = Some out' ->
  Forall (plainByte o) out'.
Proof.
  induction fuel as [|fuel IH]; intros jump c s out out' Hj Hout;
    [discriminate|].
  cbn [narrowRecords].
  destruct (if jump || (0 <? c) then narrowRecord o fuel jump c s out
            else Some (c, s, out ++ s_quote_quote))
    as [[[c1 s1] out1]|] eqn:E1; [|discriminate].
  assert (H1 : Forall (plainByte o) out1).
  { destruct (jump || (0 <? c)).
    - eapply narrowRecord_plain; eassumption.
    - inversion E1; subst. apply Forall_app; split; [exact Hout|].
      apply plain_isprint; repeat constructor. }
  unfold narrowBetween.
  destruct (0 =? c1);
    [|intros H; injection H as <-; exact (terminator_plain false H1)].
  destruct (getc s1) as [c2 s2].
  destruct (negb (EOF =? c2));
    [|intros H; injection H as <-; exact (terminator_plain true H1)].
  assert (H2 := separator_plain room H1).
  destruct (separator o room out1) as [lc out2]. cbn [snd] in H2.
  destruct (ch_tilde =? c2) eqn:Et; cbn [andb].
  - destruct lc; [|intros H; injection H as <-; exact H2].
    apply IH; [|exact H2]. intros _. apply Z.eqb_eq in Et. subst c2.
    reflexivity.
  - destruct lc; [|intros H; injection H as <-; exact H2].
    apply IH; [discriminate|exact H2].
Qed.
End PlainOutput.

(** X8: unless minimal is in effect, the byte oriented loop writes only
    printable ASCII characters (32 to 126), whatever bytes the input has,
    and, under null-terminated output, the nulls that end the records;
    without null-terminated output no null and no control character is
    ever written. *)
Theorem byte_loop_writes_printable_ascii
        (o : options) (room : option nat) (input : list Z)
        (Hquoting : disableCQuoting o = false) :
  exists out,
    narrowLoop o room input = Some out
    /\ Forall (plainByte o) out.
Proof.
  destruct (narrowLoop_total o room input) as (out & E).
  exists out. split; [exact E|].
  unfold narrowLoop in E. destruct (getc input) as [c s].
  eapply narrowRecords_plain; [exact Hquoting| | |exact E].
  - intros Hj. apply Z.eqb_eq in Hj. subst c. reflexivity.
  - constructor.
Qed.

Lemma byte_loop_writes_printable_ascii_witness :
  exists out,
    narrowLoop defaults None [27; 200; 0; 126; 10] = Some out
    /\ Forall (plainByte defaults) out.
Proof.
  apply (@byte_loop_writes_printable_ascii defaults None
           [27; 200; 0; 126; 10]).
  reflexivity.
Defined.

(** ** The bytes that the wide character loop escapes *)

Lemma low_bits c : Z.lor (Z.land c 0xBF) 0x80 = 0x80 + c mod 64.
Proof.
  assert (E : Z.land c 0xBF = Z.land (c mod 256) 0xBF).
  { change 256 with (2 ^ 8). rewrite <- Z.land_ones by lia.
    rewrite <- Z.land_assoc. reflexivity. }
  rewrite E.
  assert (Hr : byte (c mod 256)) by (apply Z.mod_pos_bound; lia).
  assert (Hm : c mod 64 = (c mod 256) mod 64).
  { symmetry. apply Z.mod_mod_divide. exists 4. reflexivity. }
  rewrite Hm. apply Z.eqb_eq.
  apply (@byte_forall
           (fun r => Z.lor (Z.land r 0xBF) 0x80 =? 0x80 + r mod 64));
    [vm_compute; reflexivity|exact Hr].
Qed.

Lemma lead_bits m k y :
  (m = 0xC0 /\ k = 31) \/ (m = 0xE0 /\ k = 15) \/ (m = 0xF0 /\ k = 7) ->
  0 <= y <= k -> Z.lor m y = m + y.
Proof.
  intros Hm Hy. apply Z.eqb_eq.
  destruct Hm as [[-> ->]|[[-> ->]|[-> ->]]].
  - apply (@byte_range 0 31 (fun y => Z.lor 0xC0 y =? 0xC0 + y));
      [vm_compute; reflexivity|lia..].
  - apply (@byte_range 0 15 (fun y => Z.lor 0xE0 y =? 0xE0 + y));
      [vm_compute; reflexivity|lia..].
  - apply (@byte_range 0 7 (fun y => Z.lor 0xF0 y =? 0xF0 + y));
      [vm_compute; reflexivity|lia..].
Qed.

Lemma cont_low x : isContinuation (0x80 + x mod 64).
Proof.
  unfold isContinuation.
  assert (H := Z.mod_pos_bound x 64 ltac:(lia)). lia.
Qed.

Lemma wideBytes2 c :
  0x80 <= c < 0x800 ->
  wideBytes c = [0xC0 + c / 64; 0x80 + c mod 64]
  /\ value2 (0xC0 + c / 64) (0x80 + c mod 64) = c.
Proof.
  intros Hc. unfold wideBytes.
  replace (c <? 0x800) with true by (symmetry; apply Z.ltb_lt; lia).
  rewrite low_bits, Z.shiftr_div_pow2 by lia. change (2 ^ 6) with 64.
  assert (H1 := Z.div_mod c 64 ltac:(lia)).
  assert (H2 := Z.mod_pos_bound c 64 ltac:(lia)).
  rewrite (@lead_bits 0xC0 31) by (auto || lia).
  split; [reflexivity|]. unfold value2. lia.
Qed.

Lemma wideBytes3 c :
  0x800 <= c < 0x10000 ->
  wideBytes c = [0xE0 + c / 4096; 0x80 + (c / 64) mod 64; 0x80 + c mod 64]
  /\ value3 (0xE0 + c / 4096) (0x80 + (c / 64) mod 64) (0x80 + c mod 64)
     = c.
Proof.
  intros Hc. unfold wideBytes.
  replace (c <? 0x800) with false by (symmetry; apply Z.ltb_ge; lia).
  replace (c <? 0x10000) with true by (symmetry; apply Z.ltb_lt; lia).
  rewrite !low_bits, !Z.shiftr_div_pow2 by lia.
  change (2 ^ 6) with 64. change (2 ^ 12) with 4096.
  assert (H1 := Z.div_mod c 64 ltac:(lia)).
  assert (H2 := Z.mod_pos_bound c 64 ltac:(lia)).
  assert (H3 := Z.div_mod (c / 64) 64 ltac:(lia)).
  assert (H4 := Z.mod_pos_bound (c / 64) 64 ltac:(lia)).
  assert (H5 : c / 64 / 64 = c / 4096) by (rewrite Z.div_div by lia; reflexivity).
  rewrite (@lead_bits 0xE0 15) by (auto || lia).
  split; [reflexivity|]. unfold value3. lia.
Qed.

Lemma wideBytes4 c :
  0x10000 <= c <= 0x10FFFF ->
  wideBytes c = [0xF0 + c / 262144; 0x80 + (c / 4096) mod 64;
                 0x80 + (c / 64) mod 64; 0x80 + c mod 64]
  /\ value4 (0xF0 + c / 262144) (0x80 + (c / 4096) mod 64)
            (0x80 + (c / 64) mod 64) (0x80 + c mod 64) = c.
Proof.
  intros Hc. unfold wideBytes.
  replace (c <? 0x800) with false by (symmetry; apply Z.ltb_ge; lia).
  replace (c <? 0x10000) with false by (symmetry; apply Z.ltb_ge; lia).
  replace (c <? 0x200000) with true by (symmetry; apply Z.ltb_lt; lia).
  rewrite !low_bits, !Z.shiftr_div_pow2 by lia.
  change (2 ^ 6) with 64. change (2 ^ 12) with 4096.
  change (2 ^ 18) with 262144.
  assert (H1 := Z.div_mod c 64 ltac:(lia)).
  assert (H2 := Z.mod_pos_bound c 64 ltac:(lia)).
  assert (H3 := Z.div_mod (c / 64) 64 ltac:(lia)).
  assert (H4 := Z.mod_pos_bound (c / 64) 64 ltac:(lia)).
  assert (H5 : c / 64 / 64 = c / 4096) by (rewrite Z.div_div by lia; reflexivity).
  assert (H6 := Z.div_mod (c / 4096) 64 ltac:(lia)).
  assert (H7 := Z.mod_pos_bound (c / 4096) 64 ltac:(lia)).
  assert (H8 : c / 4096 / 64 = c / 262144)
    by (rewrite Z.div_div by lia; reflexivity).
  rewrite (@lead_bits 0xF0 7) by (auto || lia).
  split; [reflexivity|]. unfold value4. lia.
Qed.

(** X9: the bytes that the wide character loop escapes for a code point
    above 127 are its UTF-8 encoding: for every Unicode scalar value from
    0x80 to 0x10FFFF, [getUtf8CodePoint] reads them back as that code point,
    with its width and the same bytes in [cbuff], and leaves what follows;
    so, unless \u escapes are enabled, the UTF-8 loop and the wide
    character loop write the same octal escapes for the code point. *)
Theorem wide_escapes_are_utf8 (o : options) (st : utf8) (c : Z)
        (rest : list Z)
        (Hwf : wf st) (Hpending : pending st = wideBytes c ++ rest)
        (Hc : 0x80 <= c <= 0x10FFFF) (Hs : c < 0xD800 \/ 0xDFFF < c) :
  view (getUtf8CodePoint st)
  = (c, length (wideBytes c), wideBytes c, rest)
  /\ (useUnicodeEscapes o = false ->
      forall ws out,
        utf8Emit o c false (snd (getUtf8CodePoint st)) out
        = (snd (getUtf8CodePoint st),
           out ++ flat_map fmt_3o (wideBytes c), false)
        /\ wideEmit o c false ws out
           = (ws, out ++ flat_map fmt_3o (wideBytes c), false)).
Proof.
  assert (Hview : view (getUtf8CodePoint st)
                  = (c, length (wideBytes c), wideBytes c, rest)).
  { destruct (Z_lt_le_dec c 0x800) as [H2|H2];
      [|destruct (Z_lt_le_dec c 0x10000) as [H3|H3]].
    - destruct (@wideBytes2 c ltac:(lia)) as [Eb Ev].
      rewrite Eb in *.
      assert (Hd := Z.div_mod c 64 ltac:(lia)).
      assert (Hm := Z.mod_pos_bound c 64 ltac:(lia)).
      rewrite (@decode2_queue st _ _ rest Hwf Hpending)
        by (lia || apply cont_low).
      rewrite Ev.
      replace (c <? 0x80) with false by (symmetry; apply Z.ltb_ge; lia).
      reflexivity.
    - destruct (@wideBytes3 c ltac:(lia)) as [Eb Ev].
      rewrite Eb in *.
      assert (Hd := Z.div_mod c 4096 ltac:(lia)).
      assert (Hm := Z.mod_pos_bound c 4096 ltac:(lia)).
      rewrite (@decode3_queue st _ _ _ rest Hwf Hpending)
        by (lia || apply cont_low).
      rewrite Ev.
      replace (c <? 0x800) with false by (symmetry; apply Z.ltb_ge; lia).
      replace ((0xD800 <=? c) && (c <=? 0xDFFF)) with false; [reflexivity|].
      symmetry. apply andb_false_iff. rewrite Z.leb_gt, Z.leb_gt. lia.
    - destruct (@wideBytes4 c ltac:(lia)) as [Eb Ev].
      rewrite Eb in *.
      assert (Hd := Z.div_mod c 262144 ltac:(lia)).
      assert (Hm := Z.mod_pos_bound c 262144 ltac:(lia)).
      rewrite (@decode4_queue st _ _ _ _ rest Hwf Hpending)
        by (lia || apply cont_low).
      rewrite Ev.
      replace (c <? 0x10000) with false by (symmetry; apply Z.ltb_ge; lia).
      replace (0x10FFFF <? c) with false by (symmetry; apply Z.ltb_ge; lia).
      reflexivity. }
  split; [exact Hview|].
  intros Hu ws out.
  destruct (view_inv _ Hview) as (st' & Eg & Hk & Hcb & _).
  rewrite Eg. cbn [snd].
  assert (Hlen : (2 <= length (wideBytes c))%nat).
  { unfold wideBytes. repeat match goal with
    | |- context [if ?b then _ else _] => destruct b
    end; cbn [length]; lia. }
  unfold utf8Emit, wideEmit. rewrite Hu, Hk, Hcb. cbn [negb].
  replace (c <? 128) with false by (symmetry; apply Z.ltb_ge; lia).
  replace (length (wideBytes c) =? 0)%nat with false
    by (symmetry; apply Nat.eqb_neq; lia).
  cbn [orb]. split; reflexivity.
Qed.

Lemma wide_escapes_are_utf8_witness :
  view (getUtf8CodePoint (utf8_init (wideBytes 0x1F600 ++ [97])))
  = (0x1F600, 4%nat, [0xF0; 0x9F; 0x98; 0x80], [97]).
Proof.
  refine (proj1 (@wide_escapes_are_utf8 defaults
                   (utf8_init (wideBytes 0x1F600 ++ [97])) 0x1F600 [97]
                   _ _ _ _)).
  - apply wf_init. repeat constructor; unfold byte; cbn; lia.
  - apply pending_init.
  - lia.
  - right. lia.
Defined.

(** ** The digits of the numeric escapes *)

Lemma digitValue_digitChar d : 0 <= d < 16 -> digitValue (digitChar d) = d.
Proof.
  intros H. unfold digitValue, digitChar.
  destruct (d <? 10) eqn:E.
  - apply Z.ltb_lt in E.
    replace (48 + d <? 58) with true by (symmetry; apply Z.ltb_lt; lia). lia.
  - apply Z.ltb_ge in E.
    replace (55 + d <? 58) with false by (symmetry; apply Z.ltb_ge; lia). lia.
Qed.

Lemma digitChar_isxdigit d : 0 <= d < 16 -> isxdigit (digitChar d) = true.
Proof.
  intros H. unfold isxdigit, digitChar.
  destruct (d <? 10) eqn:E.
  - apply Z.ltb_lt in E.
    replace (48 <=? 48 + d) with true by (symmetry; apply Z.leb_le; lia).
    replace (48 + d <=? 57) with true by (symmetry; apply Z.leb_le; lia).
    reflexivity.
  - apply Z.ltb_ge in E.
    replace (65 <=? 55 + d) with true by (symmetry; apply Z.leb_le; lia).
    replace (55 + d <=? 70) with true by (symmetry; apply Z.leb_le; lia).
    cbn [andb]. apply orb_true_r || (rewrite orb_true_r; reflexivity).
Qed.

Lemma digitsValue_snoc base l ch :
  digitsValue base (l ++ [ch]) = digitsValue base l * base + digitValue ch.
Proof. unfold digitsValue. rewrite fold_left_app. reflexivity. Qed.

Lemma digitsValue_zeros base k l :
  digitsValue base (repeat ch_0 k ++ l) = digitsValue base l.
Proof.
  unfold digitsValue. rewrite fold_left_app. f_equal.
  induction k as [|k IH]; [reflexivity|]. cbn [repeat fold_left]. exact IH.
Qed.

Lemma pow_succ_nat base k :
  base ^ Z.of_nat (S k) = base * base ^ Z.of_nat k.
Proof. rewrite Nat2Z.inj_succ, Z.pow_succ_r by lia. reflexivity. Qed.

(** The digits that [printf] writes for [n]: they denote [n], they are as
    few as [n] allows, and each is a digit of the base. *)
Lemma digitsAux_spec base fuel : forall n acc,
  2 <= base <= 16 -> 0 <= n < base ^ Z.of_nat fuel -> (0 < fuel)%nat ->
  exists ds,
    digitsAux fuel base n acc = ds ++ acc
    /\ digitsValue base ds = n
    /\ (1 <= length ds)%nat
    /\ (forall k, (1 <= k)%nat -> n < base ^ Z.of_nat k ->
                  (length ds <= k)%nat)
    /\ (forall k, base ^ Z.of_nat k <= n -> (k < length ds)%nat)
    /\ Forall (fun ch => exists d, 0 <= d < base /\ ch = digitChar d) ds.
Proof.
  induction fuel as [|fuel IH]; intros n acc Hb Hn Hfuel; [lia|].
  - cbn [digitsAux].
    assert (Hm := Z.mod_pos_bound n base ltac:(lia)).
    assert (Hd := Z.div_mod n base ltac:(lia)).
    destruct (n / base =? 0) eqn:E.
    + apply Z.eqb_eq in E. rewrite E in Hd.
      exists [digitChar (n mod base)].
      split; [reflexivity|]. split.
      { unfold digitsValue. cbn [fold_left].
        rewrite digitValue_digitChar by lia. lia. }
      split; [cbn [length]; lia|]. split; [intros k Hk _; exact Hk|]. split.
      { intros k Hk. destruct k as [|k]; [cbn [length]; lia|].
        exfalso. rewrite pow_succ_nat in Hk.
        assert (0 < base ^ Z.of_nat k) by (apply Z.pow_pos_nonneg; lia).
        nia. }
      constructor; [|constructor]. exists (n mod base). split; [lia|reflexivity].
    + apply Z.eqb_neq in E.
      assert (Hq : 0 < n / base).
      { assert (0 <= n / base) by (apply Z.div_pos; lia). lia. }
      rewrite pow_succ_nat in Hn.
      assert (Hq' : n / base < base ^ Z.of_nat fuel)
        by (apply Z.div_lt_upper_bound; lia).
      assert (Hf : (0 < fuel)%nat).
      { destruct fuel; [|lia]. change (Z.of_nat 0) with 0 in Hq'.
        rewrite Z.pow_0_r in Hq'. lia. }
      destruct (IH (n / base) (digitChar (n mod base) :: acc) Hb
                   ltac:(lia) Hf)
        as (ds & E1 & E2 & E3 & E4 & E5 & E6).
      exists (ds ++ [digitChar (n mod base)]).
      split; [rewrite E1, <- app_assoc; reflexivity|]. split.
      { rewrite digitsValue_snoc, E2, digitValue_digitChar by lia. lia. }
      rewrite length_app. cbn [length].
      split; [lia|]. split.
      { intros k Hk Hlt. destruct k as [|[|k]]; [lia| |].
        - exfalso. change (Z.of_nat 1) with 1 in Hlt.
          rewrite Z.pow_1_r in Hlt. nia.
        - rewrite pow_succ_nat in Hlt.
          assert (length ds <= S k)%nat; [|lia].
          apply E4; [lia|]. apply Z.div_lt_upper_bound; lia. }
      split.
      { intros k Hk. destruct k as [|k]; [lia|].
        rewrite pow_succ_nat in Hk.
        assert (k < length ds)%nat; [|lia].
        apply E5. apply Z.div_le_lower_bound; lia. }
      apply Forall_app. split; [exact E6|].
      constructor; [|constructor]. exists (n mod base).
      split; [lia|reflexivity].
Qed.

Lemma hex_digits c :
  0 <= c < 2 ^ 32 ->
  digitsValue 16 (digits 16 c) = c
  /\ (1 <= length (digits 16 c))%nat
  /\ (forall k, (1 <= k)%nat -> c < 16 ^ Z.of_nat k ->
                (length (digits 16 c) <= k)%nat)
  /\ (forall k, 16 ^ Z.of_nat k <= c -> (k < length (digits 16 c))%nat)
  /\ Forall (fun ch => isxdigit ch = true) (digits 16 c).
Proof.
  intros Hc.
  destruct (@digitsAux_spec 16 32 c [] ltac:(lia)) as (ds & E & H).
  { split; [lia|]. apply Z.lt_le_trans with (2 ^ 32); [lia|].
    vm_compute. discriminate. }
  { lia. }
  rewrite app_nil_r in E. unfold digits. rewrite E.
  destruct H as (H1 & H2 & H3 & H4 & H5).
  repeat (split; [assumption|]).
  revert H5. apply Forall_impl. intros ch (d & Hd & ->).
  apply digitChar_isxdigit, Hd.
Qed.

Lemma hex_forms c :
  128 <= c <= 0x10FFFF ->
  digitsValue 16 (digits 16 c) = c
  /\ digitsValue 16 (padTo 4 (digits 16 c)) = c
  /\ Forall (fun ch => isxdigit ch = true) (digits 16 c)
  /\ Forall (fun ch => isxdigit ch = true) (padTo 4 (digits 16 c))
  /\ (c <= 0xFFFF -> length (padTo 4 (digits 16 c)) = 4%nat)
  /\ (c <= 0xFFF -> (length (digits 16 c) < 4)%nat)
  /\ (0xFFFF < c -> (5 <= length (digits 16 c) <= 6)%nat).
Proof.
  intros Hc.
  destruct (@hex_digits c ltac:(lia)) as (H1 & H2 & H3 & H4 & H5).
  split; [exact H1|]. split.
  { unfold padTo. rewrite digitsValue_zeros. exact H1. }
  split; [exact H5|]. split.
  { unfold padTo. apply Forall_app. split; [|exact H5].
    apply Forall_forall. intros x Hx. apply repeat_spec in Hx. subst.
    reflexivity. }
  split.
  { intros Hle. unfold padTo. rewrite length_app, repeat_length.
    assert (length (digits 16 c) <= 4)%nat; [|lia].
    apply H3; [lia|]. change (16 ^ Z.of_nat 4) with 65536. lia. }
  split.
  { intros Hle. assert (length (digits 16 c) <= 3)%nat; [|lia].
    apply H3; [lia|]. change (16 ^ Z.of_nat 3) with 4096. lia. }
  intros Hgt. split.
  - assert (4 < length (digits 16 c))%nat; [|lia].
    apply H4. change (16 ^ Z.of_nat 4) with 65536. lia.
  - apply H3; [lia|]. change (16 ^ Z.of_nat 6) with 16777216. lia.
Qed.

(** X10: with \u escapes enabled, a code point from 128 to 0x10FFFF that is
    not printable is written, in the UTF-8 loop and in the wide character
    loop, as [\u] (up to 0xFFFF) or [\U] (above) and upper case hexadecimal
    digits that denote the code point.  After [\u] there are exactly four
    digits, or fewer only when the next code point is no hexadecimal digit;
    after [\U] there are five or six, and when the next code point is a
    hexadecimal digit the quoted region is left at once, so that the digit
    is not read as part of the escape.  The look at the next code point
    leaves the input of the UTF-8 loop as it was. *)
Theorem unicode_escape_digits
        (iswprint iswspace : Z -> bool) (o : options) (st : utf8)
        (ws : wstream) (c : Z) (out : list Z)
        (Hwf : wf st) (Hu : useUnicodeEscapes o = true)
        (Hk : bytesInCodePoint st <> 0%nat) (Hc : 128 <= c <= 0x10FFFF) :
  let nextc := fst (getUtf8CodePoint st) in
  let nextHex := (nextc <=? ch_f) && isxdigit nextc in
  let nextHexW := isxdigit (fst (getwc ws)) in
  let letter := if c <=? 0xFFFF then ch_u else ch_U in
  (exists st' ds brk,
      utf8Emit o c false st out
      = (st', out ++ ch_backslash :: letter :: ds, brk)
      /\ digitsValue 16 ds = c
      /\ Forall (fun d => isxdigit d = true) ds
      /\ (if c <=? 0xFFFF
          then brk = false
               /\ (length ds = 4%nat
                   \/ ((length ds < 4)%nat /\ nextHex = false))
          else brk = nextHex /\ (5 <= length ds <= 6)%nat)
      /\ wf st' /\ pending st' = pending st
      /\ view (getUtf8CodePoint st') = view (getUtf8CodePoint st)
      /\ (brk = true -> forall fuel,
            utf8Quoted iswprint iswspace o (S fuel) c false st out
            = Some (c, st', out ++ ch_backslash :: letter :: ds)))
  /\ (exists ws' ds brk,
         wideEmit o c false ws out
         = (ws', out ++ ch_backslash :: letter :: ds, brk)
         /\ digitsValue 16 ds = c
         /\ Forall (fun d => isxdigit d = true) ds
         /\ (if c <=? 0xFFFF
             then brk = false
                  /\ (length ds = 4%nat
                      \/ ((length ds < 4)%nat /\ nextHexW = false))
             else brk = nextHexW /\ (5 <= length ds <= 6)%nat)
         /\ wchars ws' = wchars ws
         /\ (brk = true -> forall fuel,
               wideQuoted iswprint iswspace o (S fuel) c false ws out
               = Some (c, ws', out ++ ch_backslash :: letter :: ds))).
Proof.
  intros nextc nextHex nextHexW letter.
  destruct (hex_forms Hc) as (V & V4 & F & F4 & L4 & L3 & L5).
  destruct (peek_restores Hwf) as (Pwf & Ppend & Pfst & Pview).
  assert (Hlt : (c <? 128) = false) by (apply Z.ltb_ge; lia).
  assert (Hk0 : (bytesInCodePoint st =? 0)%nat = false)
    by (apply Nat.eqb_neq; exact Hk).
  split.
  - cbn [utf8Quoted]. unfold utf8Emit. rewrite Hlt, Hk0, Hu. cbn [orb negb].
    subst letter.
    destruct (c <=? 65535) eqn:E16.
    + apply Z.leb_le in E16.
      destruct (0xFFF <? c) eqn:E12.
      * exists st, (padTo 4 (digits 16 c)), false.
        split; [reflexivity|]. split; [exact V4|]. split; [exact F4|].
        split; [split; [reflexivity|left; apply L4; lia]|].
        split; [exact Hwf|]. split; [reflexivity|]. split; [reflexivity|].
        discriminate.
      * apply Z.ltb_ge in E12.
        destruct (peekUtf8 st) as [n st'] eqn:Ep. cbn [fst snd] in *.
        fold nextc in Pfst. subst n. fold nextHex.
        destruct nextHex eqn:En.
        -- exists st', (padTo 4 (digits 16 c)), false.
           split; [reflexivity|]. split; [exact V4|]. split; [exact F4|].
           split; [split; [reflexivity|left; apply L4; lia]|].
           split; [exact Pwf|]. split; [exact Ppend|].
           split; [exact Pview|]. discriminate.
        -- exists st', (digits 16 c), false.
           split; [reflexivity|]. split; [exact V|]. split; [exact F|].
           split; [split; [reflexivity|right; split; [apply L3; lia|]]|].
           { reflexivity. }
           split; [exact Pwf|]. split; [exact Ppend|].
           split; [exact Pview|]. discriminate.
    + apply Z.leb_gt in E16.
      destruct (peekUtf8 st) as [n st'] eqn:Ep. cbn [fst snd] in *.
      fold nextc in Pfst. subst n. fold nextHex.
      exists st', (digits 16 c), nextHex.
      split; [reflexivity|]. split; [exact V|]. split; [exact F|].
      split; [split; [reflexivity|apply L5; lia]|].
      split; [exact Pwf|]. split; [exact Ppend|]. split; [exact Pview|].
      intros Hb fuel. rewrite Hb. reflexivity.
  - cbn [wideQuoted]. unfold wideEmit. rewrite Hlt, Hu. cbn [negb].
    subst letter. unfold peekwc.
    destruct (getwc ws) as [n ws1] eqn:Eg. cbn [fst] in nextHexW.
    destruct (c <=? 65535) eqn:E16.
    + apply Z.leb_le in E16.
      destruct (0xFFF <? c) eqn:E12.
      * exists ws, (padTo 4 (digits 16 c)), false.
        split; [reflexivity|]. split; [exact V4|]. split; [exact F4|].
        split; [split; [reflexivity|left; apply L4; lia]|].
        split; [reflexivity|discriminate].
      * apply Z.ltb_ge in E12. fold nextHexW.
        destruct nextHexW eqn:En.
        -- eexists _, (padTo 4 (digits 16 c)), false.
           split; [reflexivity|]. split; [exact V4|]. split; [exact F4|].
           split; [split; [reflexivity|left; apply L4; lia]|].
           split; [reflexivity|discriminate].
        -- eexists _, (digits 16 c), false.
           split; [reflexivity|]. split; [exact V|]. split; [exact F|].
           split; [split; [reflexivity|right; split; [apply L3; lia|]]|].
           { reflexivity. }
           split; [reflexivity|discriminate].
    + apply Z.leb_gt in E16. fold nextHexW.
      eexists _, (digits 16 c), nextHexW.
      split; [reflexivity|]. split; [exact V|]. split; [exact F|].
      split; [split; [reflexivity|apply L5; lia]|].
      split; [reflexivity|].
      intros Hb fuel. rewrite Hb. reflexivity.
Qed.

Lemma unicode_escape_digits_witness :
  exists st' ds brk,
    utf8Emit unicodeEscapes 0x1F600 false
      (snd (getUtf8CodePoint (utf8_init [0xF0; 0x9F; 0x98; 0x80; 65]))) []
    = (st', [] ++ ch_backslash :: ch_U :: ds, brk)
    /\ digitsValue 16 ds = 0x1F600.
Proof.
  assert (Hwf : wf (snd (getUtf8CodePoint
                           (utf8_init [0xF0; 0x9F; 0x98; 0x80; 65])))).
  { apply get_spec, wf_init. repeat constructor; unfold byte; lia. }
  destruct (@unicode_escape_digits isprint (fun _ => false) unicodeEscapes
              (snd (getUtf8CodePoint
                      (utf8_init [0xF0; 0x9F; 0x98; 0x80; 65])))
              {| wchars := []; undecodable := false;
                 errnoIsEILSEQ := false |}
              0x1F600 [] Hwf eq_refl)
    as [(st' & ds & brk & E & V & _) _].
  - vm_compute. discriminate.
  - lia.
  - exists st', ds, brk. split; [exact E|exact V].
Defined.

(** ** The bytes inside a sequence *)

Lemma low6 b : Z.land b 0x3F = b mod 64.
Proof. change 0x3F with (Z.ones 6). rewrite Z.land_ones by lia. reflexivity. Qed.

Lemma cp3_any a b c :
  0xE0 <= a <= 0xEF -> isContinuation c ->
  cp3 a b c = (a - 0xE0) * 4096 + (b mod 64) * 64 + (c - 0x80).
Proof.
  intros Ha Hc. unfold cp3.
  destruct (lead3_facts Ha) as (_ & _ & _ & _ & ->).
  destruct (cont_facts Hc) as (_ & ->).
  rewrite low6. assert (Hb := Z.mod_pos_bound b 64 ltac:(lia)).
  unfold isContinuation in *.
  rewrite (Z.shiftl_mul_pow2 (b mod 64) 6) by lia.
  rewrite lor_add by lia.
  replace ((a - 224) * 2 ^ 12 + b mod 64 * 2 ^ 6)
    with (Z.shiftl ((a - 224) * 64 + b mod 64) 6)
    by (rewrite Z.shiftl_mul_pow2 by lia; lia).
  rewrite lor_add by lia. lia.
Qed.

Lemma cp4_any a b c d :
  0xF0 <= a <= 0xF7 -> isContinuation d ->
  cp4 a b c d
  = (a - 0xF0) * 262144 + (b mod 64) * 4096 + (c mod 64) * 64 + (d - 0x80).
Proof.
  intros Ha Hd. unfold cp4.
  destruct (lead4_facts Ha) as (_ & _ & _ & _ & _ & ->).
  destruct (cont_facts Hd) as (_ & ->).
  rewrite !low6. assert (Hb := Z.mod_pos_bound b 64 ltac:(lia)).
  assert (Hc := Z.mod_pos_bound c 64 ltac:(lia)).
  unfold isContinuation in *.
  rewrite (Z.shiftl_mul_pow2 (b mod 64) 12) by lia.
  rewrite (Z.shiftl_mul_pow2 (c mod 64) 6) by lia.
  rewrite lor_add by lia.
  replace ((a - 240) * 2 ^ 18 + b mod 64 * 2 ^ 12)
    with (Z.shiftl ((a - 240) * 64 + b mod 64) 12)
    by (rewrite Z.shiftl_mul_pow2 by lia; lia).
  rewrite lor_add by lia.
  replace (((a - 240) * 64 + b mod 64) * 2 ^ 12 + c mod 64 * 2 ^ 6)
    with (Z.shiftl (((a - 240) * 64 + b mod 64) * 64 + c mod 64) 6)
    by (rewrite Z.shiftl_mul_pow2 by lia; lia).
  rewrite lor_add by lia. lia.
Qed.

Section MiddleBytes.
Local Arguments Z.ltb : simpl never.
Local Arguments Z.leb : simpl never.
Local Arguments Z.eqb : simpl never.
Local Arguments Z.modulo : simpl never.
Local Arguments Z.mul : simpl never.
Local Arguments Z.add : simpl never.
Local Arguments Z.sub : simpl never.
Local Arguments bitset : simpl never.
Local Arguments isCont : simpl never.
Local Arguments cp2 : simpl never.
Local Arguments cp3 : simpl never.
Local Arguments cp4 : simpl never.
Local Arguments to_uchar : simpl never.
Local Arguments getc : simpl nomatch.

Lemma decode3_any a b c rest :
  0xE0 <= a <= 0xEF -> byte b -> isContinuation c ->
  view (getUtf8CodePoint (utf8_init (a :: b :: c :: rest))) =
  let v := (a - 0xE0) * 4096 + (b mod 64) * 64 + (c - 0x80) in
  if (v <? 0x800) || ((0xD800 <=? v) && (v <=? 0xDFFF))
  then (a, 0%nat, [], b :: c :: rest)
  else (v, 3%nat, [a; b; c], rest).
Proof.
  intros Ha Bb Hc.
  assert (Ba : byte a) by (unfold byte; lia).
  assert (Bc := cont_byte Hc).
  destruct (lead3_facts Ha) as (L1 & L2 & L3 & L4 & _).
  destruct (cont_facts Hc) as (C1 & _).
  unfold getUtf8CodePoint, utf8_init; cbn; unfold readInto; cbn.
  byte_rw. rewrite L1, L2. cbn; unfold readInto; cbn. rewrite L3.
  cbn; unfold readInto; cbn. rewrite L4, C1.
  rewrite (cp3_any b Ha Hc). cbn.
  set (v := (a - 224) * 4096 + b mod 64 * 64 + (c - 128)).
  destruct (Z.ltb_spec v 2048), (Z.ltb_spec 2047 v),
    (Z.leb_spec 55296 v), (Z.leb_spec v 57343),
    (Z.ltb_spec v 55296), (Z.ltb_spec 57343 v);
    try lia; cbn; byte_rw; reflexivity.
Qed.

Lemma decode4_any a b c d rest :
  0xF0 <= a <= 0xF7 -> byte b -> byte c -> isContinuation d ->
  view (getUtf8CodePoint (utf8_init (a :: b :: c :: d :: rest))) =
  let v := (a - 0xF0) * 262144 + (b mod 64) * 4096 + (c mod 64) * 64
           + (d - 0x80) in
  if (v <? 0x10000) || (0x10FFFF <? v)
  then (a, 0%nat, [], b :: c :: d :: rest)
  else (v, 4%nat, [a; b; c; d], rest).
Proof.
  intros Ha Bb Bc Hd.
  assert (Ba : byte a) by (unfold byte; lia).
  assert (Bd := cont_byte Hd).
  destruct (lead4_facts Ha) as (L1 & L2 & L3 & L4 & L5 & _).
  destruct (cont_facts Hd) as (C1 & _).
  unfold getUtf8CodePoint, utf8_init; cbn; unfold readInto; cbn.
  byte_rw. rewrite L1, L2. cbn; unfold readInto; cbn. rewrite L3.
  cbn; unfold readInto; cbn. rewrite L4, L5. cbn; unfold readInto; cbn.
  rewrite C1.
  rewrite (cp4_any b c Ha Hd). cbn.
  set (v := (a - 240) * 262144 + b mod 64 * 4096 + c mod 64 * 64
            + (d - 128)).
  destruct (Z.ltb_spec v 65536), (Z.ltb_spec 65535 v),
    (Z.ltb_spec v 1114112), (Z.ltb_spec 1114111 v);
    try lia; cbn; byte_rw; reflexivity.
Qed.
End MiddleBytes.

(** X11: [getUtf8CodePoint] tests the last byte of a sequence and no other:
    whatever byte stands second in a sequence of three bytes, or second and
    third in a sequence of four (an ASCII character, a null), the sequence
    is decoded with the six low bits of that byte, under the same tests of
    range as a well formed one; the byte is then part of the code point
    and is not seen by the loop. *)
Theorem inner_bytes_unvalidated (st : utf8) (Hwf : wf st) :
  (forall a b c rest,
      pending st = a :: b :: c :: rest ->
      0xE0 <= a <= 0xEF -> isContinuation c ->
      view (getUtf8CodePoint st) =
      let v := (a - 0xE0) * 4096 + (b mod 64) * 64 + (c - 0x80) in
      if (v <? 0x800) || ((0xD800 <=? v) && (v <=? 0xDFFF))
      then (a, 0%nat, [], b :: c :: rest)
      else (v, 3%nat, [a; b; c], rest))
  /\ (forall a b c d rest,
         pending st = a :: b :: c :: d :: rest ->
         0xF0 <= a <= 0xF7 -> isContinuation d ->
         view (getUtf8CodePoint st) =
         let v := (a - 0xF0) * 262144 + (b mod 64) * 4096 + (c mod 64) * 64
                  + (d - 0x80) in
         if (v <? 0x10000) || (0x10FFFF <? v)
         then (a, 0%nat, [], b :: c :: d :: rest)
         else (v, 4%nat, [a; b; c; d], rest)).
Proof.
  assert (Hb := pending_bytes Hwf).
  split.
  - intros a b c rest Hp Ha Hc. destruct (get_spec Hwf) as (_ & -> & _).
    rewrite Hp in *. inversion Hb as [|? ? _ Hb1]; subst.
    inversion Hb1; subst. apply decode3_any; assumption.
  - intros a b c d rest Hp Ha Hd. destruct (get_spec Hwf) as (_ & -> & _).
    rewrite Hp in *. inversion Hb as [|? ? _ Hb1]; subst.
    inversion Hb1 as [|? ? ? Hb2]; subst. inversion Hb2; subst.
    apply decode4_any; assumption.
Qed.

Lemma inner_bytes_unvalidated_witness :
  view (getUtf8CodePoint (utf8_init [0xE1; 0; 0x80; 97]))
  = (0x1000, 3%nat, [0xE1; 0; 0x80], [97]).
Proof.
  refine (proj1 (@inner_bytes_unvalidated (utf8_init [0xE1; 0; 0x80; 97]) _)
                0xE1 0 0x80 [97] eq_refl _ _).
  - apply wf_init. repeat constructor; unfold byte; lia.
  - lia.
  - unfold isContinuation. lia.
Defined.

(** ** The status of the wide character loop *)

Lemma wideInv_weaken u c c' ws :
  c' <> WEOF -> wideInv u c ws -> wideInv u c' ws.
Proof.
  intros Hc (H1 & H2 & H3 & _). repeat split; try assumption.
  intros E. contradiction.
Qed.

Lemma wideChar_not_WEOF c : wideChar c = true -> c <> WEOF.
Proof.
  unfold wideChar. intros H E. subst c. apply andb_prop in H.
  destruct H as [_ H]. discriminate.
Qed.

Lemma wideChar_false c : wideChar c = false -> c = 0 \/ c = WEOF.
Proof.
  unfold wideChar. intros H. apply andb_false_iff in H.
  destruct H as [H|H]; apply negb_false_iff, Z.eqb_eq in H; auto.
Qed.

Lemma getwc_inv u c ws :
  wideInv u c ws -> wideInv u (fst (getwc ws)) (snd (getwc ws)).
Proof.
  intros (H1 & H2 & H3 & _). unfold getwc.
  destruct (wchars ws) as [|x l] eqn:E; cbn [fst snd].
  - unfold wideInv. cbn [undecodable wchars errnoIsEILSEQ]. rewrite H1.
    split; [reflexivity|]. split; [constructor|].
    destruct (errnoIsEILSEQ ws); cbn [orb].
    + rewrite (H3 eq_refl). auto.
    + auto.
  - inversion H2; subst. unfold wideInv.
    cbn [undecodable wchars errnoIsEILSEQ].
    repeat split; try assumption. intros Hx. contradiction.
Qed.

Lemma peekwc_inv u c ws : wideInv u c ws -> wideInv u c (snd (peekwc ws)).
Proof.
  intros (H1 & H2 & H3 & H4). unfold peekwc, getwc.
  destruct (wchars ws) as [|x l] eqn:E; cbn [fst snd]; unfold wideInv;
    cbn [undecodable wchars errnoIsEILSEQ]; rewrite ?E.
  - split; [exact H1|]. split; [constructor|].
    rewrite H1. destruct (errnoIsEILSEQ ws); cbn [orb].
    + rewrite (H3 eq_refl). auto.
    + split; [auto|]. intros Hc. reflexivity.
  - repeat split; assumption.
Qed.

Section WideStatus.
Variables iswprint iswspace : Z -> bool.
Variable o : options.
Variable u : bool.

Lemma wideEmit_inv c0 c isP ws out :
  wideInv u c0 ws -> wideInv u c0 (fst (fst (wideEmit o c isP ws out))).
Proof.
  intros H. assert (P := peekwc_inv H). unfold wideEmit.
  destruct (peekwc ws) as [n ws']. cbn [snd] in P.
  repeat match goal with
  | |- context [if ?b then _ else _] => destruct b
  end; cbn [fst]; assumption.
Qed.

Lemma wideRaw_inv fuel : forall c ws out c' ws' out',
  wideInv u 0 ws -> wideRaw fuel c ws out = Some (c', ws', out') ->
  wideInv u c' ws'.
Proof.
  induction fuel as [|fuel IH]; intros c ws out c' ws' out' Hi;
    [discriminate|].
  cbn [wideRaw]. assert (G := getwc_inv Hi).
  destruct (getwc ws) as [c1 ws1]. cbn [fst snd] in G.
  destruct (wideChar c1 && negb (ch_quote =? c1)) eqn:E.
  - apply IH. apply andb_prop in E. destruct E as [E _].
    apply wideInv_weaken with c1; [discriminate|exact G].
  - intros H. inversion H; subst. exact G.
Qed.

Lemma wideQuoted_inv fuel : forall c isP ws out c' ws' out',
  c <> WEOF -> wideInv u 0 ws ->
  wideQuoted iswprint iswspace o fuel c isP ws out = Some (c', ws', out') ->
  wideInv u c' ws'.
Proof.
  induction fuel as [|fuel IH]; intros c isP ws out c' ws' out' Hc Hi;
    [discriminate|].
  cbn [wideQuoted]. assert (G := wideEmit_inv c isP out Hi).
  destruct (wideEmit o c isP ws out) as [[ws1 out1] brk]. cbn [fst] in G.
  destruct brk.
  - intros H. inversion H; subst.
    apply wideInv_weaken with 0; assumption.
  - assert (G2 := getwc_inv G).
    destruct (getwc ws1) as [c2 ws2]. cbn [fst snd] in G2.
    destruct (wideChar c2) eqn:E.
    + apply IH; [apply wideChar_not_WEOF, E|].
      apply wideInv_weaken with c2; [discriminate|exact G2].
    + intros H. inversion H; subst. exact G2.
Qed.

Lemma wideRecord_inv fuel : forall jump c ws out c' ws' out',
  c <> WEOF -> wideInv u 0 ws ->
  wideRecord iswprint iswspace o fuel jump c ws out = Some (c', ws', out') ->
  wideInv u c' ws' /\ wideChar c' = false.
Proof.
  induction fuel as [|fuel IH]; intros jump c ws out c' ws' out' Hc Hi;
    [discriminate|].
  assert (Hnext : forall ws0 out0 c0, wideInv u c0 ws0 ->
             wideNext iswprint iswspace o fuel ws0 out0
             = Some (c', ws', out') ->
             wideInv u c' ws' /\ wideChar c' = false).
  { intros ws0 out0 c0 H0. unfold wideNext. assert (G := getwc_inv H0).
    destruct (getwc ws0) as [c1 ws1]. cbn [fst snd] in G.
    destruct (wideChar c1) eqn:E.
    - apply IH; [apply wideChar_not_WEOF, E|].
      apply wideInv_weaken with c1; [discriminate|exact G].
    - intros H. inversion H; subst. split; assumption. }
  rewrite wideRecord_unfold. cbv zeta.
  destruct (jump || wideRecord_isShControl c
            || negb (if jump then true
                     else disableCQuoting o
                          || callIswprintFn iswprint iswspace o c));
    [|apply Hnext with 0, Hi].
  destruct (ch_quote =? c); [apply Hnext with 0, Hi|].
  destruct (if disableCQuoting o
            then wideRaw fuel c ws (out ++ [ch_quote])
            else wideQuoted iswprint iswspace o fuel c
                   (if jump then true
                    else disableCQuoting o
                         || callIswprintFn iswprint iswspace o c)
                   ws (out ++ s_dollar_quote))
    as [[[c1 ws1] out1]|] eqn:Eq; [|discriminate].
  assert (G : wideInv u c1 ws1).
  { destruct (disableCQuoting o).
    - eapply wideRaw_inv; eassumption.
    - eapply wideQuoted_inv; eassumption. }
  destruct (ch_quote =? c1); [apply Hnext with c1, G|].
  destruct (negb (wideChar c1)) eqn:E; [|apply Hnext with c1, G].
  intros H. inversion H; subst. split; [exact G|].
  apply negb_true_iff, E.
Qed.

Lemma wideRecords_inv fuel : forall jump c ws out ws' out',
  (jump = true -> c <> WEOF) -> wideInv u c ws ->
  wideRecords iswprint iswspace o None fuel jump c ws out
  = Some (ws', out') ->
  errnoIsEILSEQ ws' = u.
Proof.
  induction fuel as [|fuel IH]; intros jump c ws out ws' out' Hj Hi;
    [discriminate|].
  cbn [wideRecords].
  destruct (if jump || wideChar c
            then wideRecord iswprint iswspace o fuel jump c ws out
            else Some (c, ws, out ++ s_quote_quote))
    as [[[c1 ws1] out1]|] eqn:E1; [|discriminate].
  assert (G : wideInv u c1 ws1 /\ wideChar c1 = false).
  { destruct (jump || wideChar c) eqn:Ej.
    - apply orb_true_iff in Ej.
      assert (Hc : c <> WEOF)
        by (destruct Ej as [Ej|Ej];
            [apply Hj, Ej|apply wideChar_not_WEOF, Ej]).
      eapply wideRecord_inv; [exact Hc| |exact E1].
      apply wideInv_weaken with c; [discriminate|exact Hi].
    - inversion E1; subst. apply orb_false_elim in Ej. tauto. }
  destruct G as [G Hw]. unfold wideBetween. rewrite separator_none.
  destruct (0 =? c1) eqn:E0.
  - assert (G2 := getwc_inv G).
    destruct (getwc ws1) as [c2 ws2]. cbn [fst snd] in G2.
    destruct (WEOF =? c2) eqn:Ew; cbn [negb].
    + apply Z.eqb_eq in Ew. intros H. inversion H; subst.
      destruct G2 as (_ & _ & _ & G4). apply G4. reflexivity.
    + apply Z.eqb_neq in Ew.
      destruct (ch_tilde =? c2); cbn [andb];
        (apply IH; [intros _; congruence|exact G2]).
  - apply Z.eqb_neq in E0. intros H. inversion H; subst.
    destruct (wideChar_false _ Hw) as [Hz|Hz]; [congruence|].
    destruct G as (_ & _ & _ & G4). apply G4, Hz.
Qed.
End WideStatus.

(** X12: in a locale whose encoding is neither UTF-8 nor ASCII, when every
    write succeeds and no character read is [WEOF] itself, the status of
    the run tells whether the input could be decoded to its end: it is
    [EILSEQ] when the C library meets a sequence that it cannot decode, and
    0 otherwise, whatever the options. *)
Theorem undecodable_input_status
        (p : platform) (o : options) (input ws : list Z) (bad : bool)
        (Hlocale : setlocaleOk p = true) (Hcharmap : charmap p = CsOther)
        (Hroom : stdoutRoom p = None)
        (Hdecode : mbDecode p input = (ws, bad))
        (Hws : Forall (fun x => x <> WEOF) ws) :
  exists out,
    engine p o input = Some (Ran out (if bad then EILSEQ else 0)).
Proof.
  unfold engine, useNarrow. rewrite Hlocale, Hcharmap, Hroom, Hdecode.
  cbn [negb orb andb].
  destruct (wideLoop_total (p_iswprint p) (p_iswspace p) o None
              {| wchars := ws; undecodable := bad;
                 errnoIsEILSEQ := false |}) as ([out st] & E).
  rewrite E. exists (flat_map (wcEncode p) (written None out)).
  do 2 f_equal.
  unfold wideLoop in E.
  set (ws0 := {| wchars := ws; undecodable := bad;
                 errnoIsEILSEQ := false |}) in *.
  assert (H0 : wideInv bad 0 ws0).
  { unfold wideInv, ws0. cbn. repeat split; try assumption;
      intros; discriminate. }
  assert (G := getwc_inv H0).
  destruct (getwc ws0) as [c ws1]. cbn [fst snd] in G.
  destruct (wideRecords (p_iswprint p) (p_iswspace p) o None
              (length (wchars ws0) + 2) (ch_tilde =? c) c ws1 [])
    as [[ws' out']|] eqn:Er; [|discriminate].
  inversion E; subst.
  assert (Hfin : errnoIsEILSEQ ws' = bad).
  { eapply wideRecords_inv; [|exact G|exact Er].
    intros Ht. apply Z.eqb_eq in Ht. subst c. discriminate. }
  rewrite Hfin. reflexivity.
Qed.

Lemma undecodable_input_status_witness :
  exists out,
    engine {| setlocaleOk := true; charmap := CsOther;
              p_iswprint := isprint; p_iswspace := fun _ => false;
              mbDecode := fun l => (firstn 2 l, true);
              wcEncode := fun c => [c];
              forkOk := true; pipeRoom := None; stdoutRoom := None |}
           defaults [97; 10; 200]
    = Some (Ran out EILSEQ).
Proof.
  apply (@undecodable_input_status
           {| setlocaleOk := true; charmap := CsOther;
              p_iswprint := isprint; p_iswspace := fun _ => false;
              mbDecode := fun l => (firstn 2 l, true);
              wcEncode := fun c => [c];
              forkOk := true; pipeRoom := None; stdoutRoom := None |}
           defaults [97; 10; 200] [97; 10] true);
    try reflexivity.
  repeat constructor; discriminate.
Defined.

(** ** Reading the output back *)

Lemma shThen_nil r : shThen [] r = r.
Proof. destruct r as [[m ev]|]; reflexivity. Qed.

Lemma shThen_shThen a b r : shThen a (shThen b r) = shThen (a ++ b) r.
Proof.
  destruct r as [[m ev]|]; [|reflexivity]. cbn [shThen].
  rewrite app_assoc. reflexivity.
Qed.

Lemma shRun_app m l1 : forall l2,
  shRun m (l1 ++ l2)
  = match shRun m l1 with
    | Some (m1, e1) => shThen e1 (shRun m1 l2)
    | None => None
    end.
Proof.
  revert m. induction l1 as [|x l1 IH]; intros m l2; cbn [app shRun].
  - rewrite shThen_nil. reflexivity.
  - destruct (shStep m x) as [[m' ev]|]; [|reflexivity].
    rewrite IH. destruct (shRun m' l1) as [[m1 e1]|]; [|reflexivity].
    cbn [shThen]. rewrite shThen_shThen. reflexivity.
Qed.

Lemma shBuild_bytes r : forall cur ev,
  shBuild cur (map EByte r ++ ev) = shBuild (cur ++ r) ev.
Proof.
  induction r as [|b r IH]; intros cur ev; cbn [map app shBuild].
  - rewrite app_nil_r. reflexivity.
  - rewrite IH, <- app_assoc. reflexivity.
Qed.

Lemma shBuild_events ws :
  ws <> [] -> shBuild [] (shEvents ws ++ [EEnd]) = ws.
Proof.
  induction ws as [|w ws IH]; intros Hne; [congruence|].
  destruct ws as [|w2 ws].
  - cbn [shEvents]. rewrite shBuild_bytes. reflexivity.
  - change (shEvents (w :: w2 :: ws))
      with (map EByte w ++ EEnd :: shEvents (w2 :: ws)).
    rewrite <- app_assoc, shBuild_bytes. cbn [app shBuild].
    rewrite IH by discriminate. reflexivity.
Qed.

Lemma recordByte_byte c : recordByte c -> byte c.
Proof. unfold recordByte, byte. lia. Qed.

Lemma read_octal3 c :
  recordByte c -> shRun MAnsi (fmt_3o c) = Some (MAnsi, [EByte c]).
Proof.
  intros Hc.
  assert (H : match shRun MAnsi (fmt_3o c) with
              | Some (MAnsi, [EByte b]) => b =? c
              | _ => false
              end = true).
  { apply (@byte_range 1 255
             (fun c => match shRun MAnsi (fmt_3o c) with
                       | Some (MAnsi, [EByte b]) => b =? c
                       | _ => false
                       end));
      [vm_compute; reflexivity|lia|lia|unfold recordByte in Hc; lia]. }
  destruct (shRun MAnsi (fmt_3o c)) as [[[] [|[b|] [|? ?]]]|];
    try discriminate.
  apply Z.eqb_eq in H. subst b. reflexivity.
Qed.

Lemma read_octal_short c :
  0 < c <= 63 ->
  exists n, shRun MAnsi (fmt_o c) = Some (MAnsiOctal n c, []).
Proof.
  intros Hc.
  assert (H : match shRun MAnsi (fmt_o c) with
              | Some (MAnsiOctal n v, []) => v =? c
              | _ => false
              end = true).
  { apply (@byte_range 1 63
             (fun c => match shRun MAnsi (fmt_o c) with
                       | Some (MAnsiOctal n v, []) => v =? c
                       | _ => false
                       end));
      [vm_compute; reflexivity|lia|lia|lia]. }
  destruct (shRun MAnsi (fmt_o c)) as [[[| | | | | | |n v] [|? ?]]|];
    try discriminate.
  apply Z.eqb_eq in H. subst v. exists n. reflexivity.
Qed.

Lemma read_named c :
  7 <= c <= 13 \/ c = 27 ->
  shRun MAnsi (fmt_c c) = Some (MAnsi, [EByte c]).
Proof.
  intros Hc.
  assert (H : implb ((c <=? 13) || (c =? 27))
                    match shRun MAnsi (fmt_c c) with
                    | Some (MAnsi, [EByte b]) => b =? c
                    | _ => false
                    end = true).
  { apply (@byte_range 7 27
             (fun c => implb ((c <=? 13) || (c =? 27))
                             match shRun MAnsi (fmt_c c) with
                             | Some (MAnsi, [EByte b]) => b =? c
                             | _ => false
                             end));
      [vm_compute; reflexivity|lia|lia|lia]. }
  replace ((c <=? 13) || (c =? 27)) with true in H.
  - cbn [implb] in H.
    destruct (shRun MAnsi (fmt_c c)) as [[[] [|[b|] [|? ?]]]|];
      try discriminate.
    apply Z.eqb_eq in H. subst b. reflexivity.
  - symmetry. apply orb_true_iff. destruct Hc as [Hc| ->].
    + left. apply Z.leb_le. lia.
    + right. reflexivity.
Qed.

Lemma read_literal c :
  recordByte c -> c <> 39 -> c <> 92 ->
  shRun MAnsi [c] = Some (MAnsi, [EByte c]).
Proof.
  intros Hc H1 H2. unfold recordByte in Hc. cbn [shRun]. unfold shStep, ansiStep.
  replace (c =? 0) with false by (symmetry; apply Z.eqb_neq; lia).
  replace (c =? 39) with false by (symmetry; apply Z.eqb_neq; lia).
  replace (c =? 92) with false by (symmetry; apply Z.eqb_neq; lia).
  reflexivity.
Qed.

Lemma read_pending n v x k :
  isOctalDigit x = false ->
  shRun (MAnsiOctal n v) (x :: k)
  = shThen [EByte (v mod 256)] (shRun MAnsi (x :: k)).
Proof.
  intros Hx. cbn [shRun]. unfold shStep. rewrite Hx.
  destruct (x =? 0); [reflexivity|].
  destruct (ansiStep x) as [[m' ev]|]; [|reflexivity].
  rewrite shThen_shThen. reflexivity.
Qed.

(** What the reader makes, inside [$'...'], of the bytes written for one
    byte of a record: the byte, at once or once a character that is no
    octal digit follows. *)
Lemma read_emit o c s :
  ansiEscapesLimit o = 14 \/ ansiEscapesLimit o = 28 ->
  recordByte c ->
  (exists x t', narrowEmit o c (isprint c) s [] = x :: t'
                /\ (x = 92 \/ x = c))
  /\ (shRun MAnsi (narrowEmit o c (isprint c) s [])
      = Some (MAnsi, [EByte c])
      \/ (exists n, shRun MAnsi (narrowEmit o c (isprint c) s [])
                    = Some (MAnsiOctal n c, [])
                    /\ isOctalDigit (fst (getc s)) = false)).
Proof.
  intros Hl Hc. assert (Bc := recordByte_byte Hc).
  unfold narrowEmit. cbn [app].
  destruct (isprint c) eqn:Ep.
  - destruct (Z.eqb_spec ch_backslash c) as [<-|H1];
      [split; [eexists _, _; split; [reflexivity|left; reflexivity]
              |left; reflexivity]|].
    destruct (Z.eqb_spec ch_quote c) as [<-|H2];
      [split; [eexists _, _; split; [reflexivity|left; reflexivity]
              |left; reflexivity]|].
    rewrite (to_uchar_byte Bc).
    split; [eexists _, _; split; [reflexivity|right; reflexivity]|].
    left. apply read_literal; [exact Hc| |]; intros ->;
      [apply H2|apply H1]; reflexivity.
  - destruct (hasAnsiEscape (ansiEscapesLimit o) c) eqn:Ea.
    + split; [eexists _, _; split; [reflexivity|left; reflexivity]|].
      left. apply read_named.
      rewrite hasAnsiEscape_closed in Ea by exact Hl.
      apply orb_true_iff in Ea. destruct Ea as [Ea|Ea];
        apply andb_prop in Ea; destruct Ea as [E1 E2].
      * apply Z.leb_le in E1, E2. left. lia.
      * apply Z.eqb_eq in E1. right. exact E1.
    + destruct (63 <? c) eqn:E63; cbn [orb].
      * split; [eexists _, _; split; [reflexivity|left; reflexivity]|].
        left. apply read_octal3, Hc.
      * apply Z.ltb_ge in E63.
        replace ((fst (getc s) <=? ch_7) && (ch_0 <=? fst (getc s)))
          with (isOctalDigit (fst (getc s)))
          by (unfold isOctalDigit; apply andb_comm).
        destruct (isOctalDigit (fst (getc s))) eqn:Eo.
        -- split; [eexists _, _; split; [reflexivity|left; reflexivity]|].
           left. apply read_octal3, Hc.
        -- split; [eexists _, _; split; [reflexivity|left; reflexivity]|].
           right. unfold recordByte in Hc.
           destruct (@read_octal_short c ltac:(lia)) as (n & E).
           exists n. split; [exact E|reflexivity].
Qed.

Lemma read_close_ansi k : shRun MAnsi (ch_quote :: k) = shRun MWord k.
Proof.
  cbn [shRun].
  change (shStep MAnsi ch_quote) with (Some (MWord, @nil shEvent)).
  apply shThen_nil.
Qed.

(** The quoted region of the byte oriented loop, read back: it holds the
    bytes of the record from [c] to its end. *)
Lemma read_quoted o s : forall c,
  ansiEscapesLimit o = 14 \/ ansiEscapesLimit o = 28 ->
  Forall recordByte (c :: s) ->
  exists x t,
    narrowQuoted o s c (isprint c) [] = (EOF, [], x :: t)
    /\ (x = 92 \/ x = c)
    /\ forall k,
         shRun MAnsi ((x :: t) ++ ch_quote :: k)
         = shThen (map EByte (c :: s)) (shRun MWord k).
Proof.
  induction s as [|b s IH]; intros c Hl Hcs;
    inversion Hcs as [|? ? Hc Hs]; subst; cbn [narrowQuoted].
  - destruct (read_emit o [] Hl Hc) as [(x & t & Et & Hx) Hr].
    rewrite Et in *. exists x, t. split; [reflexivity|]. split; [exact Hx|].
    intros k. rewrite shRun_app.
    destruct Hr as [Hr|(n & Hr & _)]; rewrite Hr.
    + rewrite read_close_ansi. reflexivity.
    + rewrite read_pending by reflexivity. rewrite read_close_ansi.
      unfold recordByte in Hc. rewrite Z.mod_small by lia.
      rewrite shThen_nil. reflexivity.
  - inversion Hs as [|? ? Hb Hs']; subst.
    assert (Hb0 : (0 <? b) = true) by (apply Z.ltb_lt; unfold recordByte in Hb; lia).
    rewrite Hb0, narrowQuoted_app.
    destruct (IH b Hl Hs) as (y & t' & Eq & Hy & Hk).
    rewrite Eq.
    destruct (read_emit o (b :: s) Hl Hc) as [(x & t & Et & Hx) Hr].
    rewrite Et in *. exists x, (t ++ y :: t').
    split; [reflexivity|]. split; [exact Hx|].
    intros k. change ((x :: t ++ y :: t') ++ ch_quote :: k)
      with ((x :: t) ++ ((y :: t') ++ ch_quote :: k)) at 1
      || (rewrite app_comm_cons, <- app_assoc).
    rewrite shRun_app.
    destruct Hr as [Hr|(n & Hr & Ho)]; rewrite Hr.
    + rewrite Hk. rewrite shThen_shThen. reflexivity.
    + cbn [getc fst] in Ho. cbn [app].
      assert (Hyo : isOctalDigit y = false).
      { destruct Hy as [-> | ->]; [reflexivity|exact Ho]. }
      rewrite read_pending by exact Hyo.
      change (y :: t' ++ ch_quote :: k) with ((y :: t') ++ ch_quote :: k).
      rewrite Hk. unfold recordByte in Hc. rewrite Z.mod_small by lia.
      rewrite !shThen_shThen. reflexivity.
Qed.

Lemma read_single x k :
  recordByte x -> x <> ch_quote ->
  shRun MSingle (x :: k) = shThen [EByte x] (shRun MSingle k).
Proof.
  intros Hx Hq. unfold recordByte in Hx. cbn [shRun]. unfold shStep.
  replace (x =? 0) with false by (symmetry; apply Z.eqb_neq; lia).
  replace (x =? 39) with false by (symmetry; apply Z.eqb_neq; exact Hq).
  reflexivity.
Qed.

Lemma read_close_single k : shRun MSingle (ch_quote :: k) = shRun MWord k.
Proof.
  cbn [shRun].
  change (shStep MSingle ch_quote) with (Some (MWord, @nil shEvent)).
  apply shThen_nil.
Qed.

(** The region between single quotes that the loop writes when ANSI-C
    quoting is disabled, read back: it holds the bytes of the record from
    [c] up to the next single quote. *)
Lemma read_raw s : forall c,
  Forall recordByte (c :: s) -> c <> ch_quote ->
  exists pre b s',
    narrowRaw s c [] = (b, s', c :: pre)
    /\ ((b = EOF /\ s' = [] /\ s = pre)
        \/ (b = ch_quote /\ s = pre ++ ch_quote :: s'))
    /\ forall k,
         shRun MSingle ((c :: pre) ++ ch_quote :: k)
         = shThen (map EByte (c :: pre)) (shRun MWord k).
Proof.
  induction s as [|b s IH]; intros c Hcs Hq;
    inversion Hcs as [|? ? Hc Hs]; subst; cbn [narrowRaw app];
    rewrite (to_uchar_byte (recordByte_byte Hc)).
  - exists [], EOF, []. split; [reflexivity|]. split; [left; auto|].
    intros k. cbn [app]. rewrite read_single, read_close_single by assumption.
    reflexivity.
  - inversion Hs as [|? ? Hb Hs']; subst.
    assert (Hb0 : (0 <? b) = true)
      by (apply Z.ltb_lt; unfold recordByte in Hb; lia).
    rewrite Hb0. cbn [andb].
    destruct (Z.eqb_spec ch_quote b) as [<-|Hbq]; cbn [negb].
    + exists [], ch_quote, s. split; [reflexivity|].
      split; [right; auto|].
      intros k. cbn [app].
      rewrite read_single, read_close_single by assumption. reflexivity.
    + destruct (IH b Hs ltac:(congruence)) as (pre & b' & s' & E & Hcase & Hk).
      rewrite narrowRaw_app, E.
      exists (b :: pre), b', s'. split; [reflexivity|]. split.
      * destruct Hcase as [(-> & -> & ->)|(-> & ->)]; [left|right]; auto.
      * intros k. cbn [app]. rewrite read_single by assumption.
        cbn [app] in Hk. rewrite Hk, shThen_shThen. reflexivity.
Qed.

Lemma read_unquoted c :
  recordByte c -> isShControl c = false ->
  shStep MWord c = Some (MWord, [EByte c])
  /\ (c <> ch_tilde -> shStep MStart c = Some (MWord, [EByte c])).
Proof.
  intros Hc Hs. unfold recordByte in Hc.
  assert (H : implb (negb (isShControl c))
                (match shStep MWord c with
                 | Some (MWord, [EByte b]) => b =? c
                 | _ => false
                 end
                 && ((c =? ch_tilde)
                     || match shStep MStart c with
                        | Some (MWord, [EByte b]) => b =? c
                        | _ => false
                        end)) = true).
  { apply (@byte_range 1 255
             (fun c => implb (negb (isShControl c))
                (match shStep MWord c with
                 | Some (MWord, [EByte b]) => b =? c
                 | _ => false
                 end
                 && ((c =? ch_tilde)
                     || match shStep MStart c with
                        | Some (MWord, [EByte b]) => b =? c
                        | _ => false
                        end))));
      [vm_compute; reflexivity|lia|lia|lia]. }
  rewrite Hs in H. cbn [negb implb] in H. apply andb_prop in H.
  destruct H as [H1 H2]. split.
  - destruct (shStep MWord c) as [[[] [|[b|] [|? ?]]]|]; try discriminate.
    apply Z.eqb_eq in H1. subst b. reflexivity.
  - intros Ht. apply orb_true_iff in H2. destruct H2 as [H2|H2];
      [apply Z.eqb_eq in H2; contradiction|].
    destruct (shStep MStart c) as [[[] [|[b|] [|? ?]]]|]; try discriminate.
    apply Z.eqb_eq in H2. subst b. reflexivity.
Qed.

Lemma shRun_cons m x k m' ev :
  shStep m x = Some (m', ev) -> shRun m (x :: k) = shThen ev (shRun m' k).
Proof. intros E. cbn [shRun]. rewrite E. reflexivity. Qed.

Lemma read_bs_quote m0 k :
  m0 = MStart \/ m0 = MWord ->
  shRun m0 (s_bs_quote ++ k) = shThen [EByte ch_quote] (shRun MWord k).
Proof.
  intros [-> | ->]; cbn [s_bs_quote app].
  - rewrite (@shRun_cons MStart ch_backslash _ MBackslash [] eq_refl),
            (@shRun_cons MBackslash ch_quote _ MWord [EByte ch_quote]
               eq_refl), shThen_nil.
    reflexivity.
  - rewrite (@shRun_cons MWord ch_backslash _ MBackslash [] eq_refl),
            (@shRun_cons MBackslash ch_quote _ MWord [EByte ch_quote]
               eq_refl), shThen_nil.
    reflexivity.
Qed.

Lemma read_open_single m0 k :
  m0 = MStart \/ m0 = MWord ->
  shRun m0 (ch_quote :: k) = shRun MSingle k.
Proof.
  intros [-> | ->].
  - rewrite (@shRun_cons MStart ch_quote _ MSingle [] eq_refl), shThen_nil.
    reflexivity.
  - rewrite (@shRun_cons MWord ch_quote _ MSingle [] eq_refl), shThen_nil.
    reflexivity.
Qed.

Lemma read_open_ansi m0 k :
  m0 = MStart \/ m0 = MWord ->
  shRun m0 (s_dollar_quote ++ k) = shRun MAnsi k.
Proof.
  intros [-> | ->]; cbn [s_dollar_quote app].
  - rewrite (@shRun_cons MStart ch_dollar _ MDollar [] eq_refl),
            (@shRun_cons MDollar ch_quote _ MAnsi [] eq_refl), !shThen_nil.
    reflexivity.
  - rewrite (@shRun_cons MWord ch_dollar _ MDollar [] eq_refl),
            (@shRun_cons MDollar ch_quote _ MAnsi [] eq_refl), !shThen_nil.
    reflexivity.
Qed.

Section ReadRecord.
Variable o : options.
Hypothesis Hlimit : ansiEscapesLimit o = 14 \/ ansiEscapesLimit o = 28.

(** What the byte oriented loop writes for a record, from the byte [c] to
    the end of the input, read back from between two words ([MStart]) or
    inside a word: the bytes of the record, in one word. *)
Lemma read_record fuel : forall jump c s m0,
  (length s < fuel)%nat -> Forall recordByte (c :: s) ->
  (m0 = MStart /\ jump = (ch_tilde =? c)) \/ (m0 = MWord /\ jump = false) ->
  exists t,
    narrowRecord o fuel jump c s [] = Some (EOF, [], t)
    /\ forall k,
         shRun m0 (t ++ k) = shThen (map EByte (c :: s)) (shRun MWord k).
Proof.
  induction fuel as [|fuel IH]; intros jump c s m0 Hlen Hcs Hmode; [lia|].
  inversion Hcs as [|? ? Hc Hs]; subst.
  assert (Hm0 : m0 = MStart \/ m0 = MWord) by tauto.
  assert (N : forall s0 out0,
             Forall recordByte s0 -> (length s0 <= fuel)%nat ->
             exists t1,
               (let (c', s') := getc s0 in
                if 0 <? c' then narrowRecord o fuel false c' s' out0
                else Some (c', s', out0)) = Some (EOF, [], out0 ++ t1)
               /\ forall k,
                    shRun MWord (t1 ++ k)
                    = shThen (map EByte s0) (shRun MWord k)).
  { intros s0 out0 H0 Hl0. destruct s0 as [|b s1]; cbn [getc].
    - exists []. rewrite app_nil_r. split; [reflexivity|].
      intros k. cbn [app map]. rewrite shThen_nil. reflexivity.
    - inversion H0 as [|? ? Hb Hs1]; subst.
      replace (0 <? b) with true
        by (symmetry; apply Z.ltb_lt; unfold recordByte in Hb; lia).
      rewrite narrowRecord_app.
      destruct (IH false b s1 MWord) as (t1 & E & Hk);
        [cbn [length] in Hl0; lia|exact H0|right; auto|].
      rewrite E. exists t1. split; [reflexivity|exact Hk]. }
  cbn [narrowRecord].
  destruct (jump || isShControl c
            || negb (if jump then true else disableCQuoting o || isprint c))
    eqn:Econd.
  - destruct (Z.eqb_spec ch_quote c) as [<-|Hq].
    + destruct (N s s_bs_quote Hs ltac:(lia)) as (t1 & E1 & Hk1).
      exists (s_bs_quote ++ t1). split; [exact E1|].
      intros k. rewrite <- app_assoc, read_bs_quote, Hk1, shThen_shThen
        by exact Hm0.
      reflexivity.
    + destruct (disableCQuoting o) eqn:Em.
      * destruct (read_raw Hcs ltac:(congruence))
          as (pre & b & s' & E & Hcase & Hk).
        rewrite narrowRaw_app, E. cbv beta iota.
        destruct Hcase as [(-> & -> & ->)|(-> & ->)].
        -- change (ch_quote =? EOF) with false.
           change (EOF <=? 0) with true. cbv iota.
           exists (ch_quote :: (c :: pre) ++ [ch_quote]).
           split; [reflexivity|].
           intros k. cbn [app]. rewrite read_open_single by exact Hm0.
           rewrite <- app_assoc. cbn [app].
           change (c :: pre ++ ch_quote :: k)
             with ((c :: pre) ++ ch_quote :: k).
           apply Hk.
        -- rewrite Z.eqb_refl.
           apply Forall_app in Hs. destruct Hs as [Hpre Hs'].
           inversion Hs' as [|? ? _ Hs'']; subst.
           rewrite length_app in Hlen. cbn [length] in Hlen.
           destruct (N s' (((([] ++ [ch_quote]) ++ c :: pre) ++ [ch_quote])
                           ++ s_bs_quote) Hs'' ltac:(lia))
             as (t1 & E1 & Hk1).
           exists (ch_quote :: (c :: pre) ++ [ch_quote] ++ s_bs_quote ++ t1).
           split.
           { etransitivity; [exact E1|]. do 2 f_equal. cbn [app].
             rewrite <- !app_assoc. reflexivity. }
           intros k.
           replace ((ch_quote :: (c :: pre) ++ [ch_quote] ++ s_bs_quote
                       ++ t1) ++ k)
             with (ch_quote
                     :: ((c :: pre) ++ ch_quote :: (s_bs_quote ++ t1 ++ k)))
             by (cbn [app]; rewrite <- !app_assoc; reflexivity).
           rewrite read_open_single by exact Hm0.
           rewrite Hk, read_bs_quote, Hk1, !shThen_shThen by (right; auto).
           f_equal. cbn [map app]. f_equal.
           rewrite map_app. cbn [map]. rewrite <- app_assoc. reflexivity.
      * assert (Ep : (if jump then true else false || isprint c)
                     = isprint c).
        { destruct jump; [|reflexivity].
          destruct Hmode as [[_ Hj]|[_ Hj]]; [|discriminate].
          symmetry in Hj. apply Z.eqb_eq in Hj. subst c. reflexivity. }
        rewrite Ep.
        destruct (@read_quoted o s c Hlimit Hcs)
          as (x & t & E & _ & Hk).
        rewrite narrowQuoted_app, E. cbv beta iota.
        change (ch_quote =? EOF) with false.
        change (EOF <=? 0) with true. cbv iota.
        exists (s_dollar_quote ++ (x :: t) ++ [ch_quote]).
        split; [reflexivity|].
        intros k. rewrite <- !app_assoc, read_open_ansi by exact Hm0.
        cbn [app]. change (x :: t ++ ch_quote :: k)
          with ((x :: t) ++ ch_quote :: k).
        apply Hk.
  - apply orb_false_elim in Econd. destruct Econd as [Econd _].
    apply orb_false_elim in Econd. destruct Econd as [Ej Esh]. subst jump.
    destruct (N s [to_uchar c] Hs ltac:(lia)) as (t1 & E1 & Hk1).
    exists ([to_uchar c] ++ t1). split; [exact E1|].
    intros k. rewrite (to_uchar_byte (recordByte_byte Hc)). cbn [app].
    destruct (read_unquoted Hc Esh) as [R1 R2].
    assert (R : shStep m0 c = Some (MWord, [EByte c])).
    { destruct Hmode as [[-> Hj]|[-> _]]; [|exact R1].
      apply R2. intros ->. discriminate. }
    rewrite (@shRun_cons _ _ (t1 ++ k) _ _ R), Hk1, shThen_shThen. reflexivity.
Qed.
End ReadRecord.

Lemma termBytes_none o b :
  nullTerminatedOutput o = false -> termBytes o b = [].
Proof.
  intros H. unfold termBytes. rewrite H, andb_false_r.
  destruct b; reflexivity.
Qed.

(** The output for a record followed by a null and by more input is the
    output for the record, the separator and the output for the rest. *)
Lemma narrowLoop_cons o r e c rest t :
  (forall rest',
      narrowLoop o None (r ++ 0 :: rest')
      = narrowResume o None (length (r ++ 0 :: rest') + 1) 0 rest' e) ->
  0 <= c -> narrowLoop o None (c :: rest) = Some t ->
  narrowLoop o None (r ++ 0 :: c :: rest) = Some (e ++ sepBytes o ++ t).
Proof.
  intros E2 Hc Et. rewrite E2. unfold narrowResume, narrowBetween.
  change (0 =? 0) with true. cbn [getc].
  replace (EOF =? c) with false
    by (symmetry; apply Z.eqb_neq; unfold EOF; lia).
  cbn [negb]. rewrite separator_none, andb_true_r.
  unfold narrowLoop in Et. cbn [getc] in Et.
  assert (Em := @narrowRecords_mono o None _
                  (length (r ++ 0 :: c :: rest) + 1) _ _ _ _ _ Et
                  ltac:(rewrite length_app; cbn [length]; lia)).
  destruct (ch_tilde =? c);
    rewrite narrowRecords_app, Em; cbn [option_map];
    rewrite <- app_assoc; reflexivity.
Qed.

Section ReadRecords.
Variable o : options.
Hypothesis Hlimit : ansiEscapesLimit o = 14 \/ ansiEscapesLimit o = 28.
Hypothesis Hnull : nullTerminatedOutput o = false.
Hypothesis Hignore : ignoreNullInput o = false.

Lemma recordByte_positive r : Forall recordByte r -> Forall positive r.
Proof. apply Forall_impl. unfold recordByte, positive. intros; lia. Qed.

(** The output for one record, read back. *)
Lemma read_one r :
  Forall recordByte r ->
  exists e,
    narrowLoop o None r = Some e
    /\ (forall rest,
           narrowLoop o None (r ++ 0 :: rest)
           = narrowResume o None (length (r ++ 0 :: rest) + 1) 0 rest e)
    /\ forall k,
         shRun MStart (e ++ k) = shThen (map EByte r) (shRun MWord k).
Proof.
  intros Hr.
  destruct (narrowLoop_record o (recordByte_positive Hr)) as (e & E1 & E2).
  rewrite (@termBytes_none o _ Hnull), app_nil_r in E1.
  exists e. split; [exact E1|]. split; [exact E2|].
  destruct r as [|b r].
  - assert (He : e = s_quote_quote).
    { unfold narrowLoop in E1. cbn in E1. rewrite Hnull, andb_false_r in E1.
      inversion E1. reflexivity. }
    subst e. intros k. cbn [s_quote_quote app map].
    rewrite (@read_open_single MStart) by (left; reflexivity).
    rewrite read_close_single, shThen_nil. reflexivity.
  - destruct (@read_record o Hlimit (length (b :: r) + 1) (ch_tilde =? b)
                b r MStart) as (t & Et & Hk);
      [cbn [length]; lia|exact Hr|left; auto|].
    assert (He : e = t).
    { unfold narrowLoop in E1. cbn [getc] in E1.
      replace (length (b :: r) + 2)%nat
        with (S (length (b :: r) + 1)) in E1 by lia.
      rewrite narrowRecords_unfold in E1.
      inversion Hr as [|? ? Hb _]; subst. unfold recordByte in Hb.
      replace (0 <? b) with true in E1 by (symmetry; apply Z.ltb_lt; lia).
      rewrite orb_true_r, Et in E1.
      unfold narrowResume, narrowBetween in E1.
      change (0 =? EOF) with false in E1. cbv iota in E1.
      rewrite terminator_eq in E1.
      rewrite (@termBytes_none o false Hnull), app_nil_r in E1.
      inversion E1. reflexivity. }
    subst e. exact Hk.
Qed.

Lemma read_space k :
  shRun MWord (ch_space :: k) = shThen [EEnd] (shRun MStart k).
Proof. apply (@shRun_cons MWord ch_space k MStart [EEnd] eq_refl). Qed.

(** The output for records that each end with a null, read back. *)
Lemma read_records records :
  records <> [] -> Forall (Forall recordByte) records ->
  exists out,
    narrowLoop o None (flat_map (fun r => r ++ [0]) records) = Some out
    /\ shRun MStart out = Some (MWord, shEvents records).
Proof.
  induction records as [|r records IH]; intros Hne Hall; [congruence|].
  inversion Hall as [|? ? Hr Hrest]; subst.
  destruct (read_one Hr) as (e & E1 & E2 & Hk).
  destruct records as [|r2 records].
  - exists e. split.
    + cbn [flat_map]. rewrite app_nil_r.
      rewrite E2. unfold narrowResume, narrowBetween.
      change (0 =? 0) with true. cbn [getc]. change (EOF =? EOF) with true.
      cbn [negb]. rewrite terminator_eq, (@termBytes_none o _ Hnull), app_nil_r.
      reflexivity.
    + rewrite <- (app_nil_r e), Hk. cbn [shRun shThen shEvents].
      rewrite app_nil_r. reflexivity.
  - destruct (IH ltac:(discriminate) Hrest) as (t & Et & Ht).
    assert (Hhd : exists c rest,
               flat_map (fun r => r ++ [0]) (r2 :: records) = c :: rest
               /\ 0 <= c).
    { cbn [flat_map]. inversion Hrest as [|? ? Hr2 _]; subst.
      destruct r2 as [|c r2]; cbn [app].
      - eexists _, _. split; [reflexivity|lia].
      - inversion Hr2 as [|? ? Hc _]; subst. unfold recordByte in Hc.
        eexists _, _. split; [reflexivity|lia]. }
    destruct Hhd as (c & rest & Ehd & Hc).
    exists (e ++ sepBytes o ++ t). split.
    + change (flat_map (fun r => r ++ [0]) (r :: r2 :: records))
        with ((r ++ [0])
                ++ flat_map (fun r => r ++ [0]) (r2 :: records)).
      rewrite Ehd in *. rewrite <- app_assoc. cbn [app].
      apply narrowLoop_cons; assumption.
    + unfold sepBytes. rewrite Hignore, Hnull. cbn [app].
      rewrite Hk, read_space, Ht. cbn [shThen].
      change (shEvents (r :: r2 :: records))
        with (map EByte r ++ EEnd :: shEvents (r2 :: records)).
      reflexivity.
Qed.
End ReadRecords.

Lemma limit_of_parse ks o :
  parseOptions defaults ks = inl o ->
  ansiEscapesLimit o = 14 \/ ansiEscapesLimit o = 28.
Proof.
  intros H. rewrite (parseOptions_closed _ H). cbn [optionsOf ansiEscapesLimit].
  destruct (hasOpt OptU ks); [right|left]; reflexivity.
Qed.

(** X13: where the byte oriented loop is in use (the C locale, or a UTF-8
    locale with minimal), without null-terminated output and when nothing
    fails, the output for one or more arguments made of any bytes but null
    is a line that a shell reads back as those arguments: as many words,
    each with the bytes of its argument, with and without minimal and
    unicode-escapes.  The same holds of records read from stdin, each
    ended by a null, unless ignore-null-input is given. *)
Theorem byte_loop_round_trip
        (p : platform) (ks : list optchar) (o : options)
        (a : list Z) (args : list (list Z))
        (Hparse : parseOptions defaults ks = inl o)
        (Hnull : nullTerminatedOutput o = false)
        (Hnarrow : useNarrow p o = true)
        (Hfork : forkOk p = true) (Hpipe : pipeRoom p = None)
        (Hroom : stdoutRoom p = None)
        (Hbytes : Forall (Forall recordByte) (a :: args)) :
  (forall input,
      exists out,
        main p ks (a :: args) input = Some (Ran out 0)
        /\ shWords out = Some (a :: args))
  /\ (ignoreNullInput o = false ->
      exists out,
        main p ks [] (flat_map (fun r => r ++ [0]) (a :: args))
        = Some (Ran out 0)
        /\ shWords out = Some (a :: args)).
Proof.
  assert (Hl := limit_of_parse _ Hparse).
  assert (Hread : forall out,
             shRun MStart out = Some (MWord, shEvents (a :: args)) ->
             shWords out = Some (a :: args)).
  { intros out E. unfold shWords. rewrite E.
    rewrite shBuild_events by discriminate. reflexivity. }
  split.
  - intros input. rewrite (@main_arguments p ks o a args input Hparse Hfork Hpipe).
    unfold engine.
    replace (useNarrow p (withoutIgnoreNull o)) with true
      by (rewrite <- Hnarrow; reflexivity).
    destruct (@read_records (withoutIgnoreNull o) Hl Hnull eq_refl
                (a :: args) ltac:(discriminate) Hbytes) as (out & E & R).
    rewrite Hroom, E. exists out. split; [reflexivity|apply Hread, R].
  - intros Hi. unfold main. rewrite Hparse. unfold engine.
    rewrite Hnarrow.
    destruct (@read_records o Hl Hnull Hi (a :: args) ltac:(discriminate)
                Hbytes) as (out & E & R).
    rewrite Hroom, E. exists out. split; [reflexivity|apply Hread, R].
Qed.

Lemma byte_loop_round_trip_witness :
  exists out,
    main posixPlatform [OptU] [[126; 97]; []; [1; 50; 39; 32; 200]] []
    = Some (Ran out 0)
    /\ shWords out = Some [[126; 97]; []; [1; 50; 39; 32; 200]].
Proof.
  refine (proj1 (@byte_loop_round_trip posixPlatform [OptU]
                   (optionsOf [OptU]) [126; 97]
                   [[]; [1; 50; 39; 32; 200]]
                   eq_refl eq_refl eq_refl eq_refl eq_refl eq_refl _) []).
  repeat constructor; unfold recordByte; lia.
Defined.

(** ** The values that the decoder delivers *)

Lemma land_low b n : 0 <= n -> Z.land b (Z.ones n) = b mod 2 ^ n.
Proof. intros Hn. apply Z.land_ones, Hn. Qed.

Lemma cp2_bound b0 b1 : 0 <= cp2 b0 b1 < 0x800.
Proof.
  unfold cp2. change 0x1F with (Z.ones 5). change 0x3F with (Z.ones 6).
  rewrite !land_low by lia.
  assert (H0 := Z.mod_pos_bound b0 (2 ^ 5) ltac:(lia)).
  assert (H1 := Z.mod_pos_bound b1 (2 ^ 6) ltac:(lia)).
  rewrite lor_add by lia. lia.
Qed.

Lemma cp3_bound b0 b1 b2 : 0 <= cp3 b0 b1 b2 < 0x10000.
Proof.
  unfold cp3. change 0x0F with (Z.ones 4). change 0x3F with (Z.ones 6).
  rewrite !land_low by lia.
  assert (H0 := Z.mod_pos_bound b0 (2 ^ 4) ltac:(lia)).
  assert (H1 := Z.mod_pos_bound b1 (2 ^ 6) ltac:(lia)).
  assert (H2 := Z.mod_pos_bound b2 (2 ^ 6) ltac:(lia)).
  rewrite (Z.shiftl_mul_pow2 (b1 mod 2 ^ 6) 6) by lia.
  rewrite lor_add by lia.
  replace (b0 mod 2 ^ 4 * 2 ^ 12 + b1 mod 2 ^ 6 * 2 ^ 6)
    with (Z.shiftl (b0 mod 2 ^ 4 * 64 + b1 mod 2 ^ 6) 6)
    by (rewrite Z.shiftl_mul_pow2 by lia; lia).
  rewrite lor_add by lia. lia.
Qed.

Lemma rawTail_bytes st :
  bytesInCodePoint (snd (rawTail st)) = bytesInCodePoint st.
Proof.
  unfold rawTail. destruct (getUtf8BuffLength st) as [|n]; [reflexivity|].
  cbn [snd]. destruct (n =? 0)%nat; reflexivity.
Qed.

Lemma atLeast_bytes n st :
  bytesInCodePoint (atLeast n st) = bytesInCodePoint st.
Proof. unfold atLeast. destruct (_ <? _)%nat; reflexivity. Qed.

Lemma setCbuff_bytes k : forall st,
  bytesInCodePoint (setCbuff k st) = bytesInCodePoint st.
Proof.
  induction k as [|k IH]; intros st; cbn [setCbuff]; [reflexivity|].
  rewrite IH. reflexivity.
Qed.

Lemma decodedTail_bytes rc st :
  fst (decodedTail rc st) = rc
  /\ bytesInCodePoint (snd (decodedTail rc st)) = bytesInCodePoint st.
Proof.
  unfold decodedTail. cbn [fst snd]. split; [reflexivity|].
  destruct (_ =? 0)%nat; cbn [set_buff bytesInCodePoint];
    apply setCbuff_bytes.
Qed.

(** The tests of range of [getUtf8CodePoint], read off its result. *)
Lemma decoded_range st :
  let r := getUtf8CodePoint st in
  (bytesInCodePoint (snd r) = 2%nat -> 0x80 <= fst r < 0x800)
  /\ (bytesInCodePoint (snd r) = 3%nat ->
      0x800 <= fst r < 0xD800 \/ 0xDFFF < fst r < 0x10000)
  /\ (bytesInCodePoint (snd r) = 4%nat -> 0x10000 <= fst r <= 0x10FFFF)
  /\ (bytesInCodePoint (snd r) <= 4)%nat.
Proof.
  unfold getUtf8CodePoint.
  generalize (if (getUtf8BuffLength st =? 0)%nat then readInto 0 st else st).
  clear st. intros st. cbv zeta.
  repeat match goal with
  | |- context [if ?b then _ else _] =>
      lazymatch b with
      | context [if _ then _ else _] => fail
      | _ => destruct b eqn:?
      end
  end;
  rewrite ?rawTail_bytes, ?atLeast_bytes;
  repeat match goal with
  | |- context [decodedTail ?rc ?s] =>
      destruct (decodedTail_bytes rc s) as [-> ->]
  end;
  cbn [bytesInCodePoint set_bytes set_len set_cbuff];
  (split; [|split; [|split]]); try (intros; discriminate); try lia;
  intros _;
  repeat match goal with
  | H : _ && _ = true |- _ => apply andb_prop in H; destruct H
  | H : _ || _ = true |- _ => apply orb_true_iff in H
  | H : (_ <? _) = true |- _ => apply Z.ltb_lt in H
  end.
  all: try match goal with
  | |- context [cp2 ?a ?b] => assert (B := cp2_bound a b); lia
  | |- context [cp3 ?a ?b ?c] => assert (B := cp3_bound a b c)
  | |- context [cp4 _ _ _ _] => lia
  end.
  all: match goal with
  | H : _ \/ _ |- _ => destruct H as [H|H]; apply Z.ltb_lt in H; lia
  end.
Qed.

(** X14: every code point that [getUtf8CodePoint] delivers as decoded is a
    Unicode scalar value of the width that it reports: below 128 with one
    byte, from 0x80 to 0x7FF with two, from 0x800 to 0xFFFF and no
    surrogate with three, from 0x10000 to 0x10FFFF with four; and what it
    delivers with [bytesInCodePoint] at 0 is the end of the input or a
    byte from 128 to 255.  No other width is reported. *)
Theorem decoded_values_are_scalar (st : utf8) (Hwf : wf st) :
  let r := getUtf8CodePoint st in
  match bytesInCodePoint (snd r) with
  | 0%nat => fst r = EOF \/ 128 <= fst r < 256
  | 1%nat => 0 <= fst r < 128
  | 2%nat => 0x80 <= fst r < 0x800
  | 3%nat => 0x800 <= fst r < 0xD800 \/ 0xDFFF < fst r < 0x10000
  | 4%nat => 0x10000 <= fst r <= 0x10FFFF
  | _ => False
  end.
Proof.
  intros r. destruct (get_consume Hwf) as [_ Hc].
  destruct (decoded_range st) as (H2 & H3 & H4 & Hle).
  fold r in Hc, H2, H3, H4, Hle. unfold consumes in Hc.
  destruct (bytesInCodePoint (snd r)) as [|[|[|[|[|k]]]]] eqn:Ek.
  - destruct Hc as [(_ & He & _)|(_ & [(_ & Hr)|[(Hk & _)|(Hk & _)]])];
      [left; exact He|right; exact Hr|discriminate|lia].
  - destruct Hc as [(_ & _ & Hk & _)|(_ & [(Hk & _)|[(_ & Hr & _)|(Hk & _)]])];
      [discriminate|discriminate|exact Hr|lia].
  - apply H2. reflexivity.
  - apply H3. reflexivity.
  - apply H4. reflexivity.
  - lia.
Qed.

Lemma decoded_values_are_scalar_witness :
  0x800 <= fst (getUtf8CodePoint (utf8_init [0xE2; 0x82; 0xAC])) < 0xD800
  \/ 0xDFFF < fst (getUtf8CodePoint (utf8_init [0xE2; 0x82; 0xAC]))
     < 0x10000.
Proof.
  refine (@decoded_values_are_scalar (utf8_init [0xE2; 0x82; 0xAC]) _).
  apply wf_init. repeat constructor; unfold byte; lia.
Defined.

(** ** The UTF-8 loop on ASCII input *)

Lemma ascii_get st s :
  asciiRest st s ->
  exists st', getUtf8CodePoint st = (fst (getc s), st')
              /\ asciiRest st' (snd (getc s))
              /\ (0 < fst (getc s) -> asciiAt (fst (getc s)) st' (snd (getc s))).
Proof.
  intros (Hwf & Hp & Hs).
  assert (Hwf' := proj1 (get_spec Hwf)). cbv zeta in Hwf'.
  destruct s as [|b s]; cbn [getc fst snd].
  - destruct (get_eof Hwf Hp) as (st' & E & W & P).
    exists st'. split; [exact E|].
    split; [split; [exact W|split; [exact P|constructor]]|].
    unfold EOF. intros H. lia.
  - inversion Hs as [|? ? Hb Hs']; subst.
    destruct (view_inv _ (get_ascii Hwf Hp Hb)) as (st' & E & Hk & Hcb & P).
    rewrite E in Hwf'. cbn [snd] in Hwf'.
    exists st'. split; [exact E|].
    assert (R : asciiRest st' s)
      by (split; [exact Hwf'|split; [exact P|exact Hs']]).
    split; [exact R|]. intros H0. unfold asciiByte in Hb.
    split; [exact R|]. split; [lia|]. split; [exact Hk|exact Hcb].
Qed.

Lemma ascii_peek st s :
  asciiRest st s ->
  fst (peekUtf8 st) = fst (getc s) /\ asciiRest (snd (peekUtf8 st)) s.
Proof.
  intros H. destruct (ascii_get H) as (st' & E & _).
  destruct H as (Hwf & Hp & Hs).
  destruct (peek_restores Hwf) as (W & P & F & _).
  rewrite F, E. split; [reflexivity|].
  split; [exact W|split; [congruence|exact Hs]].
Qed.

Section AsciiInput.
Variables iswprint iswspace : Z -> bool.
Variable o : options.
Variable room : option nat.
Hypothesis Hquoting : disableCQuoting o = false.
Hypothesis Hagree :
  forall c, 0 < c < 128 -> callIswprintFn iswprint iswspace o c = isprint c.

Lemma ascii_printable c st s :
  asciiAt c st s -> utf8Printable iswprint iswspace o c st = isprint c.
Proof.
  intros (_ & Hc & Hk & _). unfold utf8Printable. rewrite Hk.
  cbn [Nat.eqb negb andb]. apply Hagree, Hc.
Qed.

Lemma ascii_emit c isP st s out :
  asciiAt c st s ->
  exists st',
    utf8Emit o c isP st out = (st', narrowEmit o c isP s out, false)
    /\ asciiRest st' s.
Proof.
  intros (R & Hc & Hk & Hcb). unfold utf8Emit, narrowEmit.
  rewrite Hk, Hcb. cbn [Nat.eqb negb].
  assert (Hu : to_uchar c = c) by (apply to_uchar_byte; unfold byte; lia).
  rewrite Hu.
  replace (c <? 128) with true by (symmetry; apply Z.ltb_lt; lia).
  cbn [orb].
  destruct (ascii_peek R) as [Pf Pr].
  destruct (peekUtf8 st) as [n st1]. cbn [fst snd] in Pf, Pr. subst n.
  destruct isP.
  - exists st. split; [|exact R].
    destruct (ch_backslash =? c); [reflexivity|].
    destruct (ch_quote =? c); reflexivity.
  - destruct (hasAnsiEscape (ansiEscapesLimit o) c);
      [exists st; split; [reflexivity|exact R]|].
    destruct (63 <? c); cbn [orb];
      [exists st; split; [reflexivity|exact R]|].
    exists st1. split; [reflexivity|exact Pr].
Qed.

Lemma ascii_quoted fuel : forall c isP st s out,
  asciiAt c st s -> (length s < fuel)%nat ->
  exists st',
    utf8Quoted iswprint iswspace o fuel c isP st out
    = Some (fst (fst (narrowQuoted o s c isP out)), st',
            snd (narrowQuoted o s c isP out))
    /\ asciiRest st' (snd (fst (narrowQuoted o s c isP out)))
    /\ fst (fst (narrowQuoted o s c isP out)) <= 0.
Proof.
  induction fuel as [|fuel IH]; intros c isP st s out Hat Hlen; [lia|].
  cbn [utf8Quoted].
  destruct (ascii_emit isP out Hat) as (st1 & E1 & R1). rewrite E1.
  destruct (ascii_get R1) as (st2 & E2 & R2 & A2). rewrite E2.
  destruct s as [|b s]; cbn [getc fst snd narrowQuoted] in *.
  - change (0 <? EOF) with false. cbv iota.
    exists st2. split; [reflexivity|]. split; [exact R2|unfold EOF; lia].
  - destruct (0 <? b) eqn:Eb.
    + apply Z.ltb_lt in Eb.
      rewrite (ascii_printable (A2 Eb)).
      apply IH; [exact (A2 Eb)|cbn [length] in Hlen; lia].
    + apply Z.ltb_ge in Eb.
      exists st2. split; [reflexivity|]. split; [exact R2|exact Eb].
Qed.

Lemma ascii_record fuel : forall jump c st s out,
  asciiAt c st s -> (length s + 1 < fuel)%nat ->
  (jump = true -> c = ch_tilde) ->
  exists c' st' s' out',
    utf8Record iswprint iswspace o fuel jump c st out = Some (c', st', out')
    /\ narrowRecord o fuel jump c s out = Some (c', s', out')
    /\ asciiRest st' s' /\ (length s' <= length s)%nat.
Proof.
  induction fuel as [|fuel IH]; intros jump c st s out Hat Hlen Hj; [lia|].
  assert (Hc : 0 < c < 128) by (destruct Hat as (_ & Hc & _); exact Hc).
  assert (N : forall st0 s0 out0,
             asciiRest st0 s0 -> (length s0 < fuel)%nat ->
             exists c' st' s' out',
               utf8Next iswprint iswspace o fuel st0 out0
               = Some (c', st', out')
               /\ (let (c1, s1) := getc s0 in
                   if 0 <? c1 then narrowRecord o fuel false c1 s1 out0
                   else Some (c1, s1, out0)) = Some (c', s', out')
               /\ asciiRest st' s' /\ (length s' <= length s0)%nat).
  { intros st0 s0 out0 R0 L0. unfold utf8Next.
    destruct (ascii_get R0) as (st1 & E1 & R1 & A1). rewrite E1.
    destruct s0 as [|b s1]; cbn [getc fst snd] in *.
    - change (0 <? EOF) with false. cbv iota.
      eexists _, _, _, _. split; [reflexivity|]. split; [reflexivity|].
      split; [exact R1|lia].
    - destruct (0 <? b) eqn:Eb.
      + apply Z.ltb_lt in Eb.
        destruct (IH false b st1 s1 out0 (A1 Eb) ltac:(cbn [length] in L0; lia)
                     ltac:(discriminate))
          as (c' & st' & s' & out' & U & V & R' & L').
        eexists _, _, _, _. split; [exact U|]. split; [exact V|].
        split; [exact R'|cbn [length]; lia].
      + eexists _, _, _, _. split; [reflexivity|]. split; [reflexivity|].
        split; [exact R1|cbn [length]; lia]. }
  rewrite utf8Record_unfold. cbv zeta. cbn [narrowRecord].
  rewrite Hquoting, (ascii_printable Hat). cbn [orb].
  assert (Hat' := Hat). destruct Hat' as (R & _ & Hk & Hcb).
  replace (jump || negb (if jump then true else isprint c) || isShControl c)
    with (jump || isShControl c || negb (if jump then true else isprint c))
    by (destruct jump, (isShControl c), (isprint c); reflexivity).
  destruct (jump || isShControl c
            || negb (if jump then true else isprint c)).
  - assert (Eq : negb jump && (ch_quote =? c) = (ch_quote =? c)).
    { destruct jump; [|reflexivity]. rewrite (Hj eq_refl). reflexivity. }
    rewrite Eq.
    destruct (ch_quote =? c); [apply N; [exact R|lia]|].
    destruct (@ascii_quoted fuel c (if jump then true else isprint c)
                st s (out ++ s_dollar_quote) Hat ltac:(lia))
      as (st1 & E1 & R1 & Hle).
    rewrite E1.
    destruct (narrowQuoted o s c (if jump then true else isprint c)
                (out ++ s_dollar_quote)) as [[c1 s1] out1] eqn:Enq.
    cbn [fst snd] in *.
    assert (L1 : (length s1 <= length s)%nat).
    { assert (H := narrowQuoted_length o s c
                     (if jump then true else isprint c)
                     (out ++ s_dollar_quote)).
      rewrite Enq in H. exact H. }
    replace (ch_quote =? c1) with false
      by (symmetry; apply Z.eqb_neq; unfold ch_quote; lia).
    replace (c1 <=? 0) with true by (symmetry; apply Z.leb_le; exact Hle).
    eexists _, _, _, _. split; [reflexivity|]. split; [reflexivity|].
    split; [exact R1|exact L1].
  - rewrite Hk, Hcb.
    rewrite (to_uchar_byte (x := c)) by (unfold byte; lia).
    apply N; [exact R|lia].
Qed.

Lemma ascii_records fuel : forall jump c st s out,
  asciiRest st s -> (0 < c -> asciiAt c st s) ->
  (length s + 2 < fuel)%nat -> (jump = true -> c = ch_tilde) ->
  utf8Records iswprint iswspace o room fuel jump c st out
  = narrowRecords o room fuel jump c s out.
Proof.
  induction fuel as [|fuel IH]; intros jump c st s out R Hat Hlen Hj;
    [lia|].
  cbn [utf8Records narrowRecords].
  assert (E : exists c' st' s' out',
             (if jump || (0 <? c)
              then utf8Record iswprint iswspace o fuel jump c st out
              else Some (c, st, out ++ s_quote_quote))
             = Some (c', st', out')
             /\ (if jump || (0 <? c) then narrowRecord o fuel jump c s out
                 else Some (c, s, out ++ s_quote_quote))
                = Some (c', s', out')
             /\ asciiRest st' s' /\ (length s' <= length s)%nat).
  { destruct (jump || (0 <? c)) eqn:Ej.
    - assert (H0 : 0 < c).
      { apply orb_true_iff in Ej. destruct Ej as [Ej|Ej].
        - rewrite (Hj Ej). reflexivity.
        - apply Z.ltb_lt, Ej. }
      apply ascii_record; [apply Hat, H0|lia|exact Hj].
    - eexists _, _, _, _. split; [reflexivity|]. split; [reflexivity|].
      split; [exact R|lia]. }
  destruct E as (c1 & st1 & s1 & out1 & -> & -> & R1 & L1).
  unfold utf8Between, narrowBetween.
  destruct (0 =? c1); [|reflexivity].
  destruct (ascii_get R1) as (st2 & E2 & R2 & A2). rewrite E2.
  destruct s1 as [|c2 s2]; cbn [getc fst snd] in *; [reflexivity|].
  cbn [length] in L1.
  destruct (negb (EOF =? c2)); [|reflexivity].
  destruct (separator o room out1) as [lc out2].
  destruct ((ch_tilde =? c2) && lc) eqn:Et.
  - apply andb_prop in Et. destruct Et as [Et _]. apply Z.eqb_eq in Et.
    apply IH; [exact R2|exact A2|lia|auto].
  - destruct lc; [|reflexivity].
    apply IH; [exact R2|exact A2|lia|discriminate].
Qed.

Lemma ascii_loop input :
  Forall asciiByte input ->
  utf8Loop iswprint iswspace o room input = narrowLoop o room input.
Proof.
  intros Hin. destruct input as [|b input]; [reflexivity|].
  unfold utf8Loop, narrowLoop.
  assert (R0 : asciiRest (utf8_init (b :: input)) (b :: input)).
  { split; [|split; [reflexivity|exact Hin]].
    apply wf_init. revert Hin. apply Forall_impl.
    unfold asciiByte, byte. intros; lia. }
  destruct (ascii_get R0) as (st1 & E1 & R1 & A1). rewrite E1.
  cbn [getc fst snd] in *.
  apply ascii_records; [exact R1|exact A1|cbn [length]; lia|].
  intros H. apply Z.eqb_eq in H. auto.
Qed.
End AsciiInput.

Lemma classifiers_low iswprint iswspace o c :
  c < 0xA0 -> callIswprintFn iswprint iswspace o c = iswprint c.
Proof.
  intros Hc.
  assert (E : iswprintExt iswprint c = iswprint c).
  { unfold iswprintExt. decide_tests c. cbn [negb orb].
    rewrite !andb_true_r. reflexivity. }
  unfold callIswprintFn. destruct (iswprintFn o); [reflexivity|exact E|].
  unfold iswNotBlank. rewrite E. decide_tests c. cbn [negb].
  apply andb_true_r.
Qed.

(** X15: on an input made of ASCII characters and nulls, a run in a UTF-8
    locale whose [iswprint] agrees with [isprint] on ASCII ends as a run
    of the byte oriented loop does (as in the C locale): the same bytes
    are written and the status is the same, whatever the options and the
    room on standard output. *)
Theorem ascii_input_same_in_utf8_locale
        (p p' : platform) (o : options) (input : list Z)
        (Hlocale : setlocaleOk p = true) (Hutf8 : charmap p = CsUtf8)
        (Hnarrow : useNarrow p' o = true)
        (Hroom : stdoutRoom p = stdoutRoom p')
        (Hagree : forall c, 0 < c < 128 -> p_iswprint p c = isprint c)
        (Hin : Forall asciiByte input) :
  engine p o input = engine p' o input.
Proof.
  unfold engine. rewrite Hnarrow, Hroom. unfold useNarrow.
  rewrite Hlocale, Hutf8. cbn [negb orb andb].
  destruct (disableCQuoting o) eqn:Em; [reflexivity|].
  rewrite (@ascii_loop (p_iswprint p) (p_iswspace p) o (stdoutRoom p') Em);
    [reflexivity| |exact Hin].
  intros c Hc. rewrite classifiers_low by lia. apply Hagree, Hc.
Qed.

Lemma ascii_input_same_in_utf8_locale_witness :
  engine {| setlocaleOk := true; charmap := CsUtf8;
            p_iswprint := isprint; p_iswspace := fun _ => false;
            mbDecode := fun l => (l, false); wcEncode := fun c => [c];
            forkOk := true; pipeRoom := None; stdoutRoom := None |}
         defaults [126; 97; 1; 50; 0; 39; 32]
  = engine posixPlatform defaults [126; 97; 1; 50; 0; 39; 32].
Proof.
  apply ascii_input_same_in_utf8_locale; try reflexivity.
  repeat constructor; unfold asciiByte; lia.
Defined.
